(** * Solana prediction-market indexer: decoders, adapters, RPC retry and
      event dispatch, embedded from the TypeScript sources.

    Conventions of the embedding.
    - A JavaScript [number] that the code computes from integers is a
      canonical rational [Qc] ([JsNum.number]): such a number is finite, and
      its arithmetic is taken exact, so a theorem states the expression that
      the code evaluates, not an identity that holds only without rounding.
      A number read from account bytes with [readDoubleLE] can be any
      binary64 value: it is a [JsNum.double], with NaN and the infinities.
      Integer-valued numbers (timestamps, counters, BigInt fields that went
      through [toString]/[parseInt]) are [Z].
    - A function that may [throw] returns a [Result]; [try]/[catch] is a
      match on it.
    - [Date.now()] is read from a clock oracle: reading [i] is the [i]-th
      call made by the function under study, in program order. *)

From Stdlib Require Import ZArith QArith Qcanon.
From Stdlib.Strings Require Import Byte Ascii.
From stdpp Require Import base tactics option list numbers strings pretty relations sorting.

Local Open Scope Z_scope.
Set Warnings "-register-all".

(** ** Results of fallible code *)

Inductive Result (E A : Type) : Type :=
| Ok (a : A)
| Throw (e : E).
Arguments Ok {E A} a.
Arguments Throw {E A} e.

Definition is_ok {E A} (r : Result E A) : bool :=
  match r with Ok _ => true | Throw _ => false end.

Global Instance Result_ret {E} : MRet (Result E) := λ A a, Ok a.
Global Instance Result_bind {E} : MBind (Result E) := λ A B k r,
  match r with Ok a => k a | Throw e => Throw e end.

(** A thrown [Error] object: its class name and its message. *)
Record JsError := mkError { err_name : string; err_message : string }.

(** ** JavaScript numbers *)

Module JsNum.

Definition number := Qc.

Definition ofZ (n : Z) : number := Qc_of_Z n.
Definition frac (n : Z) (d : positive) : number := Q2Qc (n # d).

Definition leb (x y : number) : bool := Qle_bool (this x) (this y).
Definition ltb (x y : number) : bool := negb (leb y x).

(** [Math.max] and [Math.min] on two finite numbers. *)
Definition Math_max (x y : number) : number := if leb x y then y else x.
Definition Math_min (x y : number) : number := if leb x y then x else y.

(** [a / b]; the model's callers never divide by zero. *)
Definition div (x y : number) : number := (x / y)%Qc.

(** A number that may be NaN or infinite: what [readDoubleLE] returns, and
    what arithmetic on such values gives. *)
Inductive double :=
| NaN
| NegInfinity
| Fin (q : number)
| Infinity.

Definition dopp (x : double) : double :=
  match x with
  | NaN => NaN
  | NegInfinity => Infinity
  | Fin q => Fin (- q)%Qc
  | Infinity => NegInfinity
  end.

(** [x + y] *)
Definition dadd (x y : double) : double :=
  match x, y with
  | NaN, _ | _, NaN => NaN
  | Infinity, NegInfinity | NegInfinity, Infinity => NaN
  | Infinity, _ | _, Infinity => Infinity
  | NegInfinity, _ | _, NegInfinity => NegInfinity
  | Fin a, Fin b => Fin (a + b)%Qc
  end.

(** [x - y] *)
Definition dsub (x y : double) : double := dadd x (dopp y).

(** An infinity times a finite factor. *)
Definition scale_infinity (positive : bool) (q : number) : double :=
  if decide (q = 0%Qc) then NaN
  else if bool_decide (0 < q)%Qc
       then (if positive then Infinity else NegInfinity)
       else (if positive then NegInfinity else Infinity).

(** [x * y] *)
Definition dmul (x y : double) : double :=
  match x, y with
  | NaN, _ | _, NaN => NaN
  | Fin a, Fin b => Fin (a * b)%Qc
  | Infinity, Fin q | Fin q, Infinity => scale_infinity true q
  | NegInfinity, Fin q | Fin q, NegInfinity => scale_infinity false q
  | Infinity, Infinity | NegInfinity, NegInfinity => Infinity
  | Infinity, NegInfinity | NegInfinity, Infinity => NegInfinity
  end.

(** [x < y]: false as soon as one side is NaN. *)
Definition dltb (x y : double) : bool :=
  match x, y with
  | NaN, _ | _, NaN => false
  | _, NegInfinity => false
  | NegInfinity, _ => true
  | Infinity, _ => false
  | _, Infinity => true
  | Fin a, Fin b => ltb a b
  end.

(** [Math.max(x, y)] and [Math.min(x, y)]: NaN as soon as one argument
    is. *)
Definition dmax (x y : double) : double :=
  match x, y with
  | NaN, _ | _, NaN => NaN
  | _, _ => if dltb x y then y else x
  end.

Definition dmin (x y : double) : double :=
  match x, y with
  | NaN, _ | _, NaN => NaN
  | _, _ => if dltb y x then y else x
  end.

(** The rational that a finite number is.  [normalizeOutcome] stores its
    probability through it, after the two clamps that leave a finite
    value. *)
Definition finite (x : double) : number :=
  match x with
  | Fin q => q
  | _ => ofZ 0
  end.

End JsNum.

(** ** The unified schema (normalize/types.ts) *)

Inductive MarketStatus := active | settled | expired | paused | cancelled.

Global Instance MarketStatus_eq_dec : EqDecision MarketStatus.
Proof. solve_decision. Defined.

(** Values of the free-form [metadata] object. *)
Inductive JsValue :=
| JNum (n : JsNum.number)
| JDouble (d : JsNum.double)
| JInt (z : Z)
| JBool (b : bool)
| JStr (s : string)
| JArr (l : list JsValue)
| JObj (fields : list (string * JsValue)).

Record Outcome := mkOutcome {
  o_id : string;
  o_name : string;
  o_description : option string;
  o_probability : JsNum.number;
  o_volume : string;
  o_liquidity : string;
  o_lastPrice : option JsNum.double;
}.

Record Market := mkMarket {
  m_id : string;
  m_programId : string;
  m_address : string;
  m_name : string;
  m_description : string;
  m_category : option string;
  m_status : MarketStatus;
  m_outcomes : list Outcome;
  m_creator : string;
  m_resolver : option string;
  m_resolutionSource : option string;
  m_createdAt : Z;
  m_expiresAt : option Z;
  m_resolvedAt : option Z;
  m_winningOutcome : option string;
  m_totalVolume : string;
  m_totalLiquidity : string;
  m_minStake : option string;
  m_maxStake : option string;
  m_fee : option JsNum.number;
  m_metadata : list (string * JsValue);
}.

(** [Partial<Outcome>] and [Partial<Market>]: every field may be absent. *)
Record PartialOutcome := mkPartialOutcome {
  po_id : option string;
  po_name : option string;
  po_description : option string;
  po_probability : option JsNum.double;
  po_volume : option string;
  po_liquidity : option string;
  po_lastPrice : option JsNum.double;
}.

Record PartialMarket := mkPartialMarket {
  pm_id : option string;
  pm_programId : option string;
  pm_address : option string;
  pm_name : option string;
  pm_description : option string;
  pm_category : option string;
  pm_status : option MarketStatus;
  pm_outcomes : option (list Outcome);
  pm_creator : option string;
  pm_resolver : option string;
  pm_resolutionSource : option string;
  pm_createdAt : option Z;
  pm_expiresAt : option Z;
  pm_resolvedAt : option Z;
  pm_winningOutcome : option string;
  pm_totalVolume : option string;
  pm_totalLiquidity : option string;
  pm_minStake : option string;
  pm_maxStake : option string;
  pm_fee : option JsNum.number;
  pm_metadata : option (list (string * JsValue));
}.

Record ProgramAccountData := mkProgramAccountData {
  programId : string;
  address : string;
  slot : Z;
}.

(** ** MarketNormalizer (normalize/marketNormalizer.ts) *)

Module MarketNormalizer.

(** [s || dflt] on an optional string: absent and empty are both falsy. *)
Definition str_or (s : option string) (dflt : string) : string :=
  match s with
  | Some v => if decide (v = "") then dflt else v
  | None => dflt
  end.

(** [n || dflt] on an optional integer: absent and [0] are both falsy. *)
Definition int_or (n : option Z) (dflt : Z) : Z :=
  match n with
  | Some v => if decide (v = 0) then dflt else v
  | None => dflt
  end.

(** [n || 0] on an optional number: absent, [NaN] and [0] are falsy. *)
Definition num_or0 (n : option JsNum.double) : JsNum.double :=
  match n with
  | Some JsNum.NaN => JsNum.Fin (JsNum.ofZ 0)
  | Some v => v
  | None => JsNum.Fin (JsNum.ofZ 0)
  end.

(** A field of a partial object is usable when it is there and not the
    empty string. *)
Definition present (s : option string) : bool :=
  match s with
  | Some v => bool_decide (v ≠ "")
  | None => false
  end.

(** A zod failure carries the paths of the fields that did not validate. *)
Inductive ZodError := mkZodError (issues : list string).

(** [z.string().min(1)] *)
Definition min1 (s : string) : bool := bool_decide (1 ≤ String.length s)%nat.

Definition schema_issues (m : Market) : list string :=
  (if min1 (m_id m) then [] else ["id"]) ++
  (if min1 (m_programId m) then [] else ["programId"]) ++
  (if min1 (m_address m) then [] else ["address"]) ++
  (if min1 (m_name m) then [] else ["name"]).

Definition normalizeMarket (now : Z) (data : PartialMarket)
  : Result ZodError Market :=
  let marketData := {|
    m_id := str_or (pm_id data) "";
    m_programId := str_or (pm_programId data) "";
    m_address := str_or (pm_address data) "";
    m_name := str_or (pm_name data) "Unknown Market";
    m_description := str_or (pm_description data) "";
    m_category := pm_category data;
    m_status := default active (pm_status data);
    m_outcomes := default [] (pm_outcomes data);
    m_creator := str_or (pm_creator data) "";
    m_resolver := pm_resolver data;
    m_resolutionSource := pm_resolutionSource data;
    m_createdAt := int_or (pm_createdAt data) now;
    m_expiresAt := pm_expiresAt data;
    m_resolvedAt := pm_resolvedAt data;
    m_winningOutcome := pm_winningOutcome data;
    m_totalVolume := str_or (pm_totalVolume data) "0";
    m_totalLiquidity := str_or (pm_totalLiquidity data) "0";
    m_minStake := pm_minStake data;
    m_maxStake := pm_maxStake data;
    m_fee := pm_fee data;
    m_metadata := default [] (pm_metadata data);
  |} in
  match schema_issues marketData with
  | [] => Ok marketData
  | issues => Throw (mkZodError issues)
  end.

Definition normalizeOutcome (data : PartialOutcome) : Outcome :=
  let probability := num_or0 (po_probability data) in
  let probability :=
    if JsNum.dltb probability (JsNum.Fin (JsNum.ofZ 0))
    then JsNum.Fin (JsNum.ofZ 0) else probability in
  let probability :=
    if JsNum.dltb (JsNum.Fin (JsNum.ofZ 1)) probability
    then JsNum.Fin (JsNum.ofZ 1) else probability in
  {| o_id := str_or (po_id data) "";
     o_name := str_or (po_name data) "Unknown Outcome";
     o_description := po_description data;
     o_probability := JsNum.finite probability;
     o_volume := str_or (po_volume data) "0";
     o_liquidity := str_or (po_liquidity data) "0";
     o_lastPrice := po_lastPrice data |}.

(** *** Sample input: a partial market with no name, and the given id. *)

Definition sample_partial (id : option string) : PartialMarket := {|
  pm_id := id; pm_programId := Some "prog"; pm_address := Some "addr";
  pm_name := None; pm_description := None; pm_category := None;
  pm_status := None; pm_outcomes := None; pm_creator := None;
  pm_resolver := None; pm_resolutionSource := None; pm_createdAt := None;
  pm_expiresAt := None; pm_resolvedAt := None; pm_winningOutcome := None;
  pm_totalVolume := None; pm_totalLiquidity := None; pm_minStake := None;
  pm_maxStake := None; pm_fee := None; pm_metadata := None |}.

End MarketNormalizer.

(** ** Switchboard oracle-feed adapter (programs/switchboard/adapter.ts) *)

Module Switchboard.
Import JsNum MarketNormalizer.
Local Open Scope Qc_scope.

Record Round := mkRound {
  numSuccess : Z;             (* u32 *)
  numError : Z;               (* u32 *)
  roundOpenSlot : Z;          (* u64, stringified by the decoder *)
  roundOpenTimestamp : Z;     (* i64, stringified by the decoder *)
  result : double;            (* f64 *)
  stdDeviation : double;      (* f64 *)
  minResponse : double;       (* f64 *)
  maxResponse : double;       (* f64 *)
}.

Record SwitchboardFeedAccount := mkFeed {
  name : string;
  metadata : string;
  authority : string;
  queueAddress : string;
  oracleRequestBatchSize : Z;
  minOracleResults : Z;
  minJobResults : Z;
  minUpdateDelaySeconds : Z;
  startAfter : Z;
  varianceThreshold : double; (* f64 *)
  forceReportPeriod : Z;
  expiration : Z;             (* i64; [toString] then [parseInt] *)
  consecutiveFailureCount : Z;
  nextAllowedUpdateTime : Z;
  isLocked : bool;
  crankAddress : string;
  latestConfirmedRound : Round;
  currentRound : Round;
}.

(** [round.numSuccess + round.numError || 1] *)
Definition denominator (round : Round) : Z :=
  let total := (numSuccess round + numError round)%Z in
  if decide (total = 0%Z) then 1%Z else total.

Definition calculateConfidence (feed : SwitchboardFeedAccount) : double :=
  let round := latestConfirmedRound feed in
  let successRate := div (ofZ (numSuccess round)) (ofZ (denominator round)) in
  let stdPenalty := dmax (Fin (ofZ 0)) (dsub (Fin (ofZ 1)) (stdDeviation round)) in
  let confidence :=
    dadd (dmul (Fin successRate) (Fin (frac 6 10)))
         (dmul stdPenalty (Fin (frac 4 10))) in
  dmax (Fin (ofZ 0)) (dmin (Fin (ofZ 1)) confidence).

(** The part of [normalize] between "Determine market status" and
    "Build market"; [now] is the [Date.now()] reading, in milliseconds,
    which the test [expiration > 0 && expiration < Date.now() / 1000] takes
    only when the expiration is positive. *)
Definition determine_status (feed : SwitchboardFeedAccount) (now : Z)
  : MarketStatus :=
  let status := active in
  let status := if isLocked feed then paused else status in
  let expiration := expiration feed in
  let status :=
    if bool_decide (0 < expiration)%Z
       && ltb (ofZ expiration) (div (ofZ now) (ofZ 1000))
    then expired else status in
  status.

(** What the feed's expiry check decides, on integers: the expiration is
    set (positive, in seconds) and lies before [now] (in milliseconds). *)
Definition has_expired (feed : SwitchboardFeedAccount) (now : Z) : Prop :=
  (0 < expiration feed)%Z ∧ (expiration feed * 1000 < now)%Z.

Global Instance has_expired_dec feed now : Decision (has_expired feed now).
Proof. unfold has_expired. apply _. Defined.

(** The number of [Date.now()] readings that the expiry test takes: the
    [&&] does not evaluate its right side for a feed without expiration. *)
Definition expiry_readings (feed : SwitchboardFeedAccount) : nat :=
  if bool_decide (0 < expiration feed)%Z then 1%nat else 0%nat.

(** [normalize]; [clock i] is the [i]-th [Date.now()] reading of the call.
    The expiry test takes reading 0 when the expiration is positive and no
    reading otherwise; [createdAt] is the next reading, and [normalizeMarket]
    would take the one after it for a [createdAt] of 0.  The result of the
    latest round is a [double]: a NaN goes through the clamp and reaches
    [normalizeOutcome] as probability and as last price. *)
Definition normalize (clock : nat → Z) (feed : SwitchboardFeedAccount)
    (accountData : ProgramAccountData)
  : Result ZodError Market :=
  let probability :=
    dmax (Fin (ofZ 0)) (dmin (Fin (ofZ 1)) (result (latestConfirmedRound feed))) in
  let outcomes := [
    normalizeOutcome {|
      po_id := Some (address accountData +:+ "-yes");
      po_name := Some "Yes";
      po_description := Some "Outcome is true";
      po_probability := Some probability;
      po_volume := Some "0";
      po_liquidity := Some "0";
      po_lastPrice := Some probability |};
    normalizeOutcome {|
      po_id := Some (address accountData +:+ "-no");
      po_name := Some "No";
      po_description := Some "Outcome is false";
      po_probability := Some (dsub (Fin (ofZ 1)) probability);
      po_volume := Some "0";
      po_liquidity := Some "0";
      po_lastPrice := Some (dsub (Fin (ofZ 1)) probability) |} ] in
  let status := determine_status feed (clock 0%nat) in
  let readings := expiry_readings feed in
  let expiration := expiration feed in
  normalizeMarket (clock (S readings)) {|
    pm_id := Some (address accountData);
    pm_programId := Some (programId accountData);
    pm_address := Some (address accountData);
    pm_name := Some (str_or (Some (name feed)) "Switchboard Prediction Feed");
    pm_description :=
      Some (str_or (Some (metadata feed)) "Oracle-based prediction market");
    pm_category := Some "oracle";
    pm_status := Some status;
    pm_outcomes := Some outcomes;
    pm_creator := Some (authority feed);
    pm_resolver := Some (authority feed);
    pm_resolutionSource := Some (address accountData);
    pm_createdAt := Some (clock readings);
    pm_expiresAt :=
      if bool_decide (0 < expiration)%Z then Some (expiration * 1000)%Z
      else None;
    pm_resolvedAt := None;
    pm_winningOutcome := None;
    pm_totalVolume := Some "0";
    pm_totalLiquidity := Some "0";
    pm_minStake := None;
    pm_maxStake := None;
    pm_fee := None;
    pm_metadata := Some [
      ("oracleType", JStr "switchboard");
      ("queueAddress", JStr (queueAddress feed));
      ("minOracleResults", JInt (minOracleResults feed));
      ("varianceThreshold", JDouble (varianceThreshold feed));
      ("latestResult", JDouble (result (latestConfirmedRound feed)));
      ("stdDeviation", JDouble (stdDeviation (latestConfirmedRound feed)));
      ("confidence", JDouble (calculateConfidence feed));
      ("lastUpdate",
         JInt (roundOpenTimestamp (latestConfirmedRound feed) * 1000)%Z);
      ("consecutiveFailures", JStr (pretty (consecutiveFailureCount feed)))
    ] |}.

(** *** The specification's formula for the confidence score *)

Definition clamp01 (x : Qc) : Qc :=
  if decide (x < 0) then 0 else if decide (1 < x) then 1 else x.

Definition confidence_spec (successes errors : Z) (sigma : Qc) : Qc :=
  let total := (successes + errors)%Z in
  let r := Qc_of_Z successes / Qc_of_Z (if decide (total = 0%Z) then 1 else total) in
  let penalty := if decide (0 ≤ 1 - sigma) then 1 - sigma else 0 in
  clamp01 (Q2Qc (6 # 10) * r + Q2Qc (4 # 10) * penalty).

(** The probability that [Math.max(0, Math.min(1, result))] and the
    clamps of [normalizeOutcome] leave for a result that is a number: the
    number clamped to [0,1], an infinity counting as beyond the bound on
    its side. *)
Definition clamp_reading (r : double) : Qc :=
  match r with
  | Fin q => clamp01 q
  | Infinity => 1
  | _ => 0
  end.

(** *** The status rule in the specification's words: the lock flag
    first, then the expiry. *)

Definition status_lock_first (feed : SwitchboardFeedAccount) (now : Z)
  : MarketStatus :=
  if isLocked feed then paused
  else if decide (has_expired feed now) then expired
  else active.

(** *** Sample inputs *)

Definition sample_round : Round := {|
  numSuccess := 3; numError := 1;
  roundOpenSlot := 250000000; roundOpenTimestamp := 1700000000;
  result := Fin (frac 7 10); stdDeviation := Fin (frac 1 4);
  minResponse := Fin (frac 6 10); maxResponse := Fin (frac 8 10) |}.

Definition sample_feed (locked : bool) (expires : Z) : SwitchboardFeedAccount := {|
  name := "RAIN-NYC"; metadata := ""; authority := "aa"; queueAddress := "bb";
  oracleRequestBatchSize := 4; minOracleResults := 3; minJobResults := 1;
  minUpdateDelaySeconds := 30; startAfter := 0;
  varianceThreshold := Fin (ofZ 0);
  forceReportPeriod := 0; expiration := expires;
  consecutiveFailureCount := 0; nextAllowedUpdateTime := 0;
  isLocked := locked; crankAddress := "cc";
  latestConfirmedRound := sample_round; currentRound := sample_round |}.

(** The same feed with the given result and standard deviation in its
    latest confirmed round, as [readDoubleLE] may have read them. *)
Definition sample_feed_reading (r sigma : double) : SwitchboardFeedAccount := {|
  name := "RAIN-NYC"; metadata := ""; authority := "aa"; queueAddress := "bb";
  oracleRequestBatchSize := 4; minOracleResults := 3; minJobResults := 1;
  minUpdateDelaySeconds := 30; startAfter := 0;
  varianceThreshold := Fin (ofZ 0);
  forceReportPeriod := 0; expiration := 0;
  consecutiveFailureCount := 0; nextAllowedUpdateTime := 0;
  isLocked := false; crankAddress := "cc";
  latestConfirmedRound := {|
    numSuccess := 3; numError := 1;
    roundOpenSlot := 250000000; roundOpenTimestamp := 1700000000;
    result := r; stdDeviation := sigma;
    minResponse := Fin (frac 6 10); maxResponse := Fin (frac 8 10) |};
  currentRound := sample_round |}.

(** A clock that advances by one millisecond at every reading. *)
Definition ticking_clock : nat → Z := λ n, (1700000500000 + Z.of_nat n)%Z.

Definition sample_account : ProgramAccountData := {|
  programId := "SW1TCHw1TCH7qNvdvZzTA1jjCbqRX7w9QHfxhWUq6xfU";
  address := "feed1"; slot := 0 |}.

(** [Date.now()] stays at 1,700,000,500,000 ms during the call. *)
Definition sample_clock : nat → Z := λ _, 1700000500000%Z.

End Switchboard.

(** Property of an object literal: the value of the first field named [k]. *)
Fixpoint get_field (k : string) (fields : list (string * JsValue))
  : option JsValue :=
  match fields with
  | [] => None
  | (k', v) :: rest => if decide (k' = k) then Some v else get_field k rest
  end.

(** ** Hxro parimutuel adapter (programs/hxro/adapter.ts) *)

Module Hxro.
Import JsNum MarketNormalizer.
Local Open Scope Qc_scope.

Record HxroOutcome := mkHxroOutcome {
  id : Z;
  name : string;
  pool : Z;                   (* u64, stringified by the decoder *)
  bettors : Z;                (* u32 *)
  odds : number;
}.

Record HxroMarketAccount := mkHxroMarket {
  marketAddress : string;
  marketName : string;
  marketDescription : string;
  marketAuthority : string;
  oracleAddress : string;
  marketStatus : Z;           (* u8 *)
  outcomes : list HxroOutcome;
  totalPool : Z;              (* u64, stringified by the decoder *)
  settlementTime : Z;
  createdAt : Z;
  settledAt : Z;
  winningOutcome : Z;         (* u8, 255 = not settled *)
  feePercent : Z;             (* u16, basis points *)
  minStake : Z;
  maxStake : Z;
}.

(** [statusMap[market.marketStatus] || 'active'] *)
Definition statusMap (code : Z) : option MarketStatus :=
  if decide (code = 0)%Z then Some active
  else if decide (code = 1)%Z then Some paused
  else if decide (code = 2)%Z then Some settled
  else if decide (code = 3)%Z then Some cancelled
  else None.

(** The callback of [market.outcomes.map] in [normalize]. *)
Definition normalize_outcome (market : HxroMarketAccount)
    (accountData : ProgramAccountData) (outcome : HxroOutcome) : Outcome :=
  let totalPool := totalPool market in
  let outcomePool := pool outcome in
  let probability :=
    if bool_decide (0 < totalPool)%Z
    then div (ofZ outcomePool) (ofZ totalPool)
    else div (ofZ 1) (ofZ (Z.of_nat (length (outcomes market)))) in
  let feeMultiplier := ofZ 1 - div (ofZ (feePercent market)) (ofZ 10000) in
  let impliedOdds := odds outcome * feeMultiplier in
  let price :=
    if ltb (ofZ 0) impliedOdds then div (ofZ 1) impliedOdds else ofZ 0 in
  normalizeOutcome {|
    po_id := Some (address accountData +:+ "-" +:+ pretty (id outcome));
    po_name := Some (name outcome);
    po_description := None;
    po_probability :=
      Some (Fin (Math_max (ofZ 0) (Math_min (ofZ 1) probability)));
    po_volume := Some (pretty (pool outcome));
    po_liquidity := Some (pretty (pool outcome));
    po_lastPrice := Some (Fin price) |}.

Definition normalize (clock : nat → Z) (market : HxroMarketAccount)
    (accountData : ProgramAccountData)
  : Result ZodError Market :=
  let status := default active (statusMap (marketStatus market)) in
  let outcomes' := map (normalize_outcome market accountData) (outcomes market) in
  normalizeMarket (clock 1%nat) {|
    pm_id := Some (address accountData);
    pm_programId := Some (programId accountData);
    pm_address := Some (address accountData);
    pm_name := Some (str_or (Some (marketName market)) "Hxro Parimutuel Market");
    pm_description := Some (str_or (Some (marketDescription market)) "");
    pm_category := Some "parimutuel";
    pm_status := Some status;
    pm_outcomes := Some outcomes';
    pm_creator := Some (marketAuthority market);
    pm_resolver := Some (marketAuthority market);
    pm_resolutionSource := Some (oracleAddress market);
    pm_createdAt :=
      Some (int_or (Some (createdAt market * 1000)%Z) (clock 0%nat));
    pm_expiresAt :=
      if decide (settlementTime market * 1000 = 0)%Z then None
      else Some (settlementTime market * 1000)%Z;
    pm_resolvedAt :=
      if bool_decide (0 < settledAt market)%Z
      then Some (settledAt market * 1000)%Z else None;
    pm_winningOutcome :=
      if decide (winningOutcome market = 255)%Z then None
      else Some (address accountData +:+ "-" +:+ pretty (winningOutcome market));
    pm_totalVolume := Some (pretty (totalPool market));
    pm_totalLiquidity := Some (pretty (totalPool market));
    pm_minStake := Some (pretty (minStake market));
    pm_maxStake := Some (pretty (maxStake market));
    pm_fee := Some (div (ofZ (feePercent market)) (ofZ 100));
    pm_metadata := Some [
      ("marketType", JStr "parimutuel");
      ("protocol", JStr "hxro");
      ("outcomeCount", JInt (Z.of_nat (length (outcomes market))));
      ("totalBettors",
         JInt (foldl (λ sum o, sum + bettors o)%Z 0%Z (outcomes market)));
      ("odds",
         JArr (map (λ o, JObj [("outcome", JStr (name o)); ("odds", JNum (odds o))])
                   (outcomes market)))
    ] |}.

(** *** The specification's rule: pool share, or an equal share when the
    total pool is zero. *)

Definition share_spec (market : HxroMarketAccount) (p : Z) : Qc :=
  if decide (0 < totalPool market)%Z
  then Qc_of_Z p / Qc_of_Z (totalPool market)
  else 1 / Qc_of_Z (Z.of_nat (length (outcomes market))).

(** The same rule with the share capped at 1, as [Math.min(1, _)] does. *)
Definition capped_share (market : HxroMarketAccount) (p : Z) : Qc :=
  if decide (0 < totalPool market)%Z
  then (if decide (p ≤ totalPool market)%Z
        then Qc_of_Z p / Qc_of_Z (totalPool market) else 1)
  else 1 / Qc_of_Z (Z.of_nat (length (outcomes market))).

(** *** Sample inputs *)

Definition sample_outcome (i p : Z) (total : Z) : HxroOutcome := {|
  id := i; name := "Outcome " +:+ pretty i; pool := p; bettors := 2;
  odds := if bool_decide (0 < p)%Z then div (ofZ total) (ofZ p) else ofZ 0 |}.

Definition sample_market (pools : list Z) (total : Z) : HxroMarketAccount := {|
  marketAddress := "aa"; marketName := "Over/Under"; marketDescription := "";
  marketAuthority := "bb"; oracleAddress := "cc"; marketStatus := 0;
  outcomes := imap (λ i p, sample_outcome (Z.of_nat i) p total) pools;
  totalPool := total;
  settlementTime := 1700003600; createdAt := 1700000000; settledAt := 0;
  winningOutcome := 255; feePercent := 0; minStake := 1; maxStake := 1000 |}.

Definition sample_account : ProgramAccountData := {|
  programId := "HXroKJzRNV3GJxaNS5rCZRUUYFAqqCjYnA9NKCkQ8gJ8";
  address := "market1"; slot := 0 |}.

Definition sample_clock : nat → Z := λ _, 1700000500000%Z.

End Hxro.

(** ** Binary decoder framework (programs/shared/accountDecoder.ts) *)

Module Decoder.

Definition Buffer := list byte.

(** The fields of a decoded account, [Record<string, any>]. *)
Definition Data := list (string * JsValue).

Record DecodedAccount := mkDecoded { type : string; data : Data }.

(** *** DecoderUtils: fixed-width little-endian readers.  Node's
    [Buffer.readUIntNLE(offset)] throws a RangeError unless the [N] bytes
    at [offset] lie inside the buffer. *)

Definition out_of_range : JsError :=
  mkError "RangeError" "The value of offset is out of range".

Fixpoint le_value (bytes : list byte) : Z :=
  match bytes with
  | [] => 0
  | b :: rest => Z.of_N (Byte.to_N b) + 256 * le_value rest
  end.

Definition read_le (width : nat) (buffer : Buffer) (offset : nat)
  : Result JsError Z :=
  let bytes := take width (drop offset buffer) in
  if decide (length bytes = width) then Ok (le_value bytes)
  else Throw out_of_range.

Definition readU8 := read_le 1.
Definition readU16 := read_le 2.
Definition readU32 := read_le 4.
Definition readU64 := read_le 8.

Definition readI64 (buffer : Buffer) (offset : nat) : Result JsError Z :=
  v ← read_le 8 buffer offset;
  Ok (if decide (v < 2 ^ 63) then v else v - 2 ^ 64).

Definition readBool (buffer : Buffer) (offset : nat) : Result JsError bool :=
  v ← readU8 buffer offset;
  Ok (bool_decide (v ≠ 0)).

Section WithCoder.
(** What Anchor's [BorshCoder.accounts.decode] produces, and the
    adapter's [serializeData], which turns it into JSON-safe fields
    and does not throw. *)
Context {Raw : Type} (serializeData : Raw → Data).

(** The three classes that implement the [AccountDecoder] interface. *)
Inductive AccountDecoder :=
| BorshAccountDecoder
    (coder : string → Buffer → Result JsError Raw) (accountName : string)
| ManualAccountDecoder
    (accountType : string) (decoderFn : Buffer → Result JsError Data)
| MultiAccountDecoder (decoders : list AccountDecoder).

(** [BorshAccountDecoder.decode]: the [catch] logs and rethrows. *)
Definition borsh_decode (coder : string → Buffer → Result JsError Raw)
    (accountName : string) (data : Buffer)
  : Result JsError DecodedAccount :=
  match coder accountName data with
  | Ok decoded =>
      Ok {| type := accountName; data := serializeData decoded |}
  | Throw error => Throw error
  end.

(** [ManualAccountDecoder.decode]: the [catch] logs and rethrows. *)
Definition manual_decode (accountType : string)
    (decoderFn : Buffer → Result JsError Data) (data : Buffer)
  : Result JsError DecodedAccount :=
  match decoderFn data with
  | Ok decoded => Ok {| type := accountType; data := decoded |}
  | Throw error => Throw error
  end.

(** [try { this.decode(data); return true } catch { return false }] *)
Definition decodes {A} (r : Result JsError A) : Result JsError bool :=
  match r with
  | Ok _ => Ok true
  | Throw _ => Ok false
  end.

(** [validate]; for the composite it is [Array.prototype.some], which
    stops at the first [true] and lets an exception of the callback
    through. *)
Fixpoint validate (d : AccountDecoder) (data : Buffer)
  : Result JsError bool :=
  match d with
  | BorshAccountDecoder coder accountName =>
      if decide (length data < 8)%nat then Ok false
      else decodes (borsh_decode coder accountName data)
  | ManualAccountDecoder accountType decoderFn =>
      decodes (manual_decode accountType decoderFn data)
  | MultiAccountDecoder decoders =>
      (fix some (l : list AccountDecoder) : Result JsError bool :=
         match l with
         | [] => Ok false
         | decoder :: rest =>
             match validate decoder data with
             | Ok true => Ok true
             | Ok false => some rest
             | Throw error => Throw error
             end
         end) decoders
  end.

Definition no_decoder : JsError :=
  mkError "Error" "No decoder could successfully decode the account data".

(** [decode]; for the composite, the loop
    [try { if (decoder.validate(data)) return decoder.decode(data) }
     catch { continue }] followed by the final [throw]. *)
Fixpoint decode (d : AccountDecoder) (data : Buffer)
  : Result JsError DecodedAccount :=
  match d with
  | BorshAccountDecoder coder accountName =>
      borsh_decode coder accountName data
  | ManualAccountDecoder accountType decoderFn =>
      manual_decode accountType decoderFn data
  | MultiAccountDecoder decoders =>
      (fix loop (l : list AccountDecoder) : Result JsError DecodedAccount :=
         match l with
         | [] => Throw no_decoder
         | decoder :: rest =>
             match validate decoder data with
             | Ok true =>
                 match decode decoder data with
                 | Ok decoded => Ok decoded
                 | Throw _ => loop rest
                 end
             | Ok false => loop rest
             | Throw _ => loop rest
             end
         end) decoders
  end.

(** [decoder.validate(data)] returned [true]. *)
Definition validates (data : Buffer) (d : AccountDecoder) : bool :=
  match validate d data with
  | Ok true => true
  | _ => false
  end.

End WithCoder.

Arguments AccountDecoder Raw : clear implicits.

(** *** Sample decoders *)

(** A manual layout: 8 bytes of discriminator, a status byte and a u32
    counter; 13 bytes in all. *)
Definition sample_layout (tag : string) (data : Buffer)
  : Result JsError Data :=
  status ← readU8 data 8;
  count ← readU32 data 9;
  Ok [("tag", JStr tag); ("status", JInt status); ("count", JInt count)].

(** A layout that also insists on a first byte. *)
Definition tagged_layout (first : byte) (tag : string) (data : Buffer)
  : Result JsError Data :=
  b ← readU8 data 0;
  if decide (b = Z.of_N (Byte.to_N first)) then sample_layout tag data
  else Throw (mkError "Error" "bad tag").

Definition decoder_A : AccountDecoder Data :=
  ManualAccountDecoder "A" (tagged_layout x01 "A").
Definition decoder_B : AccountDecoder Data :=
  ManualAccountDecoder "B" (tagged_layout x02 "B").

(** An Anchor-style coder: the discriminator is the byte 7 repeated. *)
Definition sample_coder (accountName : string) (data : Buffer)
  : Result JsError Data :=
  match readU64 data 0 with
  | Ok tag =>
      if decide (tag = le_value (replicate 8 x07))
      then sample_layout accountName data
      else Throw (mkError "Error" "Invalid account discriminator")
  | Throw _ => Throw (mkError "Error" "Invalid account discriminator")
  end.

Definition decoder_C : AccountDecoder Data :=
  BorshAccountDecoder sample_coder "C".

(** A coder for an account type whose discriminator is a single byte, 7,
    followed by one byte of data: it accepts buffers of two bytes. *)
Definition short_tag_coder (accountName : string) (data : Buffer)
  : Result JsError Data :=
  match readU8 data 0 with
  | Ok tag =>
      if decide (tag = 7)
      then value ← readU8 data 1; Ok [("value", JInt value)]
      else Throw (mkError "Error" "Invalid account discriminator")
  | Throw _ => Throw (mkError "Error" "Invalid account discriminator")
  end.

Definition decoder_D : AccountDecoder Data :=
  BorshAccountDecoder short_tag_coder "D".

Definition buffer_B : Buffer :=
  [x02; x00; x00; x00; x00; x00; x00; x00; x01; x2a; x00; x00; x00].

End Decoder.

(** ** Event dispatcher (indexer/eventDispatcher.ts) *)

Module Dispatcher.

Inductive MarketEventType :=
| market_created | market_updated | market_resolved | trade_executed
| order_placed | order_cancelled | orderbook_updated | oracle_updated.

Global Instance MarketEventType_eq_dec : EqDecision MarketEventType.
Proof. solve_decision. Defined.

Record MarketEvent := mkEvent {
  type : MarketEventType;
  timestamp : Z;
  slot : Z;
  signature : option string;
  data : JsValue;
}.

Record ReplayBufferOptions := mkOptions {
  enabled : bool;
  maxSize : Z;
  ttlMs : option Z;
}.

Record BufferedEvent := mkBuffered {
  event : MarketEvent;
  received : Z;               (* the [timestamp] field: [Date.now()] *)
}.

(** A handler is known by its identity; a JavaScript [Set] of handlers is
    the list of its members in insertion order. *)
Definition HandlerId := nat.

Definition set_add (h : HandlerId) (s : list HandlerId) : list HandlerId :=
  if decide (h ∈ s) then s else s ++ [h].

Definition set_delete (h : HandlerId) (s : list HandlerId) : list HandlerId :=
  filter (λ h', h' ≠ h) s.

(** An event in the processing queue, with the ordinal of the [dispatch]
    call that pushed it.  The ordinal is bookkeeping of the model: no
    operation of the dispatcher reads it. *)
Record Queued := mkQueued { ordinal : nat; queued : MarketEvent }.

(** One call of a handler: which handler, on which queued event. *)
Record Observation := mkObservation { by_handler : HandlerId; saw : Queued }.

Record EventDispatcher := mkDispatcher {
  replayBuffer : list BufferedEvent;
  replayBufferConfig : ReplayBufferOptions;
  handlers : MarketEventType → list HandlerId;
  globalHandlers : list HandlerId;
  processingQueue : list Queued;
  isProcessing : bool;
  (** Bookkeeping of the model. [draining]: the calls of [processQueue]
      that are inside the [while] loop, suspended at
      [await this.processEvent(event)], each with its event. *)
  draining : list Queued;
  dispatched : nat;           (* number of [dispatch] calls so far *)
  delivered : list Queued;    (* events shifted off the queue, in order *)
  observed : list Observation; (* handler calls, in order *)
}.

(** [new EventDispatcher(config)] *)
Definition create (config : ReplayBufferOptions) : EventDispatcher := {|
  replayBuffer := [];
  replayBufferConfig := config;
  handlers := λ _, [];
  globalHandlers := [];
  processingQueue := [];
  isProcessing := false;
  draining := [];
  dispatched := 0;
  delivered := [];
  observed := [] |}.

(** [Array.prototype.splice(0, excess)] on the buffer: what is left. *)
Definition splice0 {A} (excess : Z) (l : list A) : list A :=
  drop (Z.to_nat excess) l.

Definition addToReplayBuffer (now : Z) (e : MarketEvent)
    (buffer : list BufferedEvent) (config : ReplayBufferOptions)
  : list BufferedEvent :=
  let buffer := buffer ++ [ {| event := e; received := now |} ] in
  if decide (maxSize config < Z.of_nat (length buffer))
  then
    let excess := Z.of_nat (length buffer) - maxSize config in
    splice0 excess buffer
  else buffer.

(** [processEvent] up to its [await Promise.allSettled]: every handler of
    the event's type, then every global handler, is called with the event. *)
Definition processEvent (q : Queued) (d : EventDispatcher) : EventDispatcher :=
  let eventHandlers := handlers d (type (queued q)) in
  let allHandlers := eventHandlers ++ globalHandlers d in
  {| replayBuffer := replayBuffer d;
     replayBufferConfig := replayBufferConfig d;
     handlers := handlers d;
     globalHandlers := globalHandlers d;
     processingQueue := processingQueue d;
     isProcessing := isProcessing d;
     draining := draining d;
     dispatched := dispatched d;
     delivered := delivered d;
     observed := observed d ++ map (λ h, mkObservation h q) allHandlers |}.

Definition set_isProcessing (b : bool) (d : EventDispatcher) : EventDispatcher :=
  {| replayBuffer := replayBuffer d;
     replayBufferConfig := replayBufferConfig d;
     handlers := handlers d;
     globalHandlers := globalHandlers d;
     processingQueue := processingQueue d;
     isProcessing := b;
     draining := draining d;
     dispatched := dispatched d;
     delivered := delivered d;
     observed := observed d |}.

(** The head of the [while] loop of [processQueue], run by a call that is
    inside the [try]: with an event in the queue it shifts it, starts
    [processEvent] and suspends at the [await]; with an empty queue it
    leaves the loop and the [finally] clears the flag. *)
Definition loop_head (d : EventDispatcher) : EventDispatcher :=
  match processingQueue d with
  | [] => set_isProcessing false d
  | q :: rest =>
      processEvent q
        {| replayBuffer := replayBuffer d;
           replayBufferConfig := replayBufferConfig d;
           handlers := handlers d;
           globalHandlers := globalHandlers d;
           processingQueue := rest;
           isProcessing := isProcessing d;
           draining := draining d ++ [q];
           dispatched := dispatched d;
           delivered := delivered d ++ [q];
           observed := observed d |}
  end.

(** [processQueue] up to its first suspension. *)
Definition processQueue (d : EventDispatcher) : EventDispatcher :=
  if isProcessing d then d
  else loop_head (set_isProcessing true d).

(** [dispatch(event)] up to its first suspension; [now] is the reading of
    [Date.now()] in [addToReplayBuffer]. *)
Definition dispatch (now : Z) (e : MarketEvent) (d : EventDispatcher)
  : EventDispatcher :=
  let buffer :=
    if enabled (replayBufferConfig d)
    then addToReplayBuffer now e (replayBuffer d) (replayBufferConfig d)
    else replayBuffer d in
  processQueue
    {| replayBuffer := buffer;
       replayBufferConfig := replayBufferConfig d;
       handlers := handlers d;
       globalHandlers := globalHandlers d;
       processingQueue := processingQueue d ++ [mkQueued (dispatched d) e];
       isProcessing := isProcessing d;
       draining := draining d;
       dispatched := S (dispatched d);
       delivered := delivered d;
       observed := observed d |}.

(** The suspended call number [i] of [processQueue] leaves its [await]. *)
Definition leave_await (i : nat) (d : EventDispatcher) : EventDispatcher :=
  {| replayBuffer := replayBuffer d;
     replayBufferConfig := replayBufferConfig d;
     handlers := handlers d;
     globalHandlers := globalHandlers d;
     processingQueue := processingQueue d;
     isProcessing := isProcessing d;
     draining := delete i (draining d);
     dispatched := dispatched d;
     delivered := delivered d;
     observed := observed d |}.

Definition with_handlers (hs : MarketEventType → list HandlerId)
    (gs : list HandlerId) (d : EventDispatcher) : EventDispatcher :=
  {| replayBuffer := replayBuffer d;
     replayBufferConfig := replayBufferConfig d;
     handlers := hs;
     globalHandlers := gs;
     processingQueue := processingQueue d;
     isProcessing := isProcessing d;
     draining := draining d;
     dispatched := dispatched d;
     delivered := delivered d;
     observed := observed d |}.

(** What can happen to a dispatcher between two suspensions of the
    single-threaded event loop. *)
Inductive Action :=
| Dispatch (now : Z) (e : MarketEvent)   (* a producer calls [dispatch] *)
| Settled (i : nat)    (* [processEvent] of suspended call [i] resolved *)
| Rejected (i : nat)   (* ... or rejected: [emit] threw *)
| On (t : MarketEventType) (h : HandlerId)
| OnAll (h : HandlerId)
| Off (t : MarketEventType) (h : HandlerId)
| OffAll (h : HandlerId).

Definition exec (d : EventDispatcher) (a : Action) : EventDispatcher :=
  match a with
  | Dispatch now e => dispatch now e d
  | Settled i =>
      if decide (i < length (draining d))%nat
      then loop_head (leave_await i d) else d
  | Rejected i =>
      if decide (i < length (draining d))%nat
      then set_isProcessing false (leave_await i d) else d
  | On t h =>
      with_handlers
        (λ t', if decide (t' = t) then set_add h (handlers d t) else handlers d t')
        (globalHandlers d) d
  | OnAll h => with_handlers (handlers d) (set_add h (globalHandlers d)) d
  | Off t h =>
      with_handlers
        (λ t', if decide (t' = t) then set_delete h (handlers d t) else handlers d t')
        (globalHandlers d) d
  | OffAll h => with_handlers (handlers d) (set_delete h (globalHandlers d)) d
  end.

(** A run of the dispatcher: the actions in the order in which the event
    loop takes them. *)
Definition run (d : EventDispatcher) (trace : list Action) : EventDispatcher :=
  foldl exec d trace.

(** The replay-buffer entries that the [dispatch] calls of a trace insert. *)
Definition inserted (trace : list Action) : list BufferedEvent :=
  omap (λ a, match a with
             | Dispatch now e => Some {| event := e; received := now |}
             | _ => None
             end) trace.

(** The last [n] elements of a list. *)
Definition last_n {A} (n : nat) (l : list A) : list A :=
  drop (length l - n) l.

(** The events that the [dispatch] calls of a trace enqueue, in call
    order. *)
Definition enqueued (trace : list Action) : list MarketEvent :=
  omap (λ a, match a with Dispatch _ e => Some e | _ => None end) trace.

(** Handler calls happen in the order of the ordinals of their events. *)
Definition in_enqueue_order (obs : list Observation) : Prop :=
  ∀ i j o1 o2, (i ≤ j)%nat → obs !! i = Some o1 → obs !! j = Some o2 →
               (ordinal (saw o1) ≤ ordinal (saw o2))%nat.

(** What every run preserves. *)
Record invariant (trace : list Action) (d : EventDispatcher) : Prop := {
  inv_single :
    if isProcessing d then ∃ q, draining d = [q] else draining d = [];
  inv_count : dispatched d = length (enqueued trace);
  inv_fifo : delivered d ++ processingQueue d = imap mkQueued (enqueued trace);
  inv_seen :
    Forall (λ o, ordinal (saw o) < length (delivered d))%nat (observed d);
  inv_order : in_enqueue_order (observed d);
}.

(** *** Sample inputs *)

Definition sample_event (n : Z) : MarketEvent := {|
  type := market_updated; timestamp := 1700000000000 + n; slot := n;
  signature := None; data := JInt n |}.

Definition sample_options (n : Z) : ReplayBufferOptions :=
  {| enabled := true; maxSize := n; ttlMs := None |}.

End Dispatcher.

(** ** Retry helper (utils/retry.ts) and RPC client (rpc/connection.ts) *)

Module Rpc.

(** *** Strings: [toLowerCase] on ASCII letters and [includes]. *)

Definition lower (c : ascii) : ascii :=
  let n := nat_of_ascii c in
  if bool_decide (65 ≤ n ≤ 90)%nat then ascii_of_nat (n + 32) else c.

Fixpoint toLowerCase (s : string) : string :=
  match s with
  | EmptyString => EmptyString
  | String c rest => String (lower c) (toLowerCase rest)
  end.

Fixpoint includes (s needle : string) : bool :=
  String.prefix needle s ||
  match s with
  | EmptyString => false
  | String _ rest => includes rest needle
  end.

(** *** The world an RPC call runs in.  A network request is answered by
    an oracle from the number of the request and the endpoint it goes to;
    the log records what the client did, in order. *)

Inductive Effect :=
| Called (endpoint : string)    (* [operation(this.connection)] *)
| Probed (endpoint : string)    (* [this.connection.getSlot()] in failover *)
| Slept (ms : Z).               (* [sleep(delay)] in withRetry *)

Global Instance Effect_eq_dec : EqDecision Effect.
Proof. solve_decision. Defined.

Record SolanaRpcClient := mkClient {
  endpoints : list string;
  currentEndpointIndex : nat;
  connection : string;        (* the endpoint of [this.connection] *)
  failoverInProgress : bool;
}.

Record World := mkWorld {
  client : SolanaRpcClient;
  requests : nat;             (* network requests made so far *)
  log : list Effect;
}.

(** [new SolanaRpcClient({httpEndpoint, fallbackEndpoints})] *)
Definition create (httpEndpoint : string) (fallbackEndpoints : list string)
  : SolanaRpcClient :=
  {| endpoints := httpEndpoint :: fallbackEndpoints;
     currentEndpointIndex := 0;
     connection := httpEndpoint;
     failoverInProgress := false |}.

(** [getCurrentEndpoint()]; [None] is [undefined]. *)
Definition getCurrentEndpoint (c : SolanaRpcClient) : option string :=
  endpoints c !! currentEndpointIndex c.

Definition shouldFailover (error : JsError) : bool :=
  let errorMessage := toLowerCase (err_message error) in
  includes errorMessage "timeout" ||
  includes errorMessage "network" ||
  includes errorMessage "econnrefused" ||
  includes errorMessage "429" ||
  includes errorMessage "503" ||
  includes errorMessage "504".

Record RetryOptions := mkRetryOptions {
  maxAttempts : nat;
  initialDelayMs : Z;
  maxDelayMs : Z;
  backoffMultiplier : Z;
}.

Definition DEFAULT_OPTIONS : RetryOptions :=
  {| maxAttempts := 5; initialDelayMs := 1000; maxDelayMs := 30000;
     backoffMultiplier := 2 |}.

(** [throw lastError!] with [lastError] never assigned. *)
Definition undefined_error : JsError := mkError "undefined" "".

Definition sleep (ms : Z) (w : World) : World :=
  {| client := client w; requests := requests w; log := log w ++ [Slept ms] |}.

Section WithOperation.
Context {T : Type}.

(** The network: the answer to request number [n] sent to an endpoint,
    for the operation and for the [getSlot] probe. *)
Variable operation : nat → string → Result JsError T.
Variable getSlot : nat → string → Result JsError Z.

(** The [for] loop of [withRetry], with [remaining] iterations to go:
    [attempt === opts.maxAttempts] is [remaining = 1]. *)
Fixpoint retry_loop (fn : World → Result JsError T * World)
    (opts : RetryOptions) (remaining : nat) (delay : Z) (w : World)
  : Result JsError T * World :=
  match remaining with
  | O => (Throw undefined_error, w)
  | S remaining' =>
      match fn w with
      | (Ok v, w') => (Ok v, w')
      | (Throw lastError, w') =>
          if decide (remaining' = 0)%nat then (Throw lastError, w')
          else
            retry_loop fn opts remaining'
              (Z.min (delay * backoffMultiplier opts) (maxDelayMs opts))
              (sleep delay w')
      end
  end.

Definition withRetry (fn : World → Result JsError T * World)
    (opts : RetryOptions) (w : World) : Result JsError T * World :=
  retry_loop fn opts (maxAttempts opts) (initialDelayMs opts) w.

(** [await operation(this.connection)] *)
Definition call (w : World) : Result JsError T * World :=
  (operation (requests w) (connection (client w)),
   {| client := client w; requests := S (requests w);
      log := log w ++ [Called (connection (client w))] |}).

Definition set_failoverInProgress (b : bool) (w : World) : World :=
  {| client :=
       {| endpoints := endpoints (client w);
          currentEndpointIndex := currentEndpointIndex (client w);
          connection := connection (client w);
          failoverInProgress := b |};
     requests := requests w; log := log w |}.

(** [failover()] *)
Definition failover (w : World) : Result JsError () * World :=
  if failoverInProgress (client w) then (Ok (), w)
  else if decide (length (endpoints (client w)) ≤ 1)%nat then (Ok (), w)
  else
    let w := set_failoverInProgress true w in
    (* try *)
    let c := client w in
    let index :=
      ((currentEndpointIndex c + 1) `mod` length (endpoints c))%nat in
    let newEndpoint := default "" (endpoints c !! index) in
    let probe := getSlot (requests w) newEndpoint in
    let w :=
      {| client :=
           {| endpoints := endpoints c; currentEndpointIndex := index;
              connection := newEndpoint;
              failoverInProgress := failoverInProgress c |};
         requests := S (requests w);
         log := log w ++ [Probed newEndpoint] |} in
    match probe with
    | Ok _ => (Ok (), set_failoverInProgress false w)          (* finally *)
    | Throw error => (Throw error, set_failoverInProgress false w)
    end.

(** The function that [executeWithRetry] hands to [withRetry]. *)
Definition attempt (w : World) : Result JsError T * World :=
  match call w with
  | (Ok v, w) => (Ok v, w)
  | (Throw error, w) =>
      if shouldFailover error then
        match failover w with
        | (Ok _, w) => call w
        | (Throw error', w) => (Throw error', w)
        end
      else (Throw error, w)
  end.

(** The options that [executeWithRetry] passes. *)
Definition executeWithRetry_options : RetryOptions :=
  {| maxAttempts := 3; initialDelayMs := 1000; maxDelayMs := 10000;
     backoffMultiplier := 2 |}.

Definition executeWithRetry (w : World) : Result JsError T * World :=
  withRetry attempt executeWithRetry_options w.

End WithOperation.

(** The world after one call of the operation and nothing else. *)
Definition after_call (w : World) : World :=
  {| client := client w; requests := S (requests w);
     log := log w ++ [Called (connection (client w))] |}.

(** The specification's reading of "propagated immediately": the failed
    call is all that happened. *)
Definition propagated_immediately (w w' : World) : Prop :=
  w' = after_call w.

(** The client after moving from endpoint [currentEndpointIndex] to the
    next one, wrapping around. *)
Definition advanced (c : SolanaRpcClient) : SolanaRpcClient :=
  let index := ((currentEndpointIndex c + 1) `mod` length (endpoints c))%nat in
  {| endpoints := endpoints c; currentEndpointIndex := index;
     connection := default "" (endpoints c !! index);
     failoverInProgress := false |}.

(** *** Sample inputs *)

Definition sample_world : World :=
  {| client := create "https://primary" ["https://backup"];
     requests := 0; log := [] |}.

(** A request the server rejects as malformed, on every endpoint. *)
Definition malformed : JsError :=
  mkError "Error" "Invalid params: malformed request".
Definition always_malformed : nat → string → Result JsError Z :=
  λ _ _, Throw malformed.

(** The primary endpoint times out; the backup answers. *)
Definition primary_down : nat → string → Result JsError Z :=
  λ n endpoint,
    if decide (endpoint = "https://primary")
    then Throw (mkError "Error" "Request Timeout after 30s")
    else Ok 42.

Definition healthy_probe : nat → string → Result JsError Z :=
  λ n _, Ok (Z.of_nat n).

End Rpc.

(** ** More of the retry helper and of the RPC client *)

Module RpcMore.
Import Rpc.

(** The value of [delay] in [withRetry] after [k] failed attempts that were
    followed by a sleep: it starts at [initialDelayMs] and each sleep is
    followed by [delay = Math.min(delay * backoffMultiplier, maxDelayMs)]. *)
Fixpoint delay_after (opts : RetryOptions) (k : nat) : Z :=
  match k with
  | O => initialDelayMs opts
  | S k' => Z.min (delay_after opts k' * backoffMultiplier opts) (maxDelayMs opts)
  end.

(** The options as the loop sees them after one failed attempt and its
    sleep: the delay has been multiplied and capped. *)
Definition restart (opts : RetryOptions) : RetryOptions :=
  {| maxAttempts := maxAttempts opts;
     initialDelayMs :=
       Z.min (initialDelayMs opts * backoffMultiplier opts) (maxDelayMs opts);
     maxDelayMs := maxDelayMs opts;
     backoffMultiplier := backoffMultiplier opts |}.

(** What a log says: the sleeps, in order. *)
Definition slept (l : list Effect) : list Z :=
  omap (λ x, match x with Slept ms => Some ms | _ => None end) l.

(** The endpoints the operation was sent to, and the endpoints probed. *)
Definition called (l : list Effect) : list string :=
  omap (λ x, match x with Called endpoint => Some endpoint | _ => None end) l.

Definition probed (l : list Effect) : list string :=
  omap (λ x, match x with Probed endpoint => Some endpoint | _ => None end) l.

(** The client names the endpoint it is connected to, and no failover is
    under way. *)
Definition consistent (c : SolanaRpcClient) : Prop :=
  endpoints c !! currentEndpointIndex c = Some (connection c) ∧
  failoverInProgress c = false.

(** A sequence of [executeWithRetry] calls on one client, each against its
    own network behaviour; the result of each call is dropped. *)
Fixpoint run_calls {T} (nets : list ((nat → string → Result JsError T) *
                                     (nat → string → Result JsError Z)))
    (w : World) : World :=
  match nets with
  | [] => w
  | (operation, getSlot) :: rest =>
      run_calls rest (executeWithRetry operation getSlot w).2
  end.

(** The world of a client that has just been constructed. *)
Definition fresh (httpEndpoint : string) (fallbackEndpoints : list string)
  : World :=
  {| client := create httpEndpoint fallbackEndpoints; requests := 0; log := [] |}.

(** [k] calls of [failover] in a row. *)
Fixpoint failovers (getSlot : nat → string → Result JsError Z) (k : nat)
    (w : World) : World :=
  match k with
  | O => w
  | S k' => failovers getSlot k' (failover getSlot w).2
  end.

(** [getMultipleAccounts]: the loop that cuts the keys into batches,
    [for (i = 0; i < publicKeys.length; i += BATCH_SIZE)
       batches.push(publicKeys.slice(i, i + BATCH_SIZE))];
    [fuel] bounds the number of iterations. *)
Fixpoint batches_from {A} (fuel : nat) (BATCH_SIZE : nat) (publicKeys : list A)
    (i : nat) : list (list A) :=
  match fuel with
  | O => []
  | S fuel' =>
      if decide (i < length publicKeys)%nat
      then take BATCH_SIZE (drop i publicKeys)
           :: batches_from fuel' BATCH_SIZE publicKeys (i + BATCH_SIZE)
      else []
  end.

Definition BATCH_SIZE : nat := 100.

Definition batches {A} (publicKeys : list A) : list (list A) :=
  batches_from (length publicKeys) BATCH_SIZE publicKeys 0.

Section GetMultipleAccounts.
Context {Key Info : Type}.

(** The network's answer to [conn.getMultipleAccountsInfo(batch)], as
    request number [n] sent to an endpoint. *)
Variable getMultipleAccountsInfo :
  list Key → nat → string → Result JsError (list Info).
Variable getSlot : nat → string → Result JsError Z.

(** The second loop of [getMultipleAccounts]: one [executeWithRetry] per
    batch, the results appended; an exception ends the call. *)
Fixpoint fetch_batches (bs : list (list Key)) (results : list Info) (w : World)
  : Result JsError (list Info) * World :=
  match bs with
  | [] => (Ok results, w)
  | batch :: rest =>
      match executeWithRetry (getMultipleAccountsInfo batch) getSlot w with
      | (Ok batchResults, w') => fetch_batches rest (results ++ batchResults) w'
      | (Throw error, w') => (Throw error, w')
      end
  end.

Definition getMultipleAccounts (publicKeys : list Key) (w : World)
  : Result JsError (list Info) * World :=
  fetch_batches (batches publicKeys) [] w.

(** [healthCheck()]: the probe, with its exception turned into [false]. *)
Definition healthCheck (w : World) : bool * World :=
  (is_ok (getSlot (requests w) (connection (client w))),
   {| client := client w; requests := S (requests w);
      log := log w ++ [Probed (connection (client w))] |}).

End GetMultipleAccounts.

(** *** Sample inputs *)

(** The first two requests time out, the third is answered. *)
Definition flaky : nat → string → Result JsError Z :=
  λ n _, if decide (n < 2)%nat
         then Throw (mkError "Error" "socket hang up") else Ok 7.

(** A client with three endpoints, connected to the last one. *)
Definition sample_client3 : SolanaRpcClient :=
  {| endpoints := ["https://a"; "https://b"; "https://c"];
     currentEndpointIndex := 2; connection := "https://c";
     failoverInProgress := false |}.

(** The probe of every endpoint fails. *)
Definition dead_probe : nat → string → Result JsError Z :=
  λ _ _, Throw (mkError "Error" "fetch failed").

End RpcMore.

(** ** More of the event dispatcher *)

Module DispatcherMore.
Import Dispatcher.

(** [cleanupOldEvents()] on the buffer; [now] is [Date.now()].  A missing
    or zero [ttlMs] is falsy: the method returns at once. *)
Definition cleanupOldEvents (now : Z) (config : ReplayBufferOptions)
    (buffer : list BufferedEvent) : list BufferedEvent :=
  match ttlMs config with
  | None => buffer
  | Some ttl =>
      if decide (ttl = 0) then buffer
      else
        let cutoff := now - ttl in
        filter (λ item, cutoff < received item) buffer
  end.

(** [getReplayBuffer(eventType?, since?)]: an absent argument and a zero
    [since] are falsy and filter nothing. *)
Definition getReplayBuffer (eventType : option MarketEventType)
    (since : option Z) (d : EventDispatcher) : list MarketEvent :=
  let events := map event (replayBuffer d) in
  let events :=
    match eventType with
    | Some t => filter (λ e, type e = t) events
    | None => events
    end in
  let events :=
    match since with
    | Some s => if decide (s = 0) then events
                else filter (λ e, s ≤ timestamp e) events
    | None => events
    end in
  events.

(** What a subscriber asks [getReplayBuffer] for: events of one type, or
    of any; events stamped at or after [since], or all of them when
    [since] is missing or 0. *)
Definition wanted (eventType : option MarketEventType) (since : option Z)
    (e : MarketEvent) : bool :=
  match eventType with
  | Some t => bool_decide (type e = t)
  | None => true
  end &&
  match since with
  | Some s => bool_decide (s = 0) || bool_decide (s ≤ timestamp e)
  | None => true
  end.

Definition with_replayBuffer (buffer : list BufferedEvent) (d : EventDispatcher)
  : EventDispatcher :=
  {| replayBuffer := buffer;
     replayBufferConfig := replayBufferConfig d;
     handlers := handlers d;
     globalHandlers := globalHandlers d;
     processingQueue := processingQueue d;
     isProcessing := isProcessing d;
     draining := draining d;
     dispatched := dispatched d;
     delivered := delivered d;
     observed := observed d |}.

(** [cleanup()]: the handlers and the queue are dropped; the flag and the
    replay buffer are left as they are. *)
Definition cleanup (d : EventDispatcher) : EventDispatcher :=
  {| replayBuffer := replayBuffer d;
     replayBufferConfig := replayBufferConfig d;
     handlers := λ _, [];
     globalHandlers := [];
     processingQueue := [];
     isProcessing := isProcessing d;
     draining := draining d;
     dispatched := dispatched d;
     delivered := delivered d;
     observed := observed d |}.

(** The actions of [Dispatcher.Action] and the maintenance methods. *)
Inductive Step :=
| Act (a : Action)
| SweepOldEvents (now : Z)      (* the timer calls [cleanupOldEvents] *)
| ClearReplayBuffer             (* [clearReplayBuffer()] *)
| Cleanup.                      (* [cleanup()] *)

Definition step (d : EventDispatcher) (s : Step) : EventDispatcher :=
  match s with
  | Act a => exec d a
  | SweepOldEvents now =>
      with_replayBuffer
        (cleanupOldEvents now (replayBufferConfig d) (replayBuffer d)) d
  | ClearReplayBuffer => with_replayBuffer [] d
  | Cleanup => cleanup d
  end.

Definition steps (d : EventDispatcher) (trace : list Step) : EventDispatcher :=
  foldl step d trace.

(** The replay-buffer entries that the [dispatch] calls among the steps
    would insert: each event with the clock reading of its insertion. *)
Definition entries (trace : list Step) : list BufferedEvent :=
  omap (λ s, match s with
             | Act (Dispatch now e) => Some {| event := e; received := now |}
             | _ => None
             end) trace.

(** The clock readings of the insertions never go back. *)
Definition clock_monotone (trace : list Step) : Prop :=
  StronglySorted Z.le (map received (entries trace)).

(** The events that the [dispatch] calls among the steps enqueue. *)
Definition dispatches (trace : list Step) : list MarketEvent :=
  omap (λ s, match s with Act (Dispatch _ e) => Some e | _ => None end) trace.

(** The handler calls that processing the events of a queue makes, with
    the handlers registered in [d]. *)
Definition calls_for (d : EventDispatcher) (queue : list Queued)
  : list Observation :=
  concat (map (λ q, map (λ h, mkObservation h q)
                        (handlers d (type (queued q)) ++ globalHandlers d))
              queue).

(** What every run keeps when [cleanup] may drop queued events: the
    delivered and the queued events carry increasing ordinals, handlers have
    only seen delivered events, in the order of their ordinals. *)
Record loose_invariant (trace : list Step) (d : EventDispatcher) : Prop := {
  loose_single :
    if isProcessing d then ∃ q, draining d = [q] else draining d = [];
  loose_sorted :
    StronglySorted lt (map ordinal (delivered d ++ processingQueue d));
  loose_bound :
    Forall (λ q, ordinal q < dispatched d)%nat (delivered d ++ processingQueue d);
  loose_seen : Forall (λ o, saw o ∈ delivered d) (observed d);
  loose_order : in_enqueue_order (observed d);
  loose_sub :
    map queued (delivered d ++ processingQueue d) `sublist_of` dispatches trace;
}.

(** No [processEvent] is rejected in the trace. *)
Definition never_rejected (trace : list Action) : Prop :=
  Forall (λ a, match a with Rejected _ => False | _ => True end) trace.

(** *** Sample inputs *)

Definition sample_ttl_options : ReplayBufferOptions :=
  {| enabled := true; maxSize := 3; ttlMs := Some 60 |}.

End DispatcherMore.

(** ** More of the normalizer and of the adapters *)

Module NormalizerMore.
Import JsNum MarketNormalizer.
Local Open Scope Qc_scope.

(** [MarketNormalizer.isValidStatusTransition]: the table of valid
    transitions, and [validTransitions[currentStatus]?.includes(newStatus)]. *)
Definition validTransitions (currentStatus : MarketStatus) : list MarketStatus :=
  match currentStatus with
  | active => [paused; expired; settled; cancelled]
  | paused => [active; cancelled; expired]
  | expired => [settled; cancelled]
  | settled => []
  | cancelled => []
  end.

Definition isValidStatusTransition (currentStatus newStatus : MarketStatus)
  : bool :=
  bool_decide (newStatus ∈ validTransitions currentStatus).

(** A status history in which every change is a valid transition. *)
Definition evolves : MarketStatus → MarketStatus → Prop :=
  rtc (λ s s', isValidStatusTransition s s' = true).

(** A market passed again as the partial input of [normalizeMarket]. *)
Definition as_partial (m : Market) : PartialMarket :=
  {| pm_id := Some (m_id m); pm_programId := Some (m_programId m);
     pm_address := Some (m_address m); pm_name := Some (m_name m);
     pm_description := Some (m_description m); pm_category := m_category m;
     pm_status := Some (m_status m); pm_outcomes := Some (m_outcomes m);
     pm_creator := Some (m_creator m); pm_resolver := m_resolver m;
     pm_resolutionSource := m_resolutionSource m;
     pm_createdAt := Some (m_createdAt m); pm_expiresAt := m_expiresAt m;
     pm_resolvedAt := m_resolvedAt m; pm_winningOutcome := m_winningOutcome m;
     pm_totalVolume := Some (m_totalVolume m);
     pm_totalLiquidity := Some (m_totalLiquidity m);
     pm_minStake := m_minStake m; pm_maxStake := m_maxStake m;
     pm_fee := m_fee m; pm_metadata := Some (m_metadata m) |}.

(** An outcome passed again as the partial input of [normalizeOutcome]. *)
Definition outcome_as_partial (o : Outcome) : PartialOutcome :=
  {| po_id := Some (o_id o); po_name := Some (o_name o);
     po_description := o_description o;
     po_probability := Some (Fin (o_probability o));
     po_volume := Some (o_volume o); po_liquidity := Some (o_liquidity o);
     po_lastPrice := o_lastPrice o |}.

End NormalizerMore.

(** ** The Hxro account layout (programs/hxro/adapter.ts, decodeMarketAccount)
    and the readers of DecoderUtils that do not throw *)

Module HxroDecoder.
Import JsNum Decoder Hxro.

(** [buffer.subarray(start, start + length)]: the bounds are clamped to
    the buffer, nothing is thrown. *)
Definition subarray (buffer : Buffer) (start length : nat) : Buffer :=
  take length (drop start buffer).

(** [toString('hex')]: two lowercase digits per byte. *)
Definition hex_digit (n : N) : ascii :=
  match n with
  | 0 => "0" | 1 => "1" | 2 => "2" | 3 => "3" | 4 => "4" | 5 => "5"
  | 6 => "6" | 7 => "7" | 8 => "8" | 9 => "9" | 10 => "a" | 11 => "b"
  | 12 => "c" | 13 => "d" | 14 => "e" | _ => "f"
  end%N%char.

Fixpoint toHex (bytes : Buffer) : string :=
  match bytes with
  | [] => ""
  | b :: rest =>
      String (hex_digit (Byte.to_N b / 16))
        (String (hex_digit (Byte.to_N b mod 16)) (toHex rest))
  end.

Definition readPublicKey (buffer : Buffer) (offset : nat) : string :=
  let pubkeyBytes := subarray buffer offset 32 in
  toHex pubkeyBytes.

(** [bytes.indexOf(0)] *)
Fixpoint indexOf0 (bytes : Buffer) : option nat :=
  match bytes with
  | [] => None
  | b :: rest => if Byte.eqb b x00 then Some 0%nat else S <$> indexOf0 rest
  end.

Section WithUtf8.
(** [Buffer.prototype.toString('utf-8')], a function of Node. *)
Context (utf8 : Buffer → string).

Definition readString (buffer : Buffer) (offset length : nat) : string :=
  let bytes := subarray buffer offset length in
  match indexOf0 bytes with
  | Some nullIndex => utf8 (subarray bytes 0 nullIndex)
  | None => utf8 bytes
  end.

(** The loop [for (let i = 0; i < numOutcomes; i++)]; it returns the
    outcomes read and the offset behind them. *)
Fixpoint read_outcomes (data : Buffer) (remaining : nat) (i : Z) (offset : nat)
  : Result JsError (list HxroOutcome * nat) :=
  match remaining with
  | O => Ok ([], offset)
  | S remaining =>
      let outcomeName := readString data offset 32 in
      let offset := (offset + 32)%nat in
      pool ← readU64 data offset;
      let offset := (offset + 8)%nat in
      bettors ← readU32 data offset;
      let offset := (offset + 4)%nat in
      rest ← read_outcomes data remaining (i + 1) offset;
      Ok ({| id := i; name := outcomeName; pool := pool; bettors := bettors;
             odds := ofZ 0 |} :: rest.1, rest.2)
  end.

(** [outcome.odds = outcomePool > 0 ? totalPoolNum / outcomePool : 0] *)
Definition with_odds (totalPool : Z) (outcome : HxroOutcome) : HxroOutcome :=
  {| id := id outcome; name := name outcome; pool := pool outcome;
     bettors := bettors outcome;
     odds := if bool_decide (0 < pool outcome)
             then div (ofZ totalPool) (ofZ (pool outcome)) else ofZ 0 |}.

(** [decodeMarketAccount]; the [catch] logs and rethrows.  The fields
    that the source turns into strings with [toString] are kept as the
    integers that [normalize] parses back. *)
Definition decodeMarketAccount (data : Buffer)
  : Result JsError HxroMarketAccount :=
  let offset := 8%nat in
  let marketAddress := readPublicKey data offset in
  let offset := (offset + 32)%nat in
  let marketName := readString data offset 64 in
  let offset := (offset + 64)%nat in
  let marketDescription := readString data offset 256 in
  let offset := (offset + 256)%nat in
  let marketAuthority := readPublicKey data offset in
  let offset := (offset + 32)%nat in
  let oracleAddress := readPublicKey data offset in
  let offset := (offset + 32)%nat in
  marketStatus ← readU8 data offset;
  let offset := (offset + 1)%nat in
  numOutcomes ← readU8 data offset;
  let offset := (offset + 1)%nat in
  read ← read_outcomes data (Z.to_nat numOutcomes) 0 offset;
  let outcomes := read.1 in
  let offset := read.2 in
  totalPool ← readU64 data offset;
  let offset := (offset + 8)%nat in
  settlementTime ← readI64 data offset;
  let offset := (offset + 8)%nat in
  createdAt ← readI64 data offset;
  let offset := (offset + 8)%nat in
  settledAt ← readI64 data offset;
  let offset := (offset + 8)%nat in
  winningOutcome ← readU8 data offset;
  let offset := (offset + 1)%nat in
  feePercent ← readU16 data offset;
  let offset := (offset + 2)%nat in
  minStake ← readU64 data offset;
  let offset := (offset + 8)%nat in
  maxStake ← readU64 data offset;
  let outcomes := map (with_odds totalPool) outcomes in
  Ok {| marketAddress := marketAddress; marketName := marketName;
        marketDescription := marketDescription;
        marketAuthority := marketAuthority; oracleAddress := oracleAddress;
        marketStatus := marketStatus; outcomes := outcomes;
        totalPool := totalPool; settlementTime := settlementTime;
        createdAt := createdAt; settledAt := settledAt;
        winningOutcome := winningOutcome; feePercent := feePercent;
        minStake := minStake; maxStake := maxStake |}.

End WithUtf8.

(** The size of an account with [n] outcomes: 426 bytes up to the outcome
    count, 44 bytes per outcome, 51 bytes behind the outcomes. *)
Definition layout_size (n : nat) : nat := (426 + 44 * n + 51)%nat.

(** The price of an outcome in terms of the decoded integers, its pool
    [p], the total pool [t] and the fee in basis points: the inverse of the
    odds [t / p] net of the fee, written as the code evaluates it, or 0. *)
Definition price_spec (p t fee : Z) : Qc :=
  if decide (0 < p ∧ 0 < t ∧ fee < 10000)
  then 1 / ((Qc_of_Z t / Qc_of_Z p) * (1 - Qc_of_Z fee / Qc_of_Z 10000))
  else 0%Qc.

(** *** Sample input: an account with two outcomes, pools 100 and 300,
    total 400, fee 250 basis points. *)

Definition le_bytes (width : nat) (v : Z) : Buffer :=
  map (λ i, default x00 (Byte.of_N (Z.to_N ((v / 256 ^ Z.of_nat i) mod 256))))
      (seq 0 width).

Definition sample_outcome_bytes (p : Z) : Buffer :=
  replicate 32 x41 ++ le_bytes 8 p ++ le_bytes 4 2.

Definition sample_bytes : Buffer :=
  replicate 8 x00 ++ replicate 32 x01 ++ replicate 64 x42 ++
  replicate 256 x00 ++ replicate 32 x02 ++ replicate 32 x03 ++
  [x00; x02] ++ sample_outcome_bytes 100 ++ sample_outcome_bytes 300 ++
  le_bytes 8 400 ++ le_bytes 8 1700003600 ++ le_bytes 8 1700000000 ++
  le_bytes 8 0 ++ [xff] ++ le_bytes 2 250 ++ le_bytes 8 1 ++ le_bytes 8 1000.

(** An account with three outcomes, pools 100, 100 and 200, total 400 and
    a fee of 5000 basis points. *)
Definition sample_bytes_half_fee : Buffer :=
  replicate 8 x00 ++ replicate 32 x01 ++ replicate 64 x42 ++
  replicate 256 x00 ++ replicate 32 x02 ++ replicate 32 x03 ++
  [x00; x03] ++ sample_outcome_bytes 100 ++ sample_outcome_bytes 100 ++
  sample_outcome_bytes 200 ++
  le_bytes 8 400 ++ le_bytes 8 1700003600 ++ le_bytes 8 1700000000 ++
  le_bytes 8 0 ++ [xff] ++ le_bytes 2 5000 ++ le_bytes 8 1 ++ le_bytes 8 1000.

(** A stand-in for the UTF-8 decoding of the samples: the length only. *)
Definition sample_utf8 (bytes : Buffer) : string :=
  "s" +:+ pretty (length bytes).

End HxroDecoder.

(** ** WebSocket manager: reconnection (rpc/websocket.ts) *)

Module WebSocket.

(** What [handleReconnect] does to the outside, in order. *)
Inductive Effect :=
| Slept (ms : Z)               (* [sleep(delay)] *)
| Probed.                      (* [this.connection.getSlot()] *)

Global Instance Effect_eq_dec : EqDecision Effect.
Proof. solve_decision. Defined.

Record WebSocketManager := mkManager {
  accountSubscriptions : list (string * Z);   (* key, subscription id *)
  programSubscriptions : list (string * Z);
  reconnectAttempts : Z;
  maxReconnectAttempts : Z;
  reconnectDelay : Z;
  isReconnecting : bool;
}.

(** The manager, the number of probes sent so far and the log. *)
Record World := mkWorld {
  manager : WebSocketManager;
  probes : nat;
  log : list Effect;
}.

Definition create : WebSocketManager :=
  {| accountSubscriptions := []; programSubscriptions := [];
     reconnectAttempts := 0; maxReconnectAttempts := 10;
     reconnectDelay := 1000; isReconnecting := false |}.

Definition max_attempts_error : JsError :=
  mkError "Error" "WebSocket reconnection failed after max attempts".

Definition set_isReconnecting (b : bool) (m : WebSocketManager)
  : WebSocketManager :=
  {| accountSubscriptions := accountSubscriptions m;
     programSubscriptions := programSubscriptions m;
     reconnectAttempts := reconnectAttempts m;
     maxReconnectAttempts := maxReconnectAttempts m;
     reconnectDelay := reconnectDelay m;
     isReconnecting := b |}.

Definition set_reconnectAttempts (n : Z) (m : WebSocketManager)
  : WebSocketManager :=
  {| accountSubscriptions := accountSubscriptions m;
     programSubscriptions := programSubscriptions m;
     reconnectAttempts := n;
     maxReconnectAttempts := maxReconnectAttempts m;
     reconnectDelay := reconnectDelay m;
     isReconnecting := isReconnecting m |}.

(** [resubscribeAll]: the keys are read for the log message, both maps
    are cleared, and nothing is subscribed again. *)
Definition resubscribeAll (m : WebSocketManager) : WebSocketManager :=
  {| accountSubscriptions := [];
     programSubscriptions := [];
     reconnectAttempts := reconnectAttempts m;
     maxReconnectAttempts := maxReconnectAttempts m;
     reconnectDelay := reconnectDelay m;
     isReconnecting := isReconnecting m |}.

Definition with_manager (m : WebSocketManager) (w : World) : World :=
  {| manager := m; probes := probes w; log := log w |}.

Definition sleep (ms : Z) (w : World) : World :=
  {| manager := manager w; probes := probes w; log := log w ++ [Slept ms] |}.

Section WithNetwork.
(** The answer of the node to the [n]-th [getSlot] probe. *)
Variable getSlot : nat → Result JsError Z.

Definition probe (w : World) : Result JsError Z * World :=
  (getSlot (probes w),
   {| manager := manager w; probes := S (probes w); log := log w ++ [Probed] |}).

(** [handleReconnect]; the recursive call of the [catch] block takes one
    unit of fuel, and [None] is a call that ran out of it. *)
Fixpoint handleReconnect (fuel : nat) (w : World)
  : option (Result JsError () * World) :=
  match fuel with
  | O => None
  | S fuel =>
      if isReconnecting (manager w) then Some (Ok (), w)
      else
        let w := with_manager (set_isReconnecting true (manager w)) w in
        let w := with_manager
                   (set_reconnectAttempts (reconnectAttempts (manager w) + 1)
                      (manager w)) w in
        if decide (maxReconnectAttempts (manager w) < reconnectAttempts (manager w))
        then
          let w := with_manager (set_isReconnecting false (manager w)) w in
          Some (Throw max_attempts_error, w)
        else
          let delay :=
            Z.min (reconnectDelay (manager w)
                   * 2 ^ (reconnectAttempts (manager w) - 1)) 30000 in
          let w := sleep delay w in
          match probe w with
          | (Ok _, w) =>
              let w := with_manager (resubscribeAll (manager w)) w in
              let w := with_manager (set_reconnectAttempts 0 (manager w)) w in
              let w := with_manager (set_isReconnecting false (manager w)) w in
              Some (Ok (), w)
          | (Throw _, w) =>
              let w := with_manager (set_isReconnecting false (manager w)) w in
              handleReconnect fuel w
          end
  end.

(** Calling [handleReconnect] [n] times in a row, whatever each call
    returns. *)
Fixpoint reconnect_calls (fuel : nat) (n : nat) (w : World)
  : option (list (Result JsError ()) * World) :=
  match n with
  | O => Some ([], w)
  | S n =>
      match handleReconnect fuel w with
      | None => None
      | Some (r, w) =>
          match reconnect_calls fuel n w with
          | None => None
          | Some (rs, w) => Some (r :: rs, w)
          end
      end
  end.

End WithNetwork.

(** The delay before attempt number [k], counted from 1: the base delay
    doubles with every attempt and is capped at 30 s. *)
Definition reconnect_delay (base : Z) (k : Z) : Z :=
  Z.min (base * 2 ^ (k - 1)) 30000.

(** Sleeping and probing for attempts [a + 1 .. a + j]. *)
Definition backoff_rounds (base a : Z) (j : nat) : list Effect :=
  flat_map (λ i, [Slept (reconnect_delay base (a + 1 + Z.of_nat i)); Probed])
           (seq 0 j).

(** The world after [j] failed attempts in a row. *)
Definition after_failures (j : nat) (w : World) : World :=
  {| manager :=
       set_reconnectAttempts (reconnectAttempts (manager w) + Z.of_nat j)
         (manager w);
     probes := probes w + j;
     log := log w ++
            backoff_rounds (reconnectDelay (manager w))
              (reconnectAttempts (manager w)) j |}.

Definition fresh (accounts programs : list (string * Z)) : World :=
  {| manager :=
       {| accountSubscriptions := accounts; programSubscriptions := programs;
          reconnectAttempts := 0; maxReconnectAttempts := 10;
          reconnectDelay := 1000; isReconnecting := false |};
     probes := 0; log := [] |}.

Definition slept (l : list Effect) : list Z :=
  omap (λ x, match x with Slept ms => Some ms | Probed => None end) l.

Definition probed (l : list Effect) : nat :=
  length (filter (λ x, x = Probed) l).

(** *** Sample networks *)
Definition down : nat → Result JsError Z :=
  λ _, Throw (mkError "Error" "ECONNREFUSED").
Definition up : nat → Result JsError Z := λ _, Ok 250000000.
Definition up_after (k : nat) : nat → Result JsError Z :=
  λ n, if decide (n < k)%nat then Throw (mkError "Error" "ECONNREFUSED")
       else Ok 250000000.

End WebSocket.

(** * Properties *)

(** ** Arithmetic of the number model *)

Section JsNumFacts.
Import JsNum.

Lemma leb_le x y : leb x y = true ↔ (x ≤ y)%Qc.
Proof. unfold leb, Qcle. apply Qle_bool_iff. Qed.

Lemma leb_gt x y : leb x y = false ↔ (y < x)%Qc.
Proof.
  rewrite Qclt_nge, <- leb_le. destruct (leb x y); split; congruence.
Qed.

Lemma ltb_lt x y : ltb x y = true ↔ (x < y)%Qc.
Proof. unfold ltb. rewrite negb_true_iff. apply leb_gt. Qed.

Lemma Math_max_lub x y z : (x ≤ z)%Qc → (y ≤ z)%Qc → (Math_max x y ≤ z)%Qc.
Proof. unfold Math_max. by destruct (leb x y). Qed.

Lemma Math_max_l x y : (x ≤ Math_max x y)%Qc.
Proof.
  unfold Math_max. destruct (leb x y) eqn:E.
  - by apply leb_le.
  - apply Qcle_refl.
Qed.

Lemma Math_min_r x y : (Math_min x y ≤ y)%Qc.
Proof.
  unfold Math_min. destruct (leb x y) eqn:E.
  - by apply leb_le.
  - apply Qcle_refl.
Qed.

End JsNumFacts.

Section JsNumClamp.
Import JsNum.
Local Open Scope Qc_scope.

Lemma ofZ_0 : ofZ 0 = 0.
Proof. apply Z2Qc_inj_0. Qed.

Lemma ofZ_1 : ofZ 1 = 1.
Proof. apply Z2Qc_inj_1. Qed.

Lemma Qc_0_lt_1 : (0 : Qc) < 1.
Proof. rewrite <- Z2Qc_inj_0, <- Z2Qc_inj_1. by apply Z2Qc_inj_lt. Qed.

(** [Math.max(0, Math.min(1, x))] clamps to the unit interval. *)
Lemma Math_clamp_cases x :
  Math_max (ofZ 0) (Math_min (ofZ 1) x) =
    if decide (x < 0) then 0 else if decide (1 < x) then 1 else x.
Proof.
  rewrite ofZ_0, ofZ_1. unfold Math_max, Math_min.
  pose proof Qc_0_lt_1 as H01.
  destruct (decide (x < 0)) as [Hneg|Hnn].
  - assert (leb 1 x = false) as ->
      by (apply leb_gt; by apply Qclt_trans with 0).
    by apply leb_gt in Hneg as ->.
  - apply Qcnot_lt_le in Hnn.
    destruct (decide (1 < x)) as [Hbig|Hsm].
    + assert (leb 1 x = true) as ->
        by (apply leb_le; by apply Qclt_le_weak).
      assert (leb 0 1 = true) as -> by (apply leb_le; by apply Qclt_le_weak).
      done.
    + apply Qcnot_lt_le in Hsm.
      destruct (leb 1 x) eqn:E1.
      * apply leb_le in E1. assert (x = 1) as -> by by apply Qcle_antisym.
        assert (leb 0 1 = true) as -> by (apply leb_le; by apply Qclt_le_weak).
        done.
      * by apply leb_le in Hnn as ->.
Qed.

Lemma Math_clamp_bounds x :
  0 ≤ Math_max (ofZ 0) (Math_min (ofZ 1) x) ≤ 1.
Proof.
  rewrite Math_clamp_cases. pose proof Qc_0_lt_1 as H01.
  repeat case_decide; split;
    auto using Qcle_refl, Qclt_le_weak, Qcnot_lt_le.
Qed.

(** [e < now / 1000] on numbers is [e * 1000 < now] on integers. *)
Lemma ltb_seconds (e now : Z) :
  ltb (ofZ e) (div (ofZ now) (ofZ 1000)) = true ↔ (e * 1000 < now)%Z.
Proof.
  rewrite ltb_lt. unfold div, ofZ.
  assert (0 < Qc_of_Z 1000) as Hpos
    by (rewrite <- Z2Qc_inj_0; by apply Z2Qc_inj_lt).
  rewrite (Qcmult_lt_mono_pos_r _ _ _ Hpos).
  rewrite (Qcmult_comm (_ / _)), Qcmult_div_r
    by (intros H0; rewrite H0 in Hpos; by apply Qclt_not_eq in Hpos).
  by rewrite <- Z2Qc_inj_mul, <- Z2Qc_inj_lt.
Qed.

End JsNumClamp.

(** ** Switchboard feed normalization *)

Section SwitchboardFacts.
Import JsNum MarketNormalizer Switchboard.

Lemma determine_status_cases feed now :
  determine_status feed now =
    if decide (has_expired feed now) then expired
    else if isLocked feed then paused else active.
Proof.
  unfold determine_status, has_expired.
  destruct (ltb _ _) eqn:E.
  - apply ltb_seconds in E.
    case_bool_decide; case_decide; simpl; try done; lia.
  - assert (¬ (expiration feed * 1000 < now)) as Hn
      by (rewrite <- ltb_seconds, E; done).
    rewrite andb_false_r. case_decide; [lia | done].
Qed.

Lemma normalize_Ok_inv clock feed acct m :
  normalize clock feed acct = Ok m →
  m_status m = determine_status feed (clock 0%nat) ∧
  get_field "confidence" (m_metadata m) =
    Some (JDouble (calculateConfidence feed)) ∧
  m_id m = address acct ∧ m_address m = address acct ∧
  m_programId m = programId acct.
Proof.
  unfold normalize, normalizeMarket. intros H.
  destruct (schema_issues _) eqn:Hiss; [|done].
  injection H as <-. cbn [m_status m_metadata m_id m_address m_programId default].
  unfold schema_issues in Hiss.
  cbn [m_id m_address m_programId m_name] in Hiss.
  repeat split; try done.
  all: unfold str_or in *; repeat case_decide; try done.
  all: simpl in Hiss; try done.
Qed.

End SwitchboardFacts.

Section SwitchboardClaims.
Import JsNum MarketNormalizer Switchboard.

Lemma min1_nonempty s : s ≠ "" → min1 s = true.
Proof.
  intros Hs. unfold min1. apply bool_decide_eq_true.
  destruct s; [done | simpl; lia].
Qed.

Lemma str_or_nonempty s dflt : dflt ≠ "" → str_or s dflt ≠ "".
Proof. intros Hd. unfold str_or. destruct s; [case_decide|]; done. Qed.

Lemma str_or_Some_nonempty s dflt : s ≠ "" → str_or (Some s) dflt = s.
Proof. intros Hs. unfold str_or. by case_decide. Qed.

(** [normalize] returns a market as soon as the account has an address
    and a program id. *)
Lemma normalize_returns clock feed acct :
  address acct ≠ "" → programId acct ≠ "" →
  ∃ m, normalize clock feed acct = Ok m.
Proof.
  intros Ha Hp. unfold normalize, normalizeMarket, schema_issues.
  cbn [m_id m_address m_programId m_name].
  rewrite !(str_or_Some_nonempty (address acct)) by done.
  rewrite !(str_or_Some_nonempty (programId acct)) by done.
  rewrite (min1_nonempty (address acct)), (min1_nonempty (programId acct))
    by done.
  rewrite min1_nonempty; [by eexists|].
  by apply str_or_nonempty.
Qed.

(** C1, as the code has it: the expiry check runs after the lock check and
    overrides it.  A feed whose expiration is set and has passed is
    [expired] whether or not it is locked; otherwise a locked feed is
    [paused]; otherwise the feed is [active]. *)
Theorem switchboard_status_expiry_overrides_lock clock feed acct :
  address acct ≠ "" → programId acct ≠ "" →
  ∃ m, normalize clock feed acct = Ok m ∧
       m_status m =
         if decide (has_expired feed (clock 0%nat)) then expired
         else if isLocked feed then paused
         else active.
Proof.
  intros Ha Hp. destruct (normalize_returns clock feed acct Ha Hp) as [m Hm].
  exists m. split; [done|].
  apply normalize_Ok_inv in Hm as (-> & _). apply determine_status_cases.
Qed.

Lemma switchboard_status_expiry_overrides_lock_witness :
  ∃ m, normalize sample_clock (sample_feed true 1700000000) sample_account = Ok m ∧
       m_status m = expired.
Proof.
  destruct (switchboard_status_expiry_overrides_lock sample_clock
              (sample_feed true 1700000000) sample_account)
    as (m & Hm & Hs); [done | done |].
  exists m. split; [done|]. rewrite Hs. by vm_compute.
Defined.

(** C1, counterexample to the rule as the specification words it: a locked
    feed whose expiration (1,700,000,000 s) lies before the clock reading
    (1,700,000,500 s) is normalized to [expired], where the lock-first rule
    asks for [paused]. *)
Lemma switchboard_locked_expired_feed_not_paused :
  ∃ m, normalize sample_clock (sample_feed true 1700000000) sample_account = Ok m ∧
       isLocked (sample_feed true 1700000000) = true ∧
       status_lock_first (sample_feed true 1700000000) (sample_clock 0%nat) = paused ∧
       m_status m = expired ∧
       m_status m ≠ status_lock_first (sample_feed true 1700000000) (sample_clock 0%nat).
Proof.
  eexists. split; [vm_compute; reflexivity|].
  repeat split; by vm_compute.
Qed.

End SwitchboardClaims.

Section SwitchboardConfidence.
Import JsNum MarketNormalizer Switchboard.
Local Open Scope Qc_scope.

Lemma ltb_false_iff x y : ltb x y = false ↔ ¬ x < y.
Proof. by rewrite <- ltb_lt, not_true_iff_false. Qed.

(** [Math.max] and [Math.min] on two numbers that are finite. *)
Lemma dmax_Fin a b : dmax (Fin a) (Fin b) = Fin (if decide (a < b) then b else a).
Proof.
  unfold dmax, dltb. destruct (ltb a b) eqn:E.
  - apply ltb_lt in E. by rewrite decide_True.
  - apply ltb_false_iff in E. by rewrite decide_False.
Qed.

Lemma dmin_Fin a b : dmin (Fin a) (Fin b) = Fin (if decide (b < a) then b else a).
Proof.
  unfold dmin, dltb. destruct (ltb b a) eqn:E.
  - apply ltb_lt in E. by rewrite decide_True.
  - apply ltb_false_iff in E. by rewrite decide_False.
Qed.

(** [Math.max(0, Math.min(1, x))] on any value. *)
Lemma dclamp_cases x :
  dmax (Fin (ofZ 0)) (dmin (Fin (ofZ 1)) x) =
    match x with
    | NaN => NaN
    | NegInfinity => Fin 0
    | Fin q => Fin (clamp01 q)
    | Infinity => Fin 1
    end.
Proof.
  rewrite ofZ_0, ofZ_1. pose proof Qc_0_lt_1 as H01.
  destruct x as [| |q|]; try done.
  - rewrite dmin_Fin, dmax_Fin. unfold clamp01. f_equal.
    destruct (decide (q < 1)) as [Hq|Hq].
    + destruct (decide (0 < q)) as [Hp|Hp].
      * rewrite decide_False by by apply Qcle_not_lt, Qclt_le_weak.
        by rewrite decide_False by by apply Qcle_not_lt, Qclt_le_weak.
      * apply Qcnot_lt_le in Hp. destruct (decide (q < 0)); [done|].
        rewrite decide_False by by apply Qcle_not_lt, Qclt_le_weak.
        apply Qcle_antisym; [by apply Qcnot_lt_le | done].
    + rewrite (decide_True (P := 0 < 1)) by done.
      apply Qcnot_lt_le in Hq.
      rewrite decide_False
        by (apply Qcle_not_lt, Qcle_trans with 1; [by apply Qclt_le_weak|done]).
      destruct (decide (1 < q)); [done|].
      apply Qcle_antisym; [done | by apply Qcnot_lt_le].
Qed.

(** The code's confidence computation against the formula of the
    specification, for each kind of value that the deviation can be. *)
Lemma calculateConfidence_cases feed :
  calculateConfidence feed =
    match stdDeviation (latestConfirmedRound feed) with
    | NaN => NaN
    | NegInfinity => Fin 1
    | Fin sigma =>
        Fin (confidence_spec (numSuccess (latestConfirmedRound feed))
                             (numError (latestConfirmedRound feed)) sigma)
    | Infinity =>
        Fin (confidence_spec (numSuccess (latestConfirmedRound feed))
                             (numError (latestConfirmedRound feed)) 1)
    end.
Proof.
  unfold calculateConfidence. rewrite dclamp_cases.
  unfold confidence_spec, denominator, div, ofZ, frac.
  rewrite Z2Qc_inj_0, Z2Qc_inj_1.
  set (r := Qc_of_Z _ / Qc_of_Z _).
  pose proof Qc_0_lt_1 as H01.
  assert (∀ s, dmax (Fin 0) (Fin (1 + - s)) =
               Fin (if decide (0 ≤ 1 - s) then 1 - s else 0)) as Hpen.
  { intros s. rewrite dmax_Fin. f_equal. unfold Qcminus.
    destruct (decide (0 < 1 + - s)) as [Hp|Hp].
    - by rewrite decide_True by by apply Qclt_le_weak.
    - apply Qcnot_lt_le in Hp. destruct (decide (0 ≤ 1 + - s)); [|done].
      by apply Qcle_antisym. }
  destruct (stdDeviation (latestConfirmedRound feed)) as [| |s|].
  - done.
  - cbn. unfold scale_infinity. rewrite decide_False by done.
    by rewrite bool_decide_eq_true_2 by done.
  - cbn [dsub dopp dadd]. rewrite Hpen. cbn [dmul dadd]. do 2 f_equal.
    by rewrite (Qcmult_comm r), (Qcmult_comm (if decide _ then _ else _)).
  - cbn [dsub dopp dadd].
    assert (dmax (Fin 0) NegInfinity = Fin 0) as -> by done.
    cbn [dmul dadd]. do 2 f_equal.
    assert ((1 : Qc) - 1 = 0) as -> by (unfold Qcminus; apply Qcplus_opp_r).
    rewrite (Qcmult_comm r). f_equal.
Qed.

(** C9, as the code has it: when the standard deviation of the latest
    confirmed round is a number, the [confidence] entry of the normalized
    market's metadata is clamp_[0,1](0.6 × r + 0.4 × max(0, 1 − stdDeviation))
    with r = numSuccess / (numSuccess + numError), the denominator being 1
    when the two counters sum to zero; an infinite deviation counts as its
    limit (penalty 0 for +Infinity, confidence 1 for −Infinity).  When the
    deviation read from the account is NaN, so is the confidence. *)
Theorem switchboard_confidence_formula clock feed acct :
  address acct ≠ "" → programId acct ≠ "" →
  ∃ m, normalize clock feed acct = Ok m ∧
       get_field "confidence" (m_metadata m) =
         Some (JDouble
           match stdDeviation (latestConfirmedRound feed) with
           | NaN => NaN
           | NegInfinity => Fin 1
           | Fin sigma =>
               Fin (confidence_spec (numSuccess (latestConfirmedRound feed))
                                    (numError (latestConfirmedRound feed))
                                    sigma)
           | Infinity =>
               Fin (confidence_spec (numSuccess (latestConfirmedRound feed))
                                    (numError (latestConfirmedRound feed)) 1)
           end).
Proof.
  intros Ha Hp. destruct (normalize_returns clock feed acct Ha Hp) as [m Hm].
  exists m. split; [done|].
  apply normalize_Ok_inv in Hm as (_ & -> & _).
  by rewrite calculateConfidence_cases.
Qed.

(** Three successes, one error and a deviation of 1/4 give
    0.6 × 3/4 + 0.4 × 3/4 = 3/4. *)
Lemma switchboard_confidence_formula_witness :
  ∃ m, normalize sample_clock (sample_feed false 0) sample_account = Ok m ∧
       get_field "confidence" (m_metadata m) =
         Some (JDouble (Fin (Q2Qc (3 # 4)))).
Proof.
  destruct (switchboard_confidence_formula sample_clock (sample_feed false 0)
              sample_account) as (m & Hm & Hc); [done | done |].
  exists m. split; [done|]. rewrite Hc. cbn [stdDeviation latestConfirmedRound
    sample_feed sample_round]. do 3 f_equal.
  apply Qc_is_canon. by vm_compute.
Defined.

(** C9, counterexample to the formula for every decoded feed: a feed whose
    standard deviation was read as NaN is normalized with a confidence of
    NaN, which is no value of the clamp, whatever deviation the formula is
    given. *)
Lemma switchboard_nan_deviation_gives_nan_confidence :
  ∃ m, normalize sample_clock (sample_feed_reading (Fin (frac 7 10)) NaN)
         sample_account = Ok m ∧
       get_field "confidence" (m_metadata m) = Some (JDouble NaN) ∧
       ∀ sigma, get_field "confidence" (m_metadata m) ≠
                Some (JDouble (Fin (confidence_spec 3 1 sigma))).
Proof.
  eexists. split; [vm_compute; reflexivity|].
  match goal with
  | |- ?conf = ?v ∧ _ => assert (conf = v) as Hc by (vm_compute; reflexivity)
  end.
  split; [exact Hc|]. intros sigma. rewrite Hc. discriminate.
Qed.

End SwitchboardConfidence.

(** ** Hxro parimutuel normalization *)

Section HxroFacts.
Import JsNum MarketNormalizer Hxro.
Local Open Scope Qc_scope.

Lemma Qc_of_Z_pos n : (0 < n)%Z → 0 < Qc_of_Z n.
Proof. intros H. rewrite <- Z2Qc_inj_0. by apply (proj1 (Z2Qc_inj_lt 0 n)). Qed.

Lemma Qc_pos_ne_0 (x : Qc) : 0 < x → x ≠ 0.
Proof. intros H ->. by apply Qclt_not_eq in H. Qed.

Lemma Qc_div_mul_cancel (x y : Qc) : 0 < y → x / y * y = x.
Proof.
  intros Hy. rewrite Qcmult_comm. apply Qcmult_div_r. by apply Qc_pos_ne_0.
Qed.

Lemma ratio_nonneg a b : (0 ≤ a)%Z → (0 < b)%Z → 0 ≤ Qc_of_Z a / Qc_of_Z b.
Proof.
  intros Ha Hb. apply Qc_of_Z_pos in Hb.
  apply (Qcmult_le_mono_pos_r _ _ _ Hb).
  rewrite Qcmult_0_l, Qc_div_mul_cancel by done.
  rewrite <- Z2Qc_inj_0. by apply (proj1 (Z2Qc_inj_le 0 a)).
Qed.

Lemma ratio_le_1 a b : (0 < b)%Z → Qc_of_Z a / Qc_of_Z b ≤ 1 ↔ (a ≤ b)%Z.
Proof.
  intros Hb. pose proof (Qc_of_Z_pos _ Hb) as Hb'.
  rewrite (Qcmult_le_mono_pos_r _ _ _ Hb').
  rewrite Qcmult_1_l, Qc_div_mul_cancel by done.
  by rewrite <- Z2Qc_inj_le.
Qed.

Lemma clamp01_id x : 0 ≤ x → x ≤ 1 → Switchboard.clamp01 x = x.
Proof.
  intros H0 H1. unfold Switchboard.clamp01.
  case_decide as Hlt; [by destruct (Qcle_not_lt _ _ H0)|].
  case_decide as Hgt; [by destruct (Qcle_not_lt _ _ H1)|]. done.
Qed.

Lemma clamp01_above x : 1 < x → Switchboard.clamp01 x = 1.
Proof.
  intros H1. unfold Switchboard.clamp01.
  case_decide as Hlt; [|by case_decide].
  destruct (Qclt_not_le _ _ (Qclt_trans _ _ _ Hlt Qc_0_lt_1)).
  by apply Qclt_le_weak.
Qed.

(** [normalizeOutcome] leaves a probability of the unit interval alone. *)
Lemma normalizeOutcome_probability data x :
  po_probability data = Some (Fin x) → 0 ≤ x → x ≤ 1 →
  o_probability (normalizeOutcome data) = x.
Proof.
  intros Hx H0 H1. unfold normalizeOutcome. cbn [o_probability].
  rewrite Hx. unfold num_or0, dltb. rewrite ofZ_0, ofZ_1.
  assert (ltb x 0 = false) as ->.
  { apply not_true_iff_false. rewrite ltb_lt. by apply Qcle_not_lt. }
  assert (ltb 1 x = false) as ->; [|done].
  apply not_true_iff_false. rewrite ltb_lt. by apply Qcle_not_lt.
Qed.

(** Each outcome gets the specification's share, clamped to [0,1]. *)
Lemma normalize_outcome_probability market acct o :
  o_probability (normalize_outcome market acct o) =
    Switchboard.clamp01 (share_spec market (pool o)).
Proof.
  unfold normalize_outcome.
  erewrite normalizeOutcome_probability; [| done | apply Math_clamp_bounds..].
  rewrite Math_clamp_cases. unfold Switchboard.clamp01, share_spec, div, ofZ.
  rewrite Z2Qc_inj_1.
  destruct (decide (0 < totalPool market)%Z) as [HT|HT];
    [rewrite bool_decide_eq_true_2 by done
    |rewrite bool_decide_eq_false_2 by done]; done.
Qed.

Lemma equal_share_unit (n : nat) :
  (0 < n)%nat → 0 ≤ 1 / Qc_of_Z (Z.of_nat n) ≤ 1.
Proof.
  intros Hn. rewrite <- Z2Qc_inj_1. split.
  - apply ratio_nonneg; lia.
  - apply ratio_le_1; lia.
Qed.

Lemma clamped_share_is_capped market o :
  o ∈ outcomes market → (0 ≤ pool o)%Z →
  Switchboard.clamp01 (share_spec market (pool o)) = capped_share market (pool o).
Proof.
  intros Hin Hp. unfold share_spec, capped_share.
  destruct (decide (0 < totalPool market)%Z) as [HT|HT].
  - destruct (decide (pool o ≤ totalPool market)%Z) as [Hle|Hgt].
    + apply clamp01_id; [by apply ratio_nonneg | by apply ratio_le_1].
    + apply clamp01_above. apply Qcnot_le_lt. by rewrite ratio_le_1.
  - apply clamp01_id; apply equal_share_unit;
      destruct (outcomes market); [by apply elem_of_nil in Hin | simpl; lia
                                  | by apply elem_of_nil in Hin | simpl; lia].
Qed.

Lemma hxro_normalize_returns clock market acct :
  address acct ≠ "" → programId acct ≠ "" →
  ∃ m, normalize clock market acct = Ok m ∧
       m_outcomes m = map (normalize_outcome market acct) (outcomes market).
Proof.
  intros Ha Hp. unfold normalize, normalizeMarket, schema_issues.
  cbn [m_id m_address m_programId m_name].
  rewrite !(str_or_Some_nonempty (address acct)) by done.
  rewrite !(str_or_Some_nonempty (programId acct)) by done.
  rewrite (min1_nonempty (address acct)), (min1_nonempty (programId acct))
    by done.
  rewrite min1_nonempty; [by eexists|].
  by apply str_or_nonempty.
Qed.

End HxroFacts.

Section HxroClaims.
Import JsNum MarketNormalizer Hxro.
Local Open Scope Qc_scope.

(** C4, as the code has it: outcome i gets the share p_i / T of the total
    pool when T > 0, capped at 1 when the pool exceeds the recorded total
    (the total is a field of the account, not the sum of the pools), and
    the equal share 1/N when T = 0.  Pools are unsigned. *)
Theorem hxro_probability_capped_share clock market acct :
  address acct ≠ "" → programId acct ≠ "" →
  (∀ o, o ∈ outcomes market → (0 ≤ pool o)%Z) →
  ∃ m, normalize clock market acct = Ok m ∧
       map o_probability (m_outcomes m) =
         map (λ o, capped_share market (pool o)) (outcomes market).
Proof.
  intros Ha Hp Hpools.
  destruct (hxro_normalize_returns clock market acct Ha Hp) as (m & Hm & Hout).
  exists m. split; [done|]. rewrite Hout, map_map.
  apply map_ext_in. intros o Hin. apply list_elem_of_In in Hin.
  rewrite normalize_outcome_probability.
  apply clamped_share_is_capped; auto.
Qed.

(** Pools [100, 300] with total 400 give [0.25, 0.75]; pools [0, 0] with
    total 0 give [0.5, 0.5]. *)
Lemma hxro_probability_capped_share_witness :
  (∃ m, normalize sample_clock (sample_market [100; 300]%Z 400) sample_account = Ok m ∧
        map o_probability (m_outcomes m) = [Q2Qc (1 # 4); Q2Qc (3 # 4)]) ∧
  (∃ m, normalize sample_clock (sample_market [0; 0]%Z 0) sample_account = Ok m ∧
        map o_probability (m_outcomes m) = [Q2Qc (1 # 2); Q2Qc (1 # 2)]).
Proof.
  split.
  - destruct (hxro_probability_capped_share sample_clock
                (sample_market [100; 300]%Z 400) sample_account)
      as (m & Hm & Hprob); [done | done | |].
    + intros o Ho. simpl in Ho. set_unfold in Ho.
      destruct Ho as [->| [->|[]]]; simpl; lia.
    + exists m. split; [done|]. rewrite Hprob. simpl.
      repeat f_equal; apply Qc_is_canon; by vm_compute.
  - destruct (hxro_probability_capped_share sample_clock
                (sample_market [0; 0]%Z 0) sample_account)
      as (m & Hm & Hprob); [done | done | |].
    + intros o Ho. simpl in Ho. set_unfold in Ho.
      destruct Ho as [->| [->|[]]]; simpl; lia.
    + exists m. split; [done|]. rewrite Hprob. simpl.
      repeat f_equal; apply Qc_is_canon; by vm_compute.
Defined.

(** C4, counterexample to the uncapped rule: with pools [500, 300] and a
    recorded total of 400 the first outcome is normalized to probability 1,
    not to 500/400. *)
Lemma hxro_pool_above_total_is_capped :
  ∃ m, normalize sample_clock (sample_market [500; 300]%Z 400) sample_account = Ok m ∧
       map o_probability (m_outcomes m) = [Q2Qc 1; Q2Qc (3 # 4)] ∧
       map (λ o, share_spec (sample_market [500; 300]%Z 400) (pool o))
           (outcomes (sample_market [500; 300]%Z 400))
         = [Q2Qc (5 # 4); Q2Qc (3 # 4)] ∧
       map o_probability (m_outcomes m) ≠
         map (λ o, share_spec (sample_market [500; 300]%Z 400) (pool o))
             (outcomes (sample_market [500; 300]%Z 400)).
Proof.
  eexists. split; [vm_compute; reflexivity|].
  cbn [m_outcomes map].
  assert (∀ A (x y : A) l l', x :: l = y :: l' → x = y) as Hhd
    by (intros; congruence).
  split; [|split].
  - repeat f_equal; apply Qc_is_canon; by vm_compute.
  - simpl. repeat f_equal; apply Qc_is_canon; by vm_compute.
  - intros Heq. apply Hhd in Heq. apply (f_equal this) in Heq.
    vm_compute in Heq. discriminate.
Qed.

End HxroClaims.

(** ** MarketNormalizer.normalizeMarket *)

Section NormalizeMarketFacts.
Import MarketNormalizer.

Lemma min1_str_or_empty s : min1 (str_or s "") = present s.
Proof.
  unfold min1, str_or, present. destruct s as [v|]; [|done].
  case_decide as Hv; [subst; by vm_compute|].
  rewrite (bool_decide_eq_true_2 (v ≠ "")) by done.
  apply bool_decide_eq_true. destruct v; [done | simpl; lia].
Qed.

Lemma min1_name s : min1 (str_or s "Unknown Market") = true.
Proof. apply min1_nonempty. by apply str_or_nonempty. Qed.

(** The outcome of validation is decided by the three identity fields. *)
Lemma normalizeMarket_is_ok now data :
  is_ok (normalizeMarket now data) =
    present (pm_id data) && present (pm_programId data) && present (pm_address data).
Proof.
  unfold normalizeMarket, schema_issues.
  cbn [m_id m_programId m_address m_name].
  rewrite !min1_str_or_empty, min1_name.
  by destruct (present (pm_id data)), (present (pm_programId data)),
    (present (pm_address data)).
Qed.

Lemma is_ok_true {E A} (r : Result E A) : is_ok r = true ↔ ∃ a, r = Ok a.
Proof. destruct r; simpl; split; try done; eauto. by intros [? ?]. Qed.

Lemma is_ok_false {E A} (r : Result E A) : is_ok r = false ↔ ∃ e, r = Throw e.
Proof. destruct r; simpl; split; try done; eauto. by intros [? ?]. Qed.

Lemma normalizeMarket_Ok_fields now data m :
  normalizeMarket now data = Ok m →
  m_id m = str_or (pm_id data) "" ∧
  m_programId m = str_or (pm_programId data) "" ∧
  m_address m = str_or (pm_address data) "" ∧
  m_name m = str_or (pm_name data) "Unknown Market".
Proof.
  unfold normalizeMarket. destruct (schema_issues _); [|done].
  by intros [= <-].
Qed.

Lemma present_str_or s : present s = true → str_or s "" ≠ "".
Proof.
  unfold present, str_or. destruct s as [v|]; [|done].
  intros Hv%bool_decide_eq_true. by case_decide.
Qed.

(** C10: [normalizeMarket] throws whenever [id], [programId] or [address]
    is missing or empty; with the three present it returns whatever the
    name is, a missing or empty name being replaced by 'Unknown Market';
    hence every market it returns has a non-empty id, programId and
    address. *)
Theorem normalizeMarket_requires_identity now data :
  (present (pm_id data) = false ∨ present (pm_programId data) = false ∨
     present (pm_address data) = false →
   ∃ e, normalizeMarket now data = Throw e) ∧
  (present (pm_id data) = true → present (pm_programId data) = true →
     present (pm_address data) = true →
   ∃ m, normalizeMarket now data = Ok m ∧
        m_name m = str_or (pm_name data) "Unknown Market" ∧
        (present (pm_name data) = false → m_name m = "Unknown Market")) ∧
  (∀ m, normalizeMarket now data = Ok m →
        m_id m ≠ "" ∧ m_programId m ≠ "" ∧ m_address m ≠ "").
Proof.
  pose proof (normalizeMarket_is_ok now data) as Hok.
  split; [|split].
  - intros Hmiss. apply is_ok_false. rewrite Hok.
    destruct Hmiss as [-> | [-> | ->]];
      rewrite ?andb_false_r; done.
  - intros Hi Hp Ha. rewrite Hi, Hp, Ha in Hok.
    apply is_ok_true in Hok as [m Hm]. exists m. split; [done|].
    apply normalizeMarket_Ok_fields in Hm as (_ & _ & _ & Hn).
    split; [done|]. rewrite Hn. unfold present, str_or.
    destruct (pm_name data) as [v|]; [|done].
    intros Hv%bool_decide_eq_false. by case_decide.
  - intros m Hm.
    assert (is_ok (normalizeMarket now data) = true) as Hyes
      by (rewrite Hm; done).
    rewrite Hok in Hyes. apply andb_true_iff in Hyes as [Hyes Ha].
    apply andb_true_iff in Hyes as [Hi Hp].
    apply normalizeMarket_Ok_fields in Hm as (-> & -> & -> & _).
    auto using present_str_or.
Qed.

(** A market without a name but with its identity fields is accepted and
    named 'Unknown Market'; the same market without an id is rejected. *)
Lemma normalizeMarket_requires_identity_witness :
  (∃ m, normalizeMarket 1700000000000 (sample_partial (Some "mkt")) = Ok m ∧
        m_name m = "Unknown Market") ∧
  (∃ e, normalizeMarket 1700000000000 (sample_partial None) = Throw e) ∧
  (∃ e, normalizeMarket 1700000000000 (sample_partial (Some "")) = Throw e).
Proof.
  split; [|split].
  - destruct (normalizeMarket_requires_identity 1700000000000
                (sample_partial (Some "mkt"))) as (_ & H & _).
    destruct H as (m & Hm & _ & Hn); [done..|].
    exists m. split; [done|]. by apply Hn.
  - by apply (normalizeMarket_requires_identity 1700000000000
                (sample_partial None)); left.
  - by apply (normalizeMarket_requires_identity 1700000000000
                (sample_partial (Some ""))); left.
Defined.

End NormalizeMarketFacts.

(** ** Account decoders *)

Section DecoderFacts.
Import Decoder.
Context {Raw : Type} (serializeData : Raw → Data).

Local Abbreviation decoder := (AccountDecoder Raw).
Local Abbreviation validate := (Decoder.validate serializeData).
Local Abbreviation decode := (Decoder.decode serializeData).
Local Abbreviation validates := (Decoder.validates serializeData).

(** Induction over decoders, the composite's children included. *)
Section Induction.
Variable P : decoder → Prop.
Hypothesis Hborsh : ∀ coder accountName, P (BorshAccountDecoder coder accountName).
Hypothesis Hmanual : ∀ accountType decoderFn,
  P (ManualAccountDecoder accountType decoderFn).
Hypothesis Hmulti : ∀ decoders, Forall P decoders → P (MultiAccountDecoder decoders).

Fixpoint decoder_ind (d : decoder) : P d :=
  match d with
  | BorshAccountDecoder coder accountName => Hborsh coder accountName
  | ManualAccountDecoder accountType decoderFn => Hmanual accountType decoderFn
  | MultiAccountDecoder decoders =>
      Hmulti decoders
        ((fix children (l : list decoder) : Forall P l :=
            match l with
            | [] => @List.Forall_nil _ P
            | d' :: l' => @List.Forall_cons _ P d' l' (decoder_ind d') (children l')
            end) decoders)
  end.
End Induction.

(** The composite's [some] and [loop], as functions of the list. *)
Lemma validate_multi_nil data :
  validate (MultiAccountDecoder []) data = Ok false.
Proof. done. Qed.

Lemma validate_multi_cons d ds data :
  validate (MultiAccountDecoder (d :: ds)) data =
    match validate d data with
    | Ok true => Ok true
    | Ok false => validate (MultiAccountDecoder ds) data
    | Throw error => Throw error
    end.
Proof. done. Qed.

Lemma decode_multi_nil data :
  decode (MultiAccountDecoder []) data = Throw no_decoder.
Proof. done. Qed.

Lemma decode_multi_cons d ds data :
  decode (MultiAccountDecoder (d :: ds)) data =
    match validate d data with
    | Ok true =>
        match decode d data with
        | Ok decoded => Ok decoded
        | Throw _ => decode (MultiAccountDecoder ds) data
        end
    | _ => decode (MultiAccountDecoder ds) data
    end.
Proof. simpl. by destruct (validate d data) as [[]|]. Qed.

Lemma decodes_Ok {A} (r : Result JsError A) : ∃ b, decodes r = Ok b.
Proof. destruct r; by eexists. Qed.

(** [validate] returns; it never throws. *)
Lemma validate_total (d : decoder) data : ∃ b, validate d data = Ok b.
Proof.
  induction d as [coder accountName | accountType decoderFn | ds IH]
    using decoder_ind.
  - simpl. case_decide; [by eexists | apply decodes_Ok].
  - apply decodes_Ok.
  - induction IH as [|d ds [b Hb] _ [b' Hb']].
    + by eexists.
    + rewrite validate_multi_cons, Hb. destruct b; by eexists.
Qed.

(** A decoder that validates a buffer decodes it. *)
Lemma validate_true_decode (d : decoder) data :
  validate d data = Ok true → ∃ decoded, decode d data = Ok decoded.
Proof.
  induction d as [coder accountName | accountType decoderFn | ds IH]
    using decoder_ind.
  - simpl. case_decide; [done|].
    destruct (borsh_decode _ _ _ _); [by eexists | done].
  - simpl. destruct (manual_decode _ _ _); [by eexists | done].
  - induction IH as [|d ds Hd _ IHds]; [done|].
    rewrite validate_multi_cons, decode_multi_cons.
    destruct (validate d data) as [[]|] eqn:Hv; [| auto | done].
    intros _. destruct Hd as [decoded ->]; [done | by eexists].
Qed.

(** The composite decodes with the first child that validates. *)
Lemma decode_multi_find ds data :
  decode (MultiAccountDecoder ds) data =
    match find (validates data) ds with
    | Some d => decode d data
    | None => Throw no_decoder
    end.
Proof.
  induction ds as [|d ds IH]; [done|].
  rewrite decode_multi_cons. cbn [find]. unfold validates at 1.
  destruct (validate d data) as [[]|] eqn:Hv; try done.
  by destruct (validate_true_decode d data Hv) as [decoded ->].
Qed.

(** The composite validates exactly when some child does. *)
Lemma validate_multi_existsb ds data :
  validate (MultiAccountDecoder ds) data = Ok (existsb (validates data) ds).
Proof.
  induction ds as [|d ds IH]; [done|].
  rewrite validate_multi_cons. cbn [existsb]. unfold validates at 1.
  destruct (validate_total d data) as [b Hb]. rewrite Hb.
  by destruct b.
Qed.

Lemma find_existsb {A} (f : A → bool) l :
  existsb f l = true ↔ is_Some (find f l).
Proof.
  induction l as [|x l IH]; simpl.
  - split; [done | by intros [? ?]].
  - destruct (f x); simpl; [by split; eauto | done].
Qed.

End DecoderFacts.

Section DecoderClaims.
Import Decoder.
Context {Raw : Type} (serializeData : Raw → Data).

Local Abbreviation decoder := (AccountDecoder Raw).
Local Abbreviation validate := (Decoder.validate serializeData).
Local Abbreviation decode := (Decoder.decode serializeData).
Local Abbreviation validates := (Decoder.validates serializeData).

Lemma find_first {A} (f : A → bool) pre x post :
  Forall (λ y, f y = false) pre → f x = true →
  find f (pre ++ x :: post) = Some x.
Proof.
  intros Hpre Hx. induction Hpre as [|y pre Hy _ IH]; simpl.
  - by rewrite Hx.
  - by rewrite Hy.
Qed.

Lemma find_none {A} (f : A → bool) l :
  Forall (λ y, f y = false) l → find f l = None.
Proof. induction 1 as [|y l Hy _ IH]; simpl; [done | by rewrite Hy]. Qed.

(** C6: the composite decoder returns the decode result of the first
    decoder of its list whose [validate] succeeds on the buffer, and throws
    when no decoder validates. *)
Theorem multi_decode_first_validating (ds : list decoder) data :
  (∀ pre d post,
     ds = pre ++ d :: post →
     Forall (λ d', validates data d' = false) pre →
     validates data d = true →
     ∃ decoded, decode d data = Ok decoded ∧
                decode (MultiAccountDecoder ds) data = Ok decoded) ∧
  (Forall (λ d, validates data d = false) ds →
   decode (MultiAccountDecoder ds) data = Throw no_decoder).
Proof.
  split.
  - intros pre d post -> Hpre Hd.
    rewrite decode_multi_find, (find_first _ _ _ _ Hpre Hd).
    unfold Decoder.validates in Hd.
    destruct (Decoder.validate _ d data) as [[]|] eqn:Hv; try done.
    destruct (validate_true_decode serializeData d data Hv) as [decoded Hdec].
    by exists decoded.
  - intros Hnone. by rewrite decode_multi_find, find_none.
Qed.

(** The composite decodes exactly when one of its children validates. *)
Lemma decode_multi_is_ok ds data :
  is_ok (decode (MultiAccountDecoder ds) data) = existsb (validates data) ds.
Proof.
  rewrite decode_multi_find.
  induction ds as [|d ds IH]; [done|]. cbn [find existsb].
  destruct (validates data d) eqn:Hd; [|done]. cbn [orb].
  unfold Decoder.validates in Hd.
  destruct (Decoder.validate _ d data) as [[]|] eqn:Hv; try done.
  by destruct (validate_true_decode serializeData d data Hv) as [decoded ->].
Qed.

(** C8, as the code has it: [validate] never throws, and what it returns
    is decided by [decode]: for a manual and for a composite decoder it is
    [true] exactly when [decode] succeeds on the buffer, hence [false] on
    every decode failure.  A Borsh decoder answers [false] for every buffer
    shorter than eight bytes without asking the coder, and otherwise [true]
    exactly when [decode] succeeds.  So [true] always means that [decode]
    succeeds. *)
Theorem validate_never_throws (d : decoder) data :
  validate d data =
    Ok match d with
       | BorshAccountDecoder _ _ =>
           bool_decide (8 ≤ length data)%nat && is_ok (decode d data)
       | _ => is_ok (decode d data)
       end ∧
  (validate d data = Ok true → ∃ decoded, decode d data = Ok decoded) ∧
  (∀ error, decode d data = Throw error → validate d data = Ok false).
Proof.
  assert (validate d data =
            Ok match d with
               | BorshAccountDecoder _ _ =>
                   bool_decide (8 ≤ length data)%nat && is_ok (decode d data)
               | _ => is_ok (decode d data)
               end) as Hv.
  { destruct d as [coder accountName | accountType decoderFn | ds].
    - simpl. case_decide as Hlen.
      + by rewrite bool_decide_eq_false_2 by lia.
      + rewrite bool_decide_eq_true_2 by lia.
        by destruct (borsh_decode _ _ _ _).
    - simpl. by destruct (manual_decode _ _ _).
    - by rewrite validate_multi_existsb, decode_multi_is_ok. }
  split; [done|]. split; [apply validate_true_decode|].
  intros error Herr. rewrite Hv, Herr. cbn [is_ok].
  destruct d; by rewrite ?andb_false_r.
Qed.

End DecoderClaims.

Section DecoderExamples.
Import Decoder.

(** With decoders [A, B] and a buffer that only B validates, the composite
    returns B's result; with no validating decoder it throws. *)
Lemma multi_decode_first_validating_witness :
  (∃ decoded,
     decode Datatypes.id decoder_B buffer_B = Ok decoded ∧
     decode Datatypes.id (MultiAccountDecoder [decoder_A; decoder_B]) buffer_B
       = Ok decoded ∧
     type decoded = "B") ∧
  decode Datatypes.id (MultiAccountDecoder [decoder_A; decoder_B]) [x09]
    = Throw no_decoder.
Proof.
  split.
  - destruct (proj1 (multi_decode_first_validating Datatypes.id
                       [decoder_A; decoder_B] buffer_B)
                [decoder_A] decoder_B [])
      as (decoded & HB & Hmulti).
    + reflexivity.
    + repeat constructor.
    + reflexivity.
    + exists decoded. repeat split; [done..|].
      vm_compute in HB. by injection HB as <-.
  - apply (multi_decode_first_validating Datatypes.id). by repeat constructor.
Defined.

(** [validate] answers [false], without throwing, on buffers shorter than
    the layout, and [true] on a full one. *)
Lemma validate_never_throws_witness :
  validate Datatypes.id decoder_B [x02; x00; x00] = Ok false ∧
  validate Datatypes.id decoder_C [x07; x07; x07] = Ok false ∧
  validate Datatypes.id (MultiAccountDecoder [decoder_A; decoder_C; decoder_B])
    buffer_B = Ok true.
Proof.
  split; [|split].
  - by destruct (validate_never_throws Datatypes.id decoder_B [x02; x00; x00])
      as (-> & _).
  - by destruct (validate_never_throws Datatypes.id decoder_C [x07; x07; x07])
      as (-> & _).
  - by destruct (validate_never_throws Datatypes.id
                   (MultiAccountDecoder [decoder_A; decoder_C; decoder_B])
                   buffer_B) as (-> & _).
Defined.

(** C8, counterexample to "true exactly when decode would succeed" for
    every decoder: a Borsh decoder whose coder knows an account type with
    a one-byte discriminator decodes the two-byte buffer [07 2a], and its
    [validate] answers [false] for that buffer, the length check coming
    first. *)
Lemma borsh_validate_rejects_decodable_short_buffer :
  (∃ decoded, decode Datatypes.id decoder_D [x07; x2a] = Ok decoded) ∧
  validate Datatypes.id decoder_D [x07; x2a] = Ok false.
Proof. split; [by eexists | done]. Qed.

End DecoderExamples.

(** ** Event dispatcher: the replay buffer *)

Section ReplayBufferFacts.
Import Dispatcher.

Lemma processEvent_buffer q d :
  replayBuffer (processEvent q d) = replayBuffer d ∧
  replayBufferConfig (processEvent q d) = replayBufferConfig d.
Proof. done. Qed.

Lemma loop_head_buffer d :
  replayBuffer (loop_head d) = replayBuffer d ∧
  replayBufferConfig (loop_head d) = replayBufferConfig d.
Proof. unfold loop_head. by destruct (processingQueue d). Qed.

Lemma processQueue_buffer d :
  replayBuffer (processQueue d) = replayBuffer d ∧
  replayBufferConfig (processQueue d) = replayBufferConfig d.
Proof.
  unfold processQueue. destruct (isProcessing d); [done|].
  by destruct (loop_head_buffer (set_isProcessing true d)) as [-> ->].
Qed.

(** Only [dispatch] touches the replay buffer, and nothing changes its
    configuration. *)
Lemma exec_buffer d a :
  replayBufferConfig (exec d a) = replayBufferConfig d ∧
  replayBuffer (exec d a) =
    match a with
    | Dispatch now e =>
        if enabled (replayBufferConfig d)
        then addToReplayBuffer now e (replayBuffer d) (replayBufferConfig d)
        else replayBuffer d
    | _ => replayBuffer d
    end.
Proof.
  destruct a; simpl; try done.
  - unfold dispatch.
    by destruct (processQueue_buffer
      {| replayBuffer :=
           if enabled (replayBufferConfig d)
           then addToReplayBuffer now e (replayBuffer d) (replayBufferConfig d)
           else replayBuffer d;
         replayBufferConfig := replayBufferConfig d;
         handlers := handlers d;
         globalHandlers := globalHandlers d;
         processingQueue := processingQueue d ++ [mkQueued (dispatched d) e];
         isProcessing := isProcessing d;
         draining := draining d;
         dispatched := S (dispatched d);
         delivered := delivered d;
         observed := observed d |}) as [-> ->].
  - case_decide; [|done]. by destruct (loop_head_buffer (leave_await i d)) as [-> ->].
  - by case_decide.
Qed.

Lemma run_config config trace :
  replayBufferConfig (run (create config) trace) = config.
Proof.
  induction trace as [|a trace IH] using rev_ind; [done|].
  unfold run in *. rewrite foldl_snoc.
  by destruct (exec_buffer (foldl exec (create config) trace) a) as [-> _].
Qed.

(** Pushing onto a buffer that holds the last [n] elements and trimming
    the excess leaves the last [n] elements of the longer history. *)
Lemma addToReplayBuffer_last_n now e config history :
  0 ≤ maxSize config →
  addToReplayBuffer now e (last_n (Z.to_nat (maxSize config)) history) config =
    last_n (Z.to_nat (maxSize config)) (history ++ [mkBuffered e now]).
Proof.
  intros Hmax. unfold addToReplayBuffer, last_n, splice0.
  set (n := Z.to_nat (maxSize config)).
  set (x := {| event := e; received := now |}).
  rewrite !length_app, length_drop. simpl length.
  assert (maxSize config = Z.of_nat n) as -> by lia.
  destruct (decide (length history ≤ n)%nat) as [Hle|Hgt].
  - replace (length history - n)%nat with 0%nat by lia.
    rewrite drop_0. case_decide.
    + replace (Z.to_nat _) with 1%nat by lia.
      by replace (length history + 1 - n)%nat with 1%nat by lia.
    + replace (length history + 1 - n)%nat with 0%nat by lia. by rewrite drop_0.
  - rewrite decide_True by lia.
    replace (Z.to_nat _) with 1%nat by lia.
    rewrite <- drop_app_le by lia. rewrite drop_drop. f_equal. lia.
Qed.

Lemma run_replayBuffer config trace :
  enabled config = true → 0 ≤ maxSize config →
  replayBuffer (run (create config) trace) =
    last_n (Z.to_nat (maxSize config)) (inserted trace).
Proof.
  intros Hon Hmax. induction trace as [|a trace IH] using rev_ind; [done|].
  pose proof (run_config config trace) as Hcfg.
  unfold run, inserted in *. rewrite foldl_snoc, omap_app.
  destruct (exec_buffer (foldl exec (create config) trace) a) as [_ ->].
  rewrite Hcfg, Hon, IH.
  destruct a; simpl; rewrite ?app_nil_r; try done.
  by apply addToReplayBuffer_last_n.
Qed.

End ReplayBufferFacts.

Section ReplayBufferClaim.
Import Dispatcher.

(** C7: along every run of a dispatcher with the replay buffer enabled,
    the buffer holds no more than [maxSize] entries: it is the last
    [maxSize] inserted entries, in arrival order; after [maxSize + k]
    insertions exactly the most recent [maxSize] remain, the [k] oldest
    having been trimmed. *)
Theorem replay_buffer_keeps_most_recent config trace :
  enabled config = true → 0 ≤ maxSize config →
  let buffer := replayBuffer (run (create config) trace) in
  Z.of_nat (length buffer) ≤ maxSize config ∧
  buffer = last_n (Z.to_nat (maxSize config)) (inserted trace) ∧
  ∀ k, length (inserted trace) = (Z.to_nat (maxSize config) + k)%nat →
       Z.of_nat (length buffer) = maxSize config ∧
       buffer = drop k (inserted trace).
Proof.
  intros Hon Hmax buffer. subst buffer.
  rewrite run_replayBuffer by done. unfold last_n.
  split; [|split].
  - rewrite length_drop. lia.
  - done.
  - intros k Hk. rewrite length_drop, Hk. split; [lia|]. f_equal. lia.
Qed.

(** A buffer of size 2 after three dispatches, the first two already
    processed: the two most recent events remain. *)
Lemma replay_buffer_keeps_most_recent_witness :
  map event
    (replayBuffer
       (run (create (sample_options 2))
            [Dispatch 10 (sample_event 1); Settled 0;
             Dispatch 20 (sample_event 2); Dispatch 30 (sample_event 3)]))
  = [sample_event 2; sample_event 3].
Proof.
  pose proof (replay_buffer_keeps_most_recent (sample_options 2)
                [Dispatch 10 (sample_event 1); Settled 0;
                 Dispatch 20 (sample_event 2); Dispatch 30 (sample_event 3)]
                eq_refl ltac:(simpl; lia)) as (_ & Hbuf & _).
  by rewrite Hbuf.
Defined.

End ReplayBufferClaim.

(** ** Event dispatcher: ordering of deliveries *)

Section DispatchOrderFacts.
Import Dispatcher.

Lemma in_enqueue_order_nil : in_enqueue_order [].
Proof. intros i j o1 o2 _ H. by rewrite lookup_nil in H. Qed.

(** Calling the handlers of one more event, whose ordinal is at least
    every ordinal seen so far, keeps the calls in order. *)
Lemma in_enqueue_order_app obs q hs n :
  in_enqueue_order obs →
  Forall (λ o, ordinal (saw o) < n)%nat obs →
  (n ≤ ordinal q)%nat →
  in_enqueue_order (obs ++ map (λ h, mkObservation h q) hs).
Proof.
  intros Hord Hseen Hq i j o1 o2 Hij H1 H2.
  assert (∀ k o, map (λ h, mkObservation h q) hs !! k = Some o → saw o = q)
    as Hnew.
  { intros k o Hk. rewrite list_lookup_fmap in Hk.
    destruct (hs !! k); simpl in Hk; [by injection Hk as <- | done]. }
  apply lookup_app_Some in H1 as [H1 | [Hi H1]];
    apply lookup_app_Some in H2 as [H2 | [Hj H2]].
  - by eapply Hord.
  - rewrite (Hnew _ _ H2).
    rewrite Forall_lookup in Hseen. specialize (Hseen _ _ H1). simpl in *. lia.
  - apply lookup_lt_Some in H2. lia.
  - by rewrite (Hnew _ _ H1), (Hnew _ _ H2).
Qed.

Lemma invariant_create config : invariant [] (create config).
Proof. split; simpl; auto using in_enqueue_order_nil. Qed.

(** The ordinals of queued events count up from the number of delivered
    ones. *)
Lemma fifo_head_ordinal (events : list MarketEvent) done_ q rest :
  done_ ++ q :: rest = imap mkQueued events → ordinal q = length done_.
Proof.
  intros Heq.
  assert ((done_ ++ q :: rest) !! length done_ = Some q) as Hq
    by (by rewrite lookup_app_r, Nat.sub_diag by lia).
  rewrite Heq, list_lookup_imap in Hq.
  destruct (events !! length done_); simpl in Hq; [|done].
  by injection Hq as <-.
Qed.

(** The loop head, entered with the flag set and no other call inside the
    loop, keeps the invariant. *)
Lemma invariant_loop_head trace d :
  isProcessing d = true → draining d = [] →
  dispatched d = length (enqueued trace) →
  delivered d ++ processingQueue d = imap mkQueued (enqueued trace) →
  Forall (λ o, ordinal (saw o) < length (delivered d))%nat (observed d) →
  in_enqueue_order (observed d) →
  invariant trace (loop_head d).
Proof.
  intros Hflag Hdrain Hcount Hfifo Hseen Hord. unfold loop_head.
  destruct (processingQueue d) as [|q rest] eqn:Hqueue.
  - split; simpl; try done. by rewrite Hqueue.
  - pose proof (fifo_head_ordinal _ _ _ _ Hfifo) as Hq.
    split; simpl.
    + rewrite Hflag, Hdrain. by eexists.
    + done.
    + by rewrite <- app_assoc.
    + rewrite length_app. simpl. apply Forall_app. split.
      * eapply Forall_impl; [done|]. simpl. intros; lia.
      * apply Forall_fmap, Forall_true. simpl. intros; lia.
    + eapply in_enqueue_order_app; [done | done | lia].
Qed.

Lemma enqueued_snoc trace a :
  enqueued (trace ++ [a]) =
    enqueued trace ++ match a with Dispatch _ e => [e] | _ => [] end.
Proof. unfold enqueued. rewrite omap_app. by destruct a. Qed.

Lemma imap_mkQueued_snoc events e :
  imap mkQueued (events ++ [e]) =
    imap mkQueued events ++ [mkQueued (length events) e].
Proof. rewrite imap_app. simpl. by rewrite Nat.add_0_r. Qed.

Lemma invariant_ext trace trace' d :
  enqueued trace = enqueued trace' → invariant trace d → invariant trace' d.
Proof. intros Heq [? ? ? ? ?]. split; by rewrite <- ?Heq. Qed.

(** Every action keeps the invariant. *)
Lemma invariant_exec trace d a :
  invariant trace d → invariant (trace ++ [a]) (exec d a).
Proof.
  intros [Hsingle Hcount Hfifo Hseen Hord].
  destruct a as [now e | i | i | t h | h | t h | h]; simpl.
  - (* dispatch *)
    assert (enqueued (trace ++ [Dispatch now e]) = enqueued trace ++ [e])
      as Henq by (by rewrite enqueued_snoc).
    unfold dispatch, processQueue. simpl.
    destruct (isProcessing d) eqn:Hflag.
    + split; simpl; rewrite ?Hflag, ?Henq, ?length_app; simpl;
        try done; try lia.
      by rewrite app_assoc, Hfifo, imap_mkQueued_snoc, Hcount.
    + apply invariant_loop_head; simpl; rewrite ?Henq, ?length_app;
        simpl; try done; try lia.
      by rewrite app_assoc, Hfifo, imap_mkQueued_snoc, Hcount.
  - (* the awaited processEvent resolved *)
    apply (invariant_ext trace); [by rewrite enqueued_snoc, app_nil_r|].
    case_decide as Hi; [|done].
    destruct (isProcessing d) eqn:Hflag;
      [destruct Hsingle as [q Hq] | rewrite Hsingle in Hi; simpl in Hi; lia].
    rewrite Hq in Hi. simpl in Hi. assert (i = 0)%nat as -> by lia.
    apply invariant_loop_head; simpl; try done. by rewrite Hq.
  - (* ... or rejected *)
    apply (invariant_ext trace); [by rewrite enqueued_snoc, app_nil_r|].
    case_decide as Hi; [|done].
    destruct (isProcessing d) eqn:Hflag;
      [destruct Hsingle as [q Hq] | rewrite Hsingle in Hi; simpl in Hi; lia].
    rewrite Hq in Hi. simpl in Hi. assert (i = 0)%nat as -> by lia.
    split; simpl; try done. by rewrite Hq.
  - apply (invariant_ext trace); [by rewrite enqueued_snoc, app_nil_r|]. by split.
  - apply (invariant_ext trace); [by rewrite enqueued_snoc, app_nil_r|]. by split.
  - apply (invariant_ext trace); [by rewrite enqueued_snoc, app_nil_r|]. by split.
  - apply (invariant_ext trace); [by rewrite enqueued_snoc, app_nil_r|]. by split.
Qed.

Lemma invariant_run config trace :
  invariant trace (run (create config) trace).
Proof.
  induction trace as [|a trace IH] using rev_ind.
  - apply invariant_create.
  - unfold run in *. rewrite foldl_snoc. by apply invariant_exec.
Qed.

End DispatchOrderFacts.

Section DispatchOrderClaim.
Import Dispatcher.

Lemma map_queued_imap events : map queued (imap mkQueued events) = events.
Proof.
  apply list_eq. intros i. rewrite list_lookup_fmap, list_lookup_imap.
  by destruct (events !! i).
Qed.

(** C2: along every run of one dispatcher, whatever the interleaving of
    [dispatch] calls with the suspensions of the drain loop:
    - at most one call of [processQueue] is inside the drain loop, and
      there is one exactly when [isProcessing] is set;
    - a [dispatch] that arrives while [isProcessing] is set only appends
      its event to the queue;
    - the events delivered so far, followed by the queue, are the
      dispatched events in dispatch order: delivery is first in, first out;
    - handler calls follow that order: no handler is called with a later
      event before an earlier one. *)
Theorem dispatch_single_consumer_fifo config trace :
  let d := run (create config) trace in
  ((length (draining d) ≤ 1)%nat ∧
   (isProcessing d = true ↔ length (draining d) = 1%nat)) ∧
  (∀ now e, isProcessing d = true →
     let d' := dispatch now e d in
     processingQueue d' = processingQueue d ++ [mkQueued (dispatched d) e] ∧
     draining d' = draining d ∧ delivered d' = delivered d ∧
     observed d' = observed d ∧ isProcessing d' = true) ∧
  (delivered d ++ processingQueue d = imap mkQueued (enqueued trace) ∧
   map queued (delivered d) `prefix_of` enqueued trace) ∧
  in_enqueue_order (observed d).
Proof.
  intros d. destruct (invariant_run config trace)
    as [Hsingle Hcount Hfifo Hseen Hord]. fold d in Hsingle, Hfifo, Hord.
  split; [|split; [|split]].
  - destruct (isProcessing d).
    + destruct Hsingle as [q ->]. simpl. split; [lia | done].
    + rewrite Hsingle. simpl. split; [lia | split; intros; done].
  - intros now e Hflag d'. subst d'. unfold dispatch, processQueue. simpl.
    by rewrite Hflag.
  - split; [done|].
    exists (map queued (processingQueue d)).
    by rewrite <- fmap_app, Hfifo, map_queued_imap.
  - done.
Qed.

(** One global handler, three events; the second and third are dispatched
    while the first is being processed.  The handler sees them in dispatch
    order, and the second dispatch only enqueued. *)
Lemma dispatch_single_consumer_fifo_witness :
  let busy := run (create (sample_options 10))
                  [OnAll 7%nat; Dispatch 10 (sample_event 1)] in
  let d := run (create (sample_options 10))
               [OnAll 7%nat; Dispatch 10 (sample_event 1);
                Dispatch 20 (sample_event 2); Dispatch 30 (sample_event 3);
                Settled 0; Settled 0; Settled 0] in
  (isProcessing busy = true ∧
   map queued (processingQueue (dispatch 20 (sample_event 2) busy))
     = [sample_event 2] ∧
   delivered (dispatch 20 (sample_event 2) busy) = delivered busy) ∧
  map (λ o, queued (saw o)) (observed d)
    = [sample_event 1; sample_event 2; sample_event 3] ∧
  in_enqueue_order (observed d) ∧
  isProcessing d = false.
Proof.
  intros busy d.
  pose proof (dispatch_single_consumer_fifo (sample_options 10)
                [OnAll 7%nat; Dispatch 10 (sample_event 1)])
    as (_ & Honly & _).
  pose proof (dispatch_single_consumer_fifo (sample_options 10)
                [OnAll 7%nat; Dispatch 10 (sample_event 1);
                 Dispatch 20 (sample_event 2); Dispatch 30 (sample_event 3);
                 Settled 0; Settled 0; Settled 0])
    as (_ & _ & _ & Horder).
  split; [|split; [|split]].
  - destruct (Honly 20 (sample_event 2) eq_refl) as (Hq & _ & Hd & _).
    split; [done|]. split; [|exact Hd].
    fold busy in Hq. rewrite Hq. by vm_compute.
  - by vm_compute.
  - exact Horder.
  - by vm_compute.
Defined.

End DispatchOrderClaim.

(** ** RPC client: retry and failover *)

Section RpcFacts.
Import Rpc.
Context {T : Type}.
Variable operation : nat → string → Result JsError T.
Variable getSlot : nat → string → Result JsError Z.

Local Abbreviation attempt := (Rpc.attempt operation getSlot).
Local Abbreviation executeWithRetry := (Rpc.executeWithRetry operation getSlot).
Local Abbreviation failover := (Rpc.failover getSlot).

(** An attempt that succeeds on its first call. *)
Lemma attempt_ok w v :
  operation (requests w) (connection (client w)) = Ok v →
  attempt w = (Ok v, after_call w).
Proof. intros H. unfold Rpc.attempt, call. by rewrite H. Qed.

(** An attempt whose call fails with an error outside the retryable class
    rethrows it: no failover, no probe, the client untouched. *)
Lemma attempt_nonretryable w error :
  operation (requests w) (connection (client w)) = Throw error →
  shouldFailover error = false →
  attempt w = (Throw error, after_call w).
Proof. intros H Hsf. unfold Rpc.attempt, call. by rewrite H, Hsf. Qed.

(** [failover] with a fallback configured and no failover in progress. *)
Lemma failover_advances w :
  failoverInProgress (client w) = false →
  (1 < length (endpoints (client w)))%nat →
  failover w =
    (match getSlot (requests w) (connection (advanced (client w))) with
     | Ok _ => Ok ()
     | Throw error => Throw error
     end,
     {| client := advanced (client w); requests := S (requests w);
        log := log w ++ [Probed (connection (advanced (client w)))] |}).
Proof.
  intros Hidle Hlen. unfold Rpc.failover. rewrite Hidle.
  rewrite decide_False by lia. simpl.
  by destruct (getSlot _ _).
Qed.

(** An attempt whose call fails with a retryable error: failover, then the
    operation again, against the new endpoint. *)
Lemma attempt_retryable w error :
  failoverInProgress (client w) = false →
  (1 < length (endpoints (client w)))%nat →
  operation (requests w) (connection (client w)) = Throw error →
  shouldFailover error = true →
  let probed :=
    {| client := advanced (client w); requests := S (S (requests w));
       log := log w ++ [Called (connection (client w));
                        Probed (connection (advanced (client w)))] |} in
  attempt w =
    match getSlot (S (requests w)) (connection (advanced (client w))) with
    | Ok _ =>
        (operation (S (S (requests w))) (connection (advanced (client w))),
         after_call probed)
    | Throw error' => (Throw error', probed)
    end.
Proof.
  intros Hidle Hlen H Hsf probed. subst probed.
  unfold Rpc.attempt. unfold call at 1. rewrite H, Hsf.
  rewrite failover_advances by done. simpl.
  destruct (getSlot _ _); unfold call, after_call; simpl;
    by rewrite <- !app_assoc.
Qed.

(** From the primary endpoint the next one is the first fallback. *)
Lemma advanced_from_primary c primary backup others :
  endpoints c = primary :: backup :: others →
  currentEndpointIndex c = 0%nat →
  advanced c =
    {| endpoints := primary :: backup :: others; currentEndpointIndex := 1;
       connection := backup; failoverInProgress := false |}.
Proof.
  intros Hends Hidx. unfold advanced. rewrite Hends, Hidx.
  replace ((0 + 1) `mod` length (primary :: backup :: others))%nat with 1%nat.
  - done.
  - simpl length. symmetry. apply Nat.mod_small. lia.
Qed.

End RpcFacts.

Section RpcClaims.
Import Rpc.
Context {T : Type}.
Variable operation : nat → string → Result JsError T.
Variable getSlot : nat → string → Result JsError Z.

Local Abbreviation attempt := (Rpc.attempt operation getSlot).
Local Abbreviation executeWithRetry := (Rpc.executeWithRetry operation getSlot).

(** C3, as the code has it: an error outside the retryable class triggers
    no failover (the attempt rethrows it with the endpoint unchanged and no
    probe), and [withRetry] counts it as a failed attempt like any other:
    it sleeps the backoff delay and runs the operation again; three such
    failures in a row cost the delays 1000 ms and 2000 ms before the third
    error is propagated. *)
Theorem nonretryable_error_is_retried w e1 :
  operation (requests w) (connection (client w)) = Throw e1 →
  shouldFailover e1 = false →
  attempt w = (Throw e1, after_call w) ∧
  (∀ v, operation (S (requests w)) (connection (client w)) = Ok v →
     executeWithRetry w = (Ok v, after_call (sleep 1000 (after_call w)))) ∧
  (∀ e2 e3,
     operation (S (requests w)) (connection (client w)) = Throw e2 →
     shouldFailover e2 = false →
     operation (S (S (requests w))) (connection (client w)) = Throw e3 →
     shouldFailover e3 = false →
     executeWithRetry w =
       (Throw e3,
        after_call (sleep 2000 (after_call (sleep 1000 (after_call w)))))).
Proof.
  intros H1 Hsf1.
  pose proof (attempt_nonretryable operation getSlot w e1 H1 Hsf1) as Ha1.
  split; [done|]. split.
  - intros v H2.
    unfold Rpc.executeWithRetry, withRetry. simpl. rewrite Ha1. simpl.
    by rewrite (attempt_ok operation getSlot _ v).
  - intros e2 e3 H2 Hsf2 H3 Hsf3.
    unfold Rpc.executeWithRetry, withRetry. simpl. rewrite Ha1. simpl.
    rewrite (attempt_nonretryable operation getSlot _ e2) by done. simpl.
    by rewrite (attempt_nonretryable operation getSlot _ e3).
Qed.

(** C5: with a fallback endpoint configured and no failover under way, a
    call that fails with a retryable error makes the client advance the
    endpoint index by one, wrapping around, probe the new endpoint and,
    the probe answering, run the operation again against it; and when the
    primary endpoint fails with retryable errors (three requests in a row,
    or more) while the second endpoint answers, [executeWithRetry] returns
    that answer and [getCurrentEndpoint] is the second endpoint. *)
Theorem retryable_error_fails_over w :
  failoverInProgress (client w) = false →
  (1 < length (endpoints (client w)))%nat →
  (∀ error slot,
     operation (requests w) (connection (client w)) = Throw error →
     shouldFailover error = true →
     getSlot (S (requests w)) (connection (advanced (client w))) = Ok slot →
     ∃ w',
       attempt w =
         (operation (S (S (requests w))) (connection (advanced (client w))), w') ∧
       client w' = advanced (client w) ∧
       currentEndpointIndex (client w') =
         ((currentEndpointIndex (client w) + 1)
            `mod` length (endpoints (client w)))%nat ∧
       log w' = log w ++ [Called (connection (client w));
                          Probed (connection (advanced (client w)));
                          Called (connection (advanced (client w)))]) ∧
  (∀ primary backup others v,
     endpoints (client w) = primary :: backup :: others →
     currentEndpointIndex (client w) = 0%nat →
     connection (client w) = primary →
     (∀ n, (n < 3)%nat → ∃ error,
        operation (requests w + n)%nat primary = Throw error ∧
        shouldFailover error = true) →
     (∀ n, ∃ slot, getSlot n backup = Ok slot) →
     (∀ n, operation n backup = Ok v) →
     ∃ w', executeWithRetry w = (Ok v, w') ∧
           getCurrentEndpoint (client w') = Some backup ∧
           log w' = log w ++ [Called primary; Probed backup; Called backup]).
Proof.
  intros Hidle Hlen. split.
  - intros error slot Hfail Hsf Hprobe.
    pose proof (attempt_retryable operation getSlot w error Hidle Hlen Hfail Hsf)
      as Ha. cbv zeta in Ha. rewrite Hprobe in Ha.
    eexists. split; [exact Ha|]. unfold after_call. simpl.
    repeat split. by rewrite <- app_assoc.
  - intros primary backup others v Hends Hidx Hconn Hdown Hprobe Hup.
    destruct (Hdown 0%nat) as (error & Hfail & Hsf); [lia|].
    rewrite Nat.add_0_r, <- Hconn in Hfail.
    pose proof (attempt_retryable operation getSlot w error Hidle Hlen Hfail Hsf)
      as Ha. cbv zeta in Ha.
    rewrite (advanced_from_primary _ _ _ _ Hends Hidx) in Ha.
    cbn [connection] in Ha.
    destruct (Hprobe (S (requests w))) as [slot Hslot].
    rewrite Hslot, Hup in Ha.
    eexists. unfold Rpc.executeWithRetry, withRetry. simpl.
    rewrite Ha. split; [done|]. split; [done|].
    unfold after_call. simpl. by rewrite Hconn, <- app_assoc.
Qed.

End RpcClaims.

Section RpcExamples.
Import Rpc.

(** A malformed request is sent three times, with the two backoff delays
    in between, before its error reaches the caller. *)
Lemma nonretryable_error_is_retried_witness :
  executeWithRetry always_malformed healthy_probe sample_world =
    (Throw malformed,
     {| client := create "https://primary" ["https://backup"];
        requests := 3;
        log := [Called "https://primary"; Slept 1000;
                Called "https://primary"; Slept 2000;
                Called "https://primary"] |}).
Proof.
  by rewrite (proj2 (proj2 (nonretryable_error_is_retried always_malformed
                healthy_probe sample_world malformed eq_refl eq_refl))
                malformed malformed eq_refl eq_refl eq_refl eq_refl).
Defined.

(** C3, counterexample to immediate propagation: the malformed request of
    the sample costs three calls and two backoff delays, where immediate
    propagation would leave one call in the log. *)
Lemma nonretryable_error_not_propagated_immediately :
  shouldFailover malformed = false ∧
  ∃ w', executeWithRetry always_malformed healthy_probe sample_world
          = (Throw malformed, w') ∧
        log w' = [Called "https://primary"; Slept 1000;
                  Called "https://primary"; Slept 2000;
                  Called "https://primary"] ∧
        ¬ propagated_immediately sample_world w'.
Proof.
  split; [reflexivity|]. eexists. split; [reflexivity|].
  split; [reflexivity|]. intros Himm.
  apply (f_equal requests) in Himm. discriminate.
Qed.

(** The primary endpoint times out, the backup answers: the call succeeds
    and the client has moved to the backup. *)
Lemma retryable_error_fails_over_witness :
  ∃ w', executeWithRetry primary_down healthy_probe sample_world = (Ok 42, w') ∧
        getCurrentEndpoint (client w') = Some "https://backup" ∧
        log w' = [Called "https://primary"; Probed "https://backup";
                  Called "https://backup"].
Proof.
  destruct (proj2 (retryable_error_fails_over primary_down healthy_probe
                     sample_world eq_refl ltac:(simpl; lia))
              "https://primary" "https://backup" [] 42
              eq_refl eq_refl eq_refl)
    as (w' & Hrun & Hend & Hlog).
  - intros n _. by eexists.
  - intros n. by eexists.
  - done.
  - by exists w'.
Defined.

End RpcExamples.

(** ** More of the retry helper and of the RPC client *)

Section RetrySchedule.
Import Rpc RpcMore.

(** X1: The backoff delays of [withRetry] in closed form: the sleep after the
    [k+1]-th failed attempt lasts min(initial × multiplier^k, maxDelay). *)
Theorem delay_after_closed_form opts k :
  0 ≤ initialDelayMs opts ≤ maxDelayMs opts → 1 ≤ backoffMultiplier opts →
  delay_after opts k =
    Z.min (initialDelayMs opts * backoffMultiplier opts ^ Z.of_nat k)
          (maxDelayMs opts) ∧
  0 ≤ delay_after opts k ≤ maxDelayMs opts.
Proof.
  intros Hinit Hmult.
  assert (∀ k, 1 ≤ backoffMultiplier opts ^ Z.of_nat k) as Hpow.
  { intros j. induction j as [|j IH]; [simpl; lia|].
    rewrite Nat2Z.inj_succ, Z.pow_succ_r by lia. nia. }
  induction k as [|k [IH Hb]].
  - simpl. rewrite Z.mul_1_r. split; lia.
  - cbn [delay_after]. rewrite Nat2Z.inj_succ, Z.pow_succ_r by lia.
    specialize (Hpow k). split; [|split; [apply Z.min_glb; nia | lia]].
    rewrite IH.
    destruct (Z.le_gt_cases
                (initialDelayMs opts * backoffMultiplier opts ^ Z.of_nat k)
                (maxDelayMs opts)) as [Hle|Hgt].
    + rewrite (Z.min_l _ _ Hle). f_equal. ring.
    + rewrite (Z.min_r (initialDelayMs opts * backoffMultiplier opts ^ Z.of_nat k))
        by lia.
      rewrite !Z.min_r; [done | nia | nia].
Qed.

Lemma delay_after_closed_form_witness :
  map (delay_after executeWithRetry_options) [0; 1; 2; 3; 4]%nat
    = [1000; 2000; 4000; 8000; 10000].
Proof.
  assert (∀ k, delay_after executeWithRetry_options k =
               Z.min (1000 * 2 ^ Z.of_nat k) 10000) as H.
  { intros k. apply (delay_after_closed_form executeWithRetry_options k);
      simpl; lia. }
  cbn [map]. by rewrite !H.
Defined.

End RetrySchedule.

Section WithRetryPlain.
Import Rpc RpcMore.
Context {T : Type}.
Variable operation : nat → string → Result JsError T.

Local Abbreviation fn := (call operation).

(** The loop reads the multiplier and the cap, not the initial delay. *)
Lemma retry_loop_ext (opts opts' : RetryOptions) f r d w :
  backoffMultiplier opts = backoffMultiplier opts' →
  maxDelayMs opts = maxDelayMs opts' →
  retry_loop (T:=T) f opts r d w = retry_loop f opts' r d w.
Proof.
  intros Hm Hc. revert d w. induction r as [|r IH]; intros d w; [done|].
  simpl. destruct (f w) as [[v|e] w']; [done|].
  case_decide; [done|]. by rewrite IH, Hm, Hc.
Qed.

Lemma delay_after_restart opts k :
  delay_after (restart opts) k = delay_after opts (S k).
Proof. induction k as [|k IH]; [done|]. cbn [delay_after] in *. by rewrite IH. Qed.

Lemma retry_loop_step (opts : RetryOptions) (f : World → Result JsError T * World)
    r d w :
  retry_loop f opts (S r) d w =
    match f w with
    | (Ok v, w') => (Ok v, w')
    | (Throw lastError, w') =>
        if decide (r = 0)%nat then (Throw lastError, w')
        else retry_loop f opts r
               (Z.min (d * backoffMultiplier opts) (maxDelayMs opts))
               (sleep d w')
    end.
Proof. done. Qed.

(** [k] failed attempts, then an attempt whose outcome ends the loop: a
    success, or the failure of the last attempt allowed. *)
Lemma retry_loop_plain k : ∀ r opts w (e : nat → JsError) res,
  (k < r)%nat →
  (∀ i, (i < k)%nat →
     operation (requests w + i)%nat (connection (client w)) = Throw (e i)) →
  operation (requests w + k)%nat (connection (client w)) = res →
  (is_ok res = true ∨ r = S k) →
  ∃ l, retry_loop fn opts r (initialDelayMs opts) w =
         (res, {| client := client w; requests := (requests w + S k)%nat;
                  log := log w ++ l |}) ∧
       called l = replicate (S k) (connection (client w)) ∧
       slept l = map (delay_after opts) (seq 0 k) ∧
       probed l = [].
Proof.
  induction k as [|k IH]; intros r opts w e res Hr Hfail Hres Hend.
  - destruct r as [|r]; [lia|]. exists [Called (connection (client w))].
    split; [|done]. simpl. unfold call. rewrite Nat.add_0_r in Hres.
    rewrite Hres, Nat.add_1_r. destruct res as [v|err]; [done|].
    destruct Hend as [|Hend]; [done|]. by rewrite decide_True by lia.
  - destruct r as [|r]; [lia|].
    pose proof (Hfail 0%nat ltac:(lia)) as H0. rewrite Nat.add_0_r in H0.
    rewrite retry_loop_step. unfold call at 1. rewrite H0.
    rewrite decide_False by lia.
    rewrite (retry_loop_ext opts (restart opts)) by done.
    destruct (IH r (restart opts)
                (sleep (initialDelayMs opts)
                   {| client := client w; requests := S (requests w);
                      log := log w ++ [Called (connection (client w))] |})
                (λ i, e (S i)) res) as (l & Hrun & Hcalled & Hslept & Hprobed).
    + lia.
    + intros i Hi. simpl. rewrite <- (Hfail (S i)) by lia. f_equal. lia.
    + simpl. rewrite <- Hres. f_equal. lia.
    + destruct Hend as [|Hend]; [by left | right; lia].
    + exists (Called (connection (client w)) :: Slept (initialDelayMs opts) :: l).
      cbn [initialDelayMs restart] in Hrun. rewrite Hrun.
      cbn [client requests log sleep].
      split; [|split; [|split]].
      * f_equal. f_equal; [lia | by rewrite <- !app_assoc].
      * change (called (Called (connection (client w))
                          :: Slept (initialDelayMs opts) :: l))
          with (connection (client w) :: called l).
        simpl in Hcalled. by rewrite Hcalled.
      * change (slept (Called (connection (client w))
                         :: Slept (initialDelayMs opts) :: l))
          with (initialDelayMs opts :: slept l).
        rewrite Hslept. cbn [seq map delay_after]. f_equal.
        rewrite <- seq_shift, map_map.
        apply map_ext. intros j. apply delay_after_restart.
      * exact Hprobed.
Qed.

(** X2: When every attempt fails, [withRetry] has run the function
    [maxAttempts] times, slept between the attempts (not after the last)
    for the delays of the backoff schedule, and throws the last error. *)
Theorem withRetry_exhausts_attempts opts w (e : nat → JsError) :
  (0 < maxAttempts opts)%nat →
  (∀ i, (i < maxAttempts opts)%nat →
     operation (requests w + i)%nat (connection (client w)) = Throw (e i)) →
  ∃ l, withRetry fn opts w =
         (Throw (e (maxAttempts opts - 1)%nat),
          {| client := client w;
             requests := (requests w + maxAttempts opts)%nat;
             log := log w ++ l |}) ∧
       called l = replicate (maxAttempts opts) (connection (client w)) ∧
       slept l = map (delay_after opts) (seq 0 (maxAttempts opts - 1)).
Proof.
  intros Hpos Hfail. unfold withRetry.
  destruct (retry_loop_plain (maxAttempts opts - 1) (maxAttempts opts) opts w e
              (Throw (e (maxAttempts opts - 1)%nat)))
    as (l & Hrun & Hcalled & Hslept & _).
  - lia.
  - intros i Hi. apply Hfail. lia.
  - apply Hfail. lia.
  - right. lia.
  - exists l. replace (S (maxAttempts opts - 1)) with (maxAttempts opts) in * by lia.
    by rewrite Hrun.
Qed.

(** X3: [withRetry] stops at the first success: after [k] failures and a
    success it returns the value, having slept [k] times and run the
    function [k + 1] times. *)
Theorem withRetry_returns_first_success opts w (e : nat → JsError) k v :
  (k < maxAttempts opts)%nat →
  (∀ i, (i < k)%nat →
     operation (requests w + i)%nat (connection (client w)) = Throw (e i)) →
  operation (requests w + k)%nat (connection (client w)) = Ok v →
  ∃ l, withRetry fn opts w =
         (Ok v, {| client := client w; requests := (requests w + S k)%nat;
                   log := log w ++ l |}) ∧
       called l = replicate (S k) (connection (client w)) ∧
       slept l = map (delay_after opts) (seq 0 k).
Proof.
  intros Hk Hfail Hok. unfold withRetry.
  destruct (retry_loop_plain k (maxAttempts opts) opts w e (Ok v))
    as (l & Hrun & Hcalled & Hslept & _); try done; [by left|].
  by exists l.
Qed.

End WithRetryPlain.

Section WithRetryPlainExamples.
Import Rpc RpcMore.

(** With the default options a request that always fails is sent five
    times, with sleeps of 1, 2, 4 and 8 seconds. *)
Lemma withRetry_exhausts_attempts_witness :
  ∃ l, withRetry (call always_malformed) DEFAULT_OPTIONS sample_world =
         (Throw malformed,
          {| client := client sample_world; requests := 5; log := l |}) ∧
       called l = replicate 5 "https://primary" ∧
       slept l = [1000; 2000; 4000; 8000].
Proof.
  destruct (withRetry_exhausts_attempts always_malformed DEFAULT_OPTIONS
              sample_world (λ _, malformed))
    as (l & Hrun & Hcalled & Hslept).
  - simpl. lia.
  - done.
  - exists l. by rewrite Hrun.
Defined.

(** Two failures, then an answer: three calls and two sleeps. *)
Lemma withRetry_returns_first_success_witness :
  ∃ l, withRetry (call flaky) DEFAULT_OPTIONS sample_world =
         (Ok 7, {| client := client sample_world; requests := 3; log := l |}) ∧
       called l = replicate 3 "https://primary" ∧
       slept l = [1000; 2000].
Proof.
  destruct (withRetry_returns_first_success flaky DEFAULT_OPTIONS sample_world
              (λ _, mkError "Error" "socket hang up") 2 7)
    as (l & Hrun & Hcalled & Hslept).
  - simpl. lia.
  - intros i Hi. unfold flaky. simpl. by rewrite decide_True by lia.
  - done.
  - exists l. by rewrite Hrun.
Defined.

End WithRetryPlainExamples.

Section ClientInvariant.
Import Rpc RpcMore.

Lemma advanced_consistent c :
  (0 < length (endpoints c))%nat → consistent (advanced c).
Proof.
  intros Hlen. unfold consistent, advanced. simpl. split; [|done].
  destruct (lookup_lt_is_Some_2 (endpoints c)
              ((currentEndpointIndex c + 1) `mod` length (endpoints c))%nat)
    as [x Hx].
  - apply Nat.mod_upper_bound. lia.
  - by rewrite Hx.
Qed.

(** What [failover] does to the world, in every case. *)
Lemma failover_cases getSlot w :
  (failover getSlot w = (Ok (), w) ∧
   (failoverInProgress (client w) = true ∨ (length (endpoints (client w)) ≤ 1)%nat)) ∨
  (failoverInProgress (client w) = false ∧ (1 < length (endpoints (client w)))%nat ∧
   failover getSlot w =
     (match getSlot (requests w) (connection (advanced (client w))) with
      | Ok _ => Ok ()
      | Throw error => Throw error
      end,
      {| client := advanced (client w); requests := S (requests w);
         log := log w ++ [Probed (connection (advanced (client w)))] |})).
Proof.
  destruct (failoverInProgress (client w)) eqn:Hflag.
  - left. unfold failover. rewrite Hflag. auto.
  - destruct (decide (length (endpoints (client w)) ≤ 1)%nat) as [Hle|Hgt].
    + left. unfold failover. rewrite Hflag, decide_True by done. auto.
    + right. split; [done|]. split; [lia|]. apply failover_advances; [done | lia].
Qed.

Lemma failover_consistent getSlot w :
  consistent (client w) →
  consistent (client (failover getSlot w).2) ∧
  endpoints (client (failover getSlot w).2) = endpoints (client w).
Proof.
  intros Hc. destruct (failover_cases getSlot w) as [[-> _] | (_ & Hlen & ->)].
  - done.
  - simpl. split; [|done]. apply advanced_consistent. lia.
Qed.

Section WithNetwork.
Context {T : Type}.
Variable operation : nat → string → Result JsError T.
Variable getSlot : nat → string → Result JsError Z.

Lemma attempt_consistent w :
  consistent (client w) →
  consistent (client (attempt operation getSlot w).2) ∧
  endpoints (client (attempt operation getSlot w).2) = endpoints (client w).
Proof.
  intros Hc. unfold attempt.
  destruct (call operation w) as [r w0] eqn:Hcall.
  unfold call in Hcall. injection Hcall as <- <-.
  destruct (operation _ _) as [v|error]; [by simpl|].
  destruct (shouldFailover error); [|by simpl].
  pose proof (failover_consistent getSlot (after_call w) Hc) as Hf.
  fold (after_call w).
  destruct (failover getSlot (after_call w)) as [[[]|error'] w'];
    simpl in *; done.
Qed.

Lemma retry_loop_consistent opts r d w :
  consistent (client w) →
  consistent (client (retry_loop (attempt operation getSlot) opts r d w).2) ∧
  endpoints (client (retry_loop (attempt operation getSlot) opts r d w).2)
    = endpoints (client w).
Proof.
  revert d w. induction r as [|r IH]; intros d w Hc; [done|].
  cbn [retry_loop]. pose proof (attempt_consistent w Hc) as [Ha He].
  destruct (attempt operation getSlot w) as [[v|error] w']; [done|].
  case_decide; [done|]. simpl in *.
  destruct (IH (Z.min (d * backoffMultiplier opts) (maxDelayMs opts))
              (sleep d w') Ha) as [IH1 IH2].
  split; [done|]. by rewrite IH2.
Qed.

End WithNetwork.

(** X4: Whatever the network does, and over any number of calls, the client
    stays coherent: the current index names an endpoint of the list, that
    endpoint is the one the connection goes to, and no failover is left in
    progress; so [getCurrentEndpoint] is never undefined. *)
Theorem client_stays_consistent {T} httpEndpoint fallbackEndpoints
    (nets : list ((nat → string → Result JsError T) *
                  (nat → string → Result JsError Z))) :
  let c := client (run_calls nets (fresh httpEndpoint fallbackEndpoints)) in
  endpoints c = httpEndpoint :: fallbackEndpoints ∧
  (currentEndpointIndex c < length (endpoints c))%nat ∧
  getCurrentEndpoint c = Some (connection c) ∧
  failoverInProgress c = false.
Proof.
  intros c. subst c.
  assert (∀ w, consistent (client w) →
               consistent (client (run_calls nets w)) ∧
               endpoints (client (run_calls nets w)) = endpoints (client w))
    as Hrun.
  { induction nets as [|[operation getSlot] nets IH]; intros w Hc; [done|].
    cbn [run_calls].
    destruct (retry_loop_consistent operation getSlot
                executeWithRetry_options 3 1000 w Hc) as [H1 H2].
    destruct (IH _ H1) as [H3 H4]. split; [exact H3|].
    etrans; [exact H4 | exact H2]. }
  destruct (Hrun (fresh httpEndpoint fallbackEndpoints)) as [[Hget Hflag] Hends].
  { by split. }
  split; [done|]. split; [|done].
  by apply lookup_lt_Some in Hget.
Qed.

End ClientInvariant.

Section FailoverFacts.
Import Rpc RpcMore.

(** The client after [k] failovers: the index has moved [k] places round
    the list. *)
Lemma failovers_client getSlot k : ∀ w,
  failoverInProgress (client w) = false →
  (1 < length (endpoints (client w)))%nat →
  (0 < k)%nat →
  client (failovers getSlot k w) =
    {| endpoints := endpoints (client w);
       currentEndpointIndex :=
         ((currentEndpointIndex (client w) + k)
            `mod` length (endpoints (client w)))%nat;
       connection :=
         default "" (endpoints (client w)
                       !! ((currentEndpointIndex (client w) + k)
                             `mod` length (endpoints (client w)))%nat);
       failoverInProgress := false |}.
Proof.
  induction k as [|k IH]; intros w Hflag Hlen Hk; [lia|].
  cbn [failovers]. rewrite failover_advances by done. cbn [snd].
  destruct k as [|k].
  - done.
  - rewrite IH; cbn [client advanced endpoints currentEndpointIndex
                      failoverInProgress]; [|done|done|lia].
    rewrite Nat.Div0.add_mod_idemp_l.
    by replace (currentEndpointIndex (client w) + 1 + S k)%nat
      with (currentEndpointIndex (client w) + S (S k))%nat by lia.
Qed.

(** X5: Failover goes round the list of endpoints: as many failovers as there
    are endpoints bring the client back to the endpoint it started from,
    whatever the probes answer. *)
Theorem failover_wraps_around getSlot w :
  consistent (client w) →
  client (failovers getSlot (length (endpoints (client w))) w) = client w.
Proof.
  intros [Hget Hflag].
  pose proof (lookup_lt_Some _ _ _ Hget) as Hidx.
  destruct (decide (1 < length (endpoints (client w)))%nat) as [Hlen|Hone].
  - rewrite failovers_client by (done || lia).
    rewrite <- (Nat.mul_1_l (length (endpoints (client w)))) at 1 3.
    rewrite Nat.Div0.mod_add, Nat.mod_small, Hget by done. simpl.
    destruct (client w). simpl in *. by subst.
  - assert (length (endpoints (client w)) = 1%nat) as -> by lia.
    simpl. unfold failover. rewrite Hflag. by rewrite decide_True by lia.
Qed.

Lemma failover_wraps_around_witness :
  client (failovers dead_probe 3
            {| client := sample_client3; requests := 0; log := [] |})
    = sample_client3 ∧
  currentEndpointIndex
    (client (failovers dead_probe 1
               {| client := sample_client3; requests := 0; log := [] |})) = 0%nat.
Proof.
  split; [|done].
  by apply (failover_wraps_around dead_probe
              {| client := sample_client3; requests := 0; log := [] |}).
Defined.

Section WithNetwork.
Context {T : Type}.
Variable operation : nat → string → Result JsError T.
Variable getSlot : nat → string → Result JsError Z.

(** X6: A failed probe does not undo the switch: the attempt throws the
    probe's error without running the operation again, and the client is
    left on the next endpoint, with the failover flag cleared. *)
Theorem failed_probe_still_switches w error error' :
  failoverInProgress (client w) = false →
  (1 < length (endpoints (client w)))%nat →
  operation (requests w) (connection (client w)) = Throw error →
  shouldFailover error = true →
  getSlot (S (requests w)) (connection (advanced (client w))) = Throw error' →
  attempt operation getSlot w =
    (Throw error',
     {| client := advanced (client w); requests := S (S (requests w));
        log := log w ++ [Called (connection (client w));
                         Probed (connection (advanced (client w)))] |}) ∧
  failoverInProgress (advanced (client w)) = false ∧
  currentEndpointIndex (advanced (client w)) =
    ((currentEndpointIndex (client w) + 1) `mod` length (endpoints (client w)))%nat.
Proof.
  intros Hflag Hlen Hfail Hsf Hprobe.
  pose proof (attempt_retryable operation getSlot w error Hflag Hlen Hfail Hsf)
    as Ha. cbv zeta in Ha. by rewrite Hprobe in Ha.
Qed.

(** X7: With no fallback endpoint, or while another failover is in progress,
    a retryable failure is followed at once, in the same attempt and
    without probe or delay, by a second call on the same connection. *)
Theorem retryable_error_without_failover w error :
  (failoverInProgress (client w) = true ∨
   (length (endpoints (client w)) ≤ 1)%nat) →
  operation (requests w) (connection (client w)) = Throw error →
  shouldFailover error = true →
  attempt operation getSlot w =
    (operation (S (requests w)) (connection (client w)),
     {| client := client w; requests := S (S (requests w));
        log := log w ++ [Called (connection (client w));
                         Called (connection (client w))] |}).
Proof.
  intros Hnoop Hfail Hsf. unfold attempt.
  destruct (call operation w) as [r w0] eqn:Hcall.
  unfold call in Hcall. injection Hcall as <- <-.
  rewrite Hfail, Hsf.
  assert (failover getSlot (after_call w) = (Ok (), after_call w)) as Hf.
  { unfold failover. simpl.
    destruct Hnoop as [-> | Hone]; [done|].
    destruct (failoverInProgress (client w)); [done|].
    by rewrite decide_True. }
  fold (after_call w). rewrite Hf. unfold call, after_call. simpl.
  by rewrite <- app_assoc.
Qed.

End WithNetwork.

(** The primary times out and the probe of the backup fails: the client is
    on the backup all the same. *)
Lemma failed_probe_still_switches_witness :
  ∃ w', attempt primary_down dead_probe sample_world
          = (Throw (mkError "Error" "fetch failed"), w') ∧
        getCurrentEndpoint (client w') = Some "https://backup" ∧
        log w' = [Called "https://primary"; Probed "https://backup"].
Proof.
  destruct (failed_probe_still_switches primary_down dead_probe sample_world
              (mkError "Error" "Request Timeout after 30s")
              (mkError "Error" "fetch failed")
              eq_refl ltac:(simpl; lia) eq_refl eq_refl eq_refl)
    as (Hrun & _ & _).
  eexists. split; [exact Hrun|]. by split.
Defined.

(** A client without fallback endpoints sends the request twice in a row. *)
Lemma retryable_error_without_failover_witness :
  (attempt primary_down healthy_probe (fresh "https://primary" [])).2
    = {| client := create "https://primary" []; requests := 2;
         log := [Called "https://primary"; Called "https://primary"] |}.
Proof.
  by rewrite (retryable_error_without_failover primary_down healthy_probe
                (fresh "https://primary" [])
                (mkError "Error" "Request Timeout after 30s")
                (or_intror (le_n 1)) eq_refl eq_refl).
Defined.

End FailoverFacts.

Section EffortBound.
Import Rpc RpcMore.
Context {T : Type}.
Variable operation : nat → string → Result JsError T.
Variable getSlot : nat → string → Result JsError Z.

(** What one attempt adds to the log: one or two calls, at most one probe,
    no sleep; every entry is a network request. *)
Lemma attempt_effects w :
  ∃ l, log (attempt operation getSlot w).2 = log w ++ l ∧
       requests (attempt operation getSlot w).2 = (requests w + length l)%nat ∧
       slept l = [] ∧
       (1 ≤ length (called l) ≤ 2)%nat ∧ (length (probed l) ≤ 1)%nat.
Proof.
  unfold attempt.
  destruct (call operation w) as [r w0] eqn:Hcall.
  unfold call in Hcall. injection Hcall as <- <-.
  destruct (operation _ _) as [v|error].
  { exists [Called (connection (client w))]. simpl. repeat split; lia. }
  destruct (shouldFailover error).
  2:{ exists [Called (connection (client w))]. simpl. repeat split; lia. }
  fold (after_call w).
  destruct (failover_cases getSlot (after_call w)) as [[-> _] | (_ & _ & ->)].
  - exists [Called (connection (client w)); Called (connection (client w))].
    simpl. rewrite <- app_assoc. repeat split; simpl; lia.
  - destruct (getSlot _ _).
    + exists [Called (connection (client w));
              Probed (connection (advanced (client w)));
              Called (connection (advanced (client w)))].
      simpl. rewrite <- !app_assoc. repeat split; simpl; lia.
    + exists [Called (connection (client w));
              Probed (connection (advanced (client w)))].
      simpl. rewrite <- !app_assoc. repeat split; simpl; lia.
Qed.

Lemma slept_app l1 l2 : slept (l1 ++ l2) = slept l1 ++ slept l2.
Proof. apply omap_app. Qed.

Lemma called_app l1 l2 : called (l1 ++ l2) = called l1 ++ called l2.
Proof. apply omap_app. Qed.

Lemma probed_app l1 l2 : probed (l1 ++ l2) = probed l1 ++ probed l2.
Proof. apply omap_app. Qed.

(** X8: Whatever the network answers, one [executeWithRetry] sends the
    operation at least once and at most six times, probes at most three
    times, and sleeps at most 1000 ms and then 2000 ms: it returns or throws
    after at most nine requests and three seconds of backoff. *)
Theorem executeWithRetry_effort_bounded w :
  ∃ l, log (executeWithRetry operation getSlot w).2 = log w ++ l ∧
       requests (executeWithRetry operation getSlot w).2
         = (requests w + length (called l) + length (probed l))%nat ∧
       (1 ≤ length (called l) ≤ 6)%nat ∧
       (length (probed l) ≤ 3)%nat ∧
       slept l `prefix_of` [1000; 2000].
Proof.
  assert (∀ w, ∃ l,
            log (attempt operation getSlot w).2 = log w ++ l ∧
            requests (attempt operation getSlot w).2
              = (requests w + length (called l) + length (probed l))%nat ∧
            slept l = [] ∧
            (1 ≤ length (called l) ≤ 2)%nat ∧ (length (probed l) ≤ 1)%nat)
    as Hstep.
  { intros w0. destruct (attempt_effects w0) as (l & Hl & Hr & Hs & Hc & Hp).
    exists l. repeat split; try done; try lia. rewrite Hr.
    enough (length l = (length (called l) + length (probed l))%nat) by lia.
    clear -Hs. induction l as [|[endpoint|endpoint|ms] l IH]; [done|..].
    - simpl. rewrite IH by done. unfold called, probed. simpl. lia.
    - simpl. rewrite IH by done. unfold called, probed. simpl. lia.
    - done. }
  unfold executeWithRetry, withRetry. cbn [maxAttempts initialDelayMs
    executeWithRetry_options retry_loop maxDelayMs backoffMultiplier].
  destruct (Hstep w) as (l1 & Hl1 & Hr1 & Hs1 & Hc1 & Hp1).
  destruct (attempt operation getSlot w) as [[v1|e1] w1]; simpl in Hl1, Hr1.
  { exists l1. simpl. rewrite Hs1. repeat split; try done; try lia.
    by exists [1000; 2000]. }
  rewrite decide_False by lia.
  destruct (Hstep (sleep 1000 w1)) as (l2 & Hl2 & Hr2 & Hs2 & Hc2 & Hp2).
  destruct (attempt operation getSlot (sleep 1000 w1)) as [[v2|e2] w2];
    simpl in Hl2, Hr2.
  { exists (l1 ++ Slept 1000 :: l2). simpl.
    rewrite Hl2, Hl1, Hr2, Hr1, <- !app_assoc.
    rewrite called_app, probed_app, slept_app, !length_app. simpl.
    change (called (Slept 1000 :: l2)) with (called l2).
    change (probed (Slept 1000 :: l2)) with (probed l2).
    change (slept (Slept 1000 :: l2)) with (1000 :: slept l2).
    rewrite Hs1, Hs2. repeat split; try done; try lia. by exists [2000]. }
  rewrite decide_False by lia.
  destruct (Hstep (sleep (Z.min (1000 * 2) 10000) w2))
    as (l3 & Hl3 & Hr3 & Hs3 & Hc3 & Hp3).
  exists (l1 ++ Slept 1000 :: l2 ++ Slept 2000 :: l3).
  destruct (attempt operation getSlot (sleep (Z.min (1000 * 2) 10000) w2))
    as [[v3|e3] w3]; simpl in Hl3, Hr3; simpl;
    rewrite Hl3, Hl2, Hl1, Hr3, Hr2, Hr1, <- !app_assoc;
    rewrite !called_app, !probed_app, !slept_app, !length_app;
    change (called (Slept 1000 :: l2 ++ Slept 2000 :: l3))
      with (called (l2 ++ Slept 2000 :: l3));
    change (probed (Slept 1000 :: l2 ++ Slept 2000 :: l3))
      with (probed (l2 ++ Slept 2000 :: l3));
    change (slept (Slept 1000 :: l2 ++ Slept 2000 :: l3))
      with (1000 :: slept (l2 ++ Slept 2000 :: l3));
    rewrite !called_app, !probed_app, !slept_app, !length_app;
    change (called (Slept 2000 :: l3)) with (called l3);
    change (probed (Slept 2000 :: l3)) with (probed l3);
    change (slept (Slept 2000 :: l3)) with (2000 :: slept l3);
    rewrite Hs1, Hs2, Hs3; simpl;
    (repeat split; try done; try lia).
Qed.

End EffortBound.

Section Batching.
Import Rpc RpcMore.

Lemma batches_from_concat {A} (l : list A) B fuel : ∀ i,
  (0 < B)%nat → (length l - i ≤ fuel * B)%nat →
  concat (batches_from fuel B l i) = drop i l.
Proof.
  induction fuel as [|fuel IH]; intros i HB Hfuel.
  - simpl. symmetry. apply drop_ge. lia.
  - cbn [batches_from]. case_decide as Hi.
    + cbn [concat]. rewrite IH by (done || lia).
      rewrite <- drop_drop. apply take_drop.
    + symmetry. apply drop_ge. lia.
Qed.

Lemma batches_from_sizes {A} (l : list A) B fuel : ∀ i,
  (0 < B)%nat →
  Forall (λ b, 0 < length b ≤ B)%nat (batches_from fuel B l i).
Proof.
  induction fuel as [|fuel IH]; intros i HB; [constructor|].
  cbn [batches_from]. case_decide as Hi; [|constructor].
  constructor; [|by apply IH].
  rewrite length_take, length_drop. lia.
Qed.

Lemma batches_from_count {A} (l : list A) B fuel : ∀ i,
  (0 < B)%nat → (length l - i ≤ fuel * B)%nat →
  length (batches_from fuel B l i) = ((length l - i + (B - 1)) / B)%nat.
Proof.
  induction fuel as [|fuel IH]; intros i HB Hfuel.
  - simpl. replace (length l - i)%nat with 0%nat by lia.
    symmetry. apply Nat.div_small. lia.
  - cbn [batches_from]. case_decide as Hi.
    + cbn [length]. rewrite IH by (done || lia).
      destruct (decide (length l - i ≤ B)%nat) as [Hlast|Hmore].
      * replace (length l - (i + B))%nat with 0%nat by lia.
        rewrite (Nat.div_small (0 + (B - 1))) by lia.
        apply (Nat.div_unique _ _ 1 (length l - i - 1)); lia.
      * replace (length l - i + (B - 1))%nat
          with (length l - (i + B) + (B - 1) + 1 * B)%nat by lia.
        rewrite Nat.div_add by lia. lia.
    + replace (length l - i)%nat with 0%nat by lia.
      symmetry. apply Nat.div_small. lia.
Qed.

(** X9: The batches of [getMultipleAccounts] are a partition of the keys in
    order: put end to end they give the keys back, no batch is empty or
    longer than 100, and there are ceil(n / 100) of them. *)
Theorem batches_partition {A} (publicKeys : list A) :
  concat (batches publicKeys) = publicKeys ∧
  Forall (λ b, 0 < length b ≤ 100)%nat (batches publicKeys) ∧
  length (batches publicKeys) = ((length publicKeys + 99) / 100)%nat.
Proof.
  unfold batches, BATCH_SIZE. split; [|split].
  - rewrite batches_from_concat by lia. apply drop_0.
  - apply batches_from_sizes. lia.
  - rewrite batches_from_count by lia. f_equal. lia.
Qed.

End Batching.

Section GetMultipleAccountsFacts.
Import Rpc RpcMore.
Context {Key Info : Type}.
Variable getMultipleAccountsInfo :
  list Key → nat → string → Result JsError (list Info).
Variable getSlot : nat → string → Result JsError Z.
Variable info : Key → Info.

Hypothesis network_answers :
  ∀ batch n endpoint, getMultipleAccountsInfo batch n endpoint = Ok (map info batch).

Lemma fetch_batches_answers bs : ∀ results w,
  fetch_batches getMultipleAccountsInfo getSlot bs results w =
    (Ok (results ++ map info (concat bs)),
     {| client := client w; requests := (requests w + length bs)%nat;
        log := log w ++ replicate (length bs) (Called (connection (client w))) |}).
Proof.
  induction bs as [|batch bs IH]; intros results w.
  - simpl. rewrite !app_nil_r, Nat.add_0_r. by destruct w.
  - cbn [fetch_batches]. unfold executeWithRetry, withRetry.
    cbn [maxAttempts executeWithRetry_options retry_loop].
    rewrite (attempt_ok (getMultipleAccountsInfo batch) getSlot w (map info batch))
      by apply network_answers.
    rewrite IH. unfold after_call. simpl.
    rewrite map_app, <- !app_assoc. do 3 f_equal. lia.
Qed.

(** X10: Batching is transparent: when the network answers every batch with one
    account per key, [getMultipleAccounts] returns one account per key, in
    the order of the keys, after ceil(n / 100) requests. *)
Theorem getMultipleAccounts_answers_in_order publicKeys w :
  getMultipleAccounts getMultipleAccountsInfo getSlot publicKeys w =
    (Ok (map info publicKeys),
     {| client := client w;
        requests := (requests w + (length publicKeys + 99) / 100)%nat;
        log := log w ++ replicate ((length publicKeys + 99) / 100)
                                  (Called (connection (client w))) |}).
Proof.
  unfold getMultipleAccounts. rewrite fetch_batches_answers.
  destruct (batches_partition publicKeys) as (-> & _ & ->). done.
Qed.

End GetMultipleAccountsFacts.

Section GetMultipleAccountsExample.
Import Rpc RpcMore.

(** 250 keys are fetched in three requests. *)
Lemma getMultipleAccounts_answers_in_order_witness :
  let keys := seq 0 250 in
  let '(result, w) :=
    getMultipleAccounts (λ batch _ _, Ok (map S batch)) healthy_probe keys
      sample_world in
  result = Ok (map S keys) ∧ requests w = 3%nat.
Proof.
  intros keys.
  rewrite (getMultipleAccounts_answers_in_order
             (λ batch _ _, Ok (map S batch)) healthy_probe S
             (λ _ _ _, eq_refl) keys sample_world).
  split; [done|]. by vm_compute.
Defined.

End GetMultipleAccountsExample.

(** ** More of the event dispatcher *)

Section DrainFacts.
Import Dispatcher DispatcherMore.

Lemma run_cons d a trace : run d (a :: trace) = run (exec d a) trace.
Proof. done. Qed.

Lemma drain_from queue : ∀ d q0,
  processingQueue d = queue → isProcessing d = true → draining d = [q0] →
  let d' := run d (replicate (S (length queue)) (Settled 0)) in
  isProcessing d' = false ∧ processingQueue d' = [] ∧ draining d' = [] ∧
  delivered d' = delivered d ++ queue ∧
  observed d' = observed d ++ calls_for d queue ∧
  handlers d' = handlers d ∧ globalHandlers d' = globalHandlers d.
Proof.
  induction queue as [|q rest IH]; intros d q0 Hqueue Hflag Hdrain d'; subst d'.
  - cbn [length replicate]. rewrite run_cons. unfold run. cbn [foldl exec].
    rewrite Hdrain. simpl. unfold loop_head, leave_await. simpl.
    rewrite Hqueue. simpl. rewrite Hdrain. simpl.
    unfold calls_for. simpl. by rewrite !app_nil_r.
  - cbn [length].
    change (replicate (S (S (length rest))) (Settled 0))
      with (Settled 0 :: replicate (S (length rest)) (Settled 0)).
    rewrite run_cons.
    assert (exec d (Settled 0) =
              processEvent q
                {| replayBuffer := replayBuffer d;
                   replayBufferConfig := replayBufferConfig d;
                   handlers := handlers d;
                   globalHandlers := globalHandlers d;
                   processingQueue := rest;
                   isProcessing := true;
                   draining := [q];
                   dispatched := dispatched d;
                   delivered := delivered d ++ [q];
                   observed := observed d |}) as Hstep.
    { simpl. rewrite Hdrain. simpl. unfold loop_head, leave_await. simpl.
      by rewrite Hqueue, Hdrain, Hflag. }
    rewrite Hstep.
    pose proof (IH (processEvent q
                {| replayBuffer := replayBuffer d;
                   replayBufferConfig := replayBufferConfig d;
                   handlers := handlers d;
                   globalHandlers := globalHandlers d;
                   processingQueue := rest;
                   isProcessing := true;
                   draining := [q];
                   dispatched := dispatched d;
                   delivered := delivered d ++ [q];
                   observed := observed d |}) q eq_refl eq_refl eq_refl)
      as HIH.
    cbv zeta in HIH. destruct HIH as (H1 & H2 & H3 & H4 & H5 & H6 & H7).
    rewrite H1, H2, H3, H4, H5, H6, H7. simpl.
    unfold calls_for. simpl. by rewrite <- !app_assoc.
Qed.

End DrainFacts.

Section DrainClaims.
Import Dispatcher DispatcherMore.

(** X11: The drain loop finishes what is queued: from any state of a run in
    which a drain is active, once the handlers of each event have settled
    (the current one and one per queued event) the queue is empty, the flag
    is cleared, every dispatched event has been delivered, in dispatch
    order, and each queued event went to every handler registered for it. *)
Theorem drain_completes config trace :
  let d := run (create config) trace in
  isProcessing d = true →
  let d' := run d (replicate (S (length (processingQueue d))) (Settled 0)) in
  isProcessing d' = false ∧ processingQueue d' = [] ∧ draining d' = [] ∧
  delivered d' = delivered d ++ processingQueue d ∧
  map queued (delivered d') = enqueued trace ∧
  observed d' = observed d ++ calls_for d (processingQueue d).
Proof.
  intros d Hflag d'.
  destruct (invariant_run config trace) as [Hsingle _ Hfifo _ _].
  fold d in Hsingle, Hfifo. rewrite Hflag in Hsingle.
  destruct Hsingle as [q0 Hq0].
  pose proof (drain_from (processingQueue d) d q0 eq_refl Hflag Hq0) as H.
  cbv zeta in H. fold d' in H. destruct H as (H1 & H2 & H3 & H4 & H5 & _).
  repeat split; try done.
  by rewrite H4, Hfifo, map_queued_imap.
Qed.

Lemma drain_completes_witness :
  let d := run (create (sample_options 10))
               [OnAll 7%nat; Dispatch 10 (sample_event 1);
                Dispatch 20 (sample_event 2); Dispatch 30 (sample_event 3)] in
  let d' := run d (replicate 3 (Settled 0)) in
  isProcessing d' = false ∧ processingQueue d' = [] ∧
  map queued (delivered d') = [sample_event 1; sample_event 2; sample_event 3].
Proof.
  intros d d'.
  pose proof (drain_completes (sample_options 10)
                [OnAll 7%nat; Dispatch 10 (sample_event 1);
                 Dispatch 20 (sample_event 2); Dispatch 30 (sample_event 3)]
                eq_refl) as H.
  cbv zeta in H. destruct H as (H1 & H2 & _ & _ & H5 & _).
  split; [exact H1|]. split; [exact H2 | exact H5].
Defined.

(** X12: No event is lost: in a run in which no [processEvent] is rejected, an
    idle dispatcher has an empty queue and has delivered every dispatched
    event, in dispatch order. *)
Theorem idle_means_all_delivered config trace :
  never_rejected trace →
  let d := run (create config) trace in
  isProcessing d = false →
  processingQueue d = [] ∧ map queued (delivered d) = enqueued trace.
Proof.
  intros Hnever d Hidle.
  assert (processingQueue d = []) as Hempty.
  { subst d. revert Hidle.
    induction trace as [|a trace IH] using rev_ind; [done|].
    apply Forall_app in Hnever as [Hnever Ha].
    apply Forall_cons_1 in Ha as [Ha _].
    specialize (IH Hnever).
    destruct (invariant_run config trace) as [Hsingle _ _ _ _].
    unfold run in *. rewrite foldl_snoc.
    set (d := foldl exec (create config) trace) in *.
    destruct a as [now e | i | i | t h | h | t h | h]; simpl in Ha |- *;
      try done; try exact IH.
    - unfold dispatch, processQueue. simpl.
      destruct (isProcessing d) eqn:Hflag; simpl; [done|].
      rewrite (IH eq_refl). unfold loop_head. simpl. done.
    - case_decide as Hi; [|done].
      destruct (isProcessing d) eqn:Hflag;
        [|rewrite Hsingle in Hi; simpl in Hi; lia].
      unfold loop_head, leave_await. simpl.
      destruct (processingQueue d) eqn:Hq; simpl; [done|]. by rewrite Hflag. }
  split; [done|].
  destruct (invariant_run config trace) as [_ _ Hfifo _ _]. fold d in Hfifo.
  by rewrite Hempty, app_nil_r in Hfifo; rewrite Hfifo, map_queued_imap.
Qed.

Lemma idle_means_all_delivered_witness :
  map queued
    (delivered
       (run (create (sample_options 10))
            [Dispatch 10 (sample_event 1); Dispatch 20 (sample_event 2);
             Settled 0; Settled 0]))
    = [sample_event 1; sample_event 2].
Proof.
  apply (idle_means_all_delivered (sample_options 10)
           [Dispatch 10 (sample_event 1); Dispatch 20 (sample_event 2);
            Settled 0; Settled 0]).
  - by repeat constructor.
  - by vm_compute.
Defined.

(** X13: When [processEvent] rejects (an [emit] listener threw), the [finally]
    clears the flag but the queue is left as it is: events dispatched in the
    meantime wait, with no drain active, for the next [dispatch], which
    then delivers the oldest waiting event first and queues its own. *)
Theorem rejection_strands_queue config trace i :
  let d := run (create config) trace in
  (i < length (draining d))%nat →
  let d' := exec d (Rejected i) in
  isProcessing d' = false ∧ draining d' = [] ∧
  processingQueue d' = processingQueue d ∧ delivered d' = delivered d ∧
  ∀ now e q rest,
    processingQueue d = q :: rest →
    delivered (dispatch now e d') = delivered d ++ [q] ∧
    processingQueue (dispatch now e d') = rest ++ [mkQueued (dispatched d) e] ∧
    isProcessing (dispatch now e d') = true.
Proof.
  intros d Hi d'. subst d'. simpl. rewrite decide_True by done.
  destruct (invariant_run config trace) as [Hsingle _ _ _ _]. fold d in Hsingle.
  destruct (isProcessing d); [|rewrite Hsingle in Hi; simpl in Hi; lia].
  destruct Hsingle as [q0 Hq0]. rewrite Hq0 in *. simpl in Hi.
  assert (i = 0)%nat as -> by lia. simpl.
  split; [done|]. split; [by rewrite Hq0|]. split; [done|]. split; [done|].
  intros now e q rest Hqueue.
  unfold dispatch, processQueue, loop_head. simpl. by rewrite Hqueue.
Qed.

Lemma rejection_strands_queue_witness :
  let d := run (create (sample_options 10))
               [Dispatch 10 (sample_event 1); Dispatch 20 (sample_event 2);
                Rejected 0] in
  isProcessing d = false ∧ map queued (processingQueue d) = [sample_event 2] ∧
  map queued (delivered (dispatch 30 (sample_event 3) d))
    = [sample_event 1; sample_event 2].
Proof.
  intros d.
  pose proof (rejection_strands_queue (sample_options 10)
                [Dispatch 10 (sample_event 1); Dispatch 20 (sample_event 2)] 0
                ltac:(simpl; lia)) as H.
  cbv zeta in H. destruct H as (H1 & _ & H3 & H4 & Hnext).
  split; [exact H1|]. split; [by vm_compute|].
  destruct (Hnext 30 (sample_event 3) (mkQueued 1 (sample_event 2)) [] eq_refl)
    as (Hd & _).
  change d with (exec (run (create (sample_options 10))
                         [Dispatch 10 (sample_event 1);
                          Dispatch 20 (sample_event 2)]) (Rejected 0)).
  rewrite Hd. by vm_compute.
Defined.

End DrainClaims.

Section ReplayMaintenance.
Import Dispatcher DispatcherMore.

Lemma step_config d s : replayBufferConfig (step d s) = replayBufferConfig d.
Proof.
  destruct s as [a| | |]; try done. simpl.
  by destruct (exec_buffer d a) as [-> _].
Qed.

Lemma steps_config config trace :
  replayBufferConfig (steps (create config) trace) = config.
Proof.
  induction trace as [|s trace IH] using rev_ind; [done|].
  unfold steps in *. by rewrite foldl_snoc, step_config.
Qed.

Lemma addToReplayBuffer_bounded now e buffer config :
  0 ≤ maxSize config →
  Z.of_nat (length (addToReplayBuffer now e buffer config)) ≤ maxSize config ∧
  addToReplayBuffer now e buffer config `sublist_of` buffer ++ [mkBuffered e now].
Proof.
  intros Hmax. unfold addToReplayBuffer, splice0. case_decide as Hlen.
  - split; [|apply sublist_drop].
    rewrite length_drop. lia.
  - split; [lia | done].
Qed.

Lemma cleanupOldEvents_sublist now config buffer :
  cleanupOldEvents now config buffer `sublist_of` buffer.
Proof.
  unfold cleanupOldEvents. destruct (ttlMs config) as [ttl|]; [|done].
  case_decide; [done|]. apply sublist_filter.
Qed.

(** X14: The bound of the replay buffer survives maintenance: along every run
    that mixes dispatches with TTL sweeps, [clearReplayBuffer] and
    [cleanup], enabled or not, the buffer never holds more than [maxSize]
    entries, and what it holds are inserted entries in arrival order. *)
Theorem replay_buffer_bounded_under_maintenance config trace :
  0 ≤ maxSize config →
  let d := steps (create config) trace in
  Z.of_nat (length (replayBuffer d)) ≤ maxSize config ∧
  replayBuffer d `sublist_of` entries trace.
Proof.
  intros Hmax d. subst d.
  induction trace as [|s trace [IHlen IHsub]] using rev_ind.
  - simpl. split; [lia | done].
  - pose proof (steps_config config trace) as Hcfg.
    unfold steps, entries in *. rewrite foldl_snoc, omap_app.
    set (d := foldl step (create config) trace) in *.
    destruct s as [a|now| |]; simpl.
    + destruct (exec_buffer d a) as [_ ->]. rewrite Hcfg.
      destruct a as [now e| | | | | |]; simpl; rewrite ?app_nil_r; try done.
      destruct (enabled config).
      * destruct (addToReplayBuffer_bounded now e (replayBuffer d) config Hmax)
          as [Hlen Hsub].
        split; [done|]. etrans; [exact Hsub|]. by apply sublist_app.
      * split; [done|]. by apply sublist_inserts_r.
    + rewrite app_nil_r. rewrite Hcfg.
      pose proof (cleanupOldEvents_sublist now config (replayBuffer d)) as Hsub.
      split; [|by etrans]. apply sublist_length in Hsub. lia.
    + rewrite app_nil_r. split; [simpl; lia | apply sublist_nil_l].
    + by rewrite app_nil_r.
Qed.

Lemma replay_buffer_bounded_under_maintenance_witness :
  (length
     (replayBuffer
        (steps (create sample_ttl_options)
           [Act (Dispatch 10 (sample_event 1)); Act (Dispatch 50 (sample_event 2));
            SweepOldEvents 75; Act (Dispatch 80 (sample_event 3));
            Cleanup; Act (Dispatch 90 (sample_event 4));
            Act (Dispatch 95 (sample_event 5))])) ≤ 3)%nat.
Proof.
  pose proof (replay_buffer_bounded_under_maintenance sample_ttl_options
    [Act (Dispatch 10 (sample_event 1)); Act (Dispatch 50 (sample_event 2));
     SweepOldEvents 75; Act (Dispatch 80 (sample_event 3));
     Cleanup; Act (Dispatch 90 (sample_event 4));
     Act (Dispatch 95 (sample_event 5))] ltac:(simpl; lia)) as [Hlen _].
  change (maxSize sample_ttl_options) with 3 in Hlen. lia.
Defined.

End ReplayMaintenance.

Section TtlSweep.
Import Dispatcher DispatcherMore.

Lemma Forall_of_sublist {A} (P : A → Prop) l1 l2 :
  l1 `sublist_of` l2 → Forall P l2 → Forall P l1.
Proof.
  induction 1 as [|x l1 l2 Hsub IH|x l1 l2 Hsub IH]; intros HP.
  - constructor.
  - apply Forall_cons in HP as [Hx HP]. constructor; auto.
  - apply Forall_cons in HP as [_ HP]. auto.
Qed.

Lemma StronglySorted_sublist {A} (R : A → A → Prop) l1 l2 :
  l1 `sublist_of` l2 → StronglySorted R l2 → StronglySorted R l1.
Proof.
  induction 1 as [|x l1 l2 Hsub IH|x l1 l2 Hsub IH]; intros Hs.
  - constructor.
  - apply StronglySorted_cons in Hs as [Hx Hs].
    apply StronglySorted_cons. split; [|by apply IH].
    by eapply Forall_of_sublist.
  - apply StronglySorted_cons in Hs as [_ Hs]. by apply IH.
Qed.

Lemma sublist_map {A B} (f : A → B) l1 l2 :
  l1 `sublist_of` l2 → map f l1 `sublist_of` map f l2.
Proof. induction 1; simpl; by constructor. Qed.

Lemma filter_Forall_id {A} (P : A → Prop) `{!∀ x, Decision (P x)} l :
  Forall P l → filter P l = l.
Proof.
  induction 1 as [|x l Hx _ IH]; [done|].
  by rewrite filter_cons_True, IH.
Qed.

(** Filtering a list sorted by age against a cutoff drops a prefix. *)
Lemma filter_sorted_is_drop cutoff (buffer : list BufferedEvent) :
  StronglySorted Z.le (map received buffer) →
  ∃ k, filter (λ item, cutoff < received item) buffer = drop k buffer ∧
       Forall (λ item, received item ≤ cutoff) (take k buffer) ∧
       Forall (λ item, cutoff < received item) (drop k buffer).
Proof.
  induction buffer as [|x buffer IH]; intros Hs.
  - exists 0%nat. by repeat split.
  - simpl in Hs. apply StronglySorted_cons in Hs as [Hx Hs].
    destruct (decide (cutoff < received x)) as [Hnew|Hold].
    + assert (Forall (λ item, cutoff < received item) (x :: buffer)) as Hall.
      { constructor; [done|]. apply Forall_forall. intros y Hy.
        rewrite Forall_forall in Hx.
        specialize (Hx (received y) (list_elem_of_fmap_2 received _ _ Hy)). lia. }
      exists 0%nat. rewrite drop_0, take_0.
      split; [by apply filter_Forall_id|]. split; [constructor | done].
    + destruct (IH Hs) as (k & Hk & Htake & Hdrop).
      exists (S k). rewrite filter_cons_False by done. simpl.
      split; [done|]. split; [|done]. constructor; [lia | done].
Qed.

(** X15: The TTL sweep removes the oldest entries: in a run whose clock readings
    never go back, [cleanupOldEvents] (with a TTL configured) drops a prefix
    of the replay buffer, every dropped entry being at least [ttlMs] old and
    every kept entry younger. *)
Theorem ttl_sweep_drops_oldest config trace now ttl :
  ttlMs config = Some ttl → ttl ≠ 0 → 0 ≤ maxSize config →
  clock_monotone trace →
  let d := steps (create config) trace in
  ∃ k, replayBuffer (step d (SweepOldEvents now)) = drop k (replayBuffer d) ∧
       Forall (λ item, received item ≤ now - ttl) (take k (replayBuffer d)) ∧
       Forall (λ item, now - ttl < received item) (drop k (replayBuffer d)).
Proof.
  intros Httl Hnz Hmax Hclock d.
  destruct (replay_buffer_bounded_under_maintenance config trace Hmax)
    as [_ Hsub]. fold d in Hsub.
  assert (StronglySorted Z.le (map received (replayBuffer d))) as Hsorted.
  { eapply StronglySorted_sublist; [|exact Hclock]. by apply sublist_map. }
  destruct (filter_sorted_is_drop (now - ttl) (replayBuffer d) Hsorted)
    as (k & Hk & Htake & Hdrop).
  exists k. split; [|done]. simpl. unfold cleanupOldEvents.
  unfold d at 1. rewrite steps_config, Httl. by rewrite decide_False.
Qed.

Lemma ttl_sweep_drops_oldest_witness :
  let d := steps (create sample_ttl_options)
             [Act (Dispatch 10 (sample_event 1));
              Act (Dispatch 50 (sample_event 2));
              Act (Dispatch 60 (sample_event 3))] in
  ∃ k, replayBuffer (step d (SweepOldEvents 100)) = drop k (replayBuffer d) ∧
       Forall (λ item, received item ≤ 100 - 60) (take k (replayBuffer d)) ∧
       Forall (λ item, 100 - 60 < received item) (drop k (replayBuffer d)).
Proof.
  apply (ttl_sweep_drops_oldest sample_ttl_options
           [Act (Dispatch 10 (sample_event 1)); Act (Dispatch 50 (sample_event 2));
            Act (Dispatch 60 (sample_event 3))] 100 60
           eq_refl ltac:(lia) ltac:(simpl; lia)).
  unfold clock_monotone. simpl. repeat constructor; lia.
Defined.

End TtlSweep.

Section OrderUnderCleanup.
Import Dispatcher DispatcherMore.

Lemma loose_invariant_ext trace trace' d :
  dispatches trace = dispatches trace' →
  loose_invariant trace d → loose_invariant trace' d.
Proof. intros Heq [? ? ? ? ? ?]. split; by rewrite <- ?Heq. Qed.

Lemma dispatches_snoc trace s :
  dispatches (trace ++ [s]) =
    dispatches trace ++ match s with Act (Dispatch _ e) => [e] | _ => [] end.
Proof. unfold dispatches. rewrite omap_app. by destruct s as [[]| | |]. Qed.

Lemma loose_loop_head trace d :
  isProcessing d = true → draining d = [] →
  StronglySorted lt (map ordinal (delivered d ++ processingQueue d)) →
  Forall (λ q, ordinal q < dispatched d)%nat (delivered d ++ processingQueue d) →
  Forall (λ o, saw o ∈ delivered d) (observed d) →
  in_enqueue_order (observed d) →
  map queued (delivered d ++ processingQueue d) `sublist_of` dispatches trace →
  loose_invariant trace (loop_head d).
Proof.
  intros Hflag Hdrain Hsorted Hbound Hseen Hord Hsub. unfold loop_head.
  destruct (processingQueue d) as [|q rest] eqn:Hqueue.
  - split; simpl; try done; by rewrite Hqueue.
  - split; simpl.
    + rewrite Hflag, Hdrain. by eexists.
    + by rewrite <- app_assoc.
    + by rewrite <- app_assoc.
    + apply Forall_app. split.
      * eapply Forall_impl; [exact Hseen|]. simpl. intros o Ho.
        apply elem_of_app. by left.
      * apply Forall_forall. intros o Ho.
        apply list_elem_of_fmap in Ho as (h & -> & _). simpl.
        apply elem_of_app. right. by apply list_elem_of_singleton.
    + eapply in_enqueue_order_app; [done| |reflexivity].
      eapply Forall_impl; [exact Hseen|]. simpl. intros o Ho.
      rewrite map_app in Hsorted.
      apply (StronglySorted_app_1_elem_of _ _ _ (ordinal (saw o)) (ordinal q))
        in Hsorted; [done| |].
      * by apply (list_elem_of_fmap_2 ordinal).
      * simpl. apply elem_of_cons. by left.
    + by rewrite <- app_assoc.
Qed.

Lemma loose_invariant_step trace d s :
  loose_invariant trace d → loose_invariant (trace ++ [s]) (step d s).
Proof.
  intros [Hsingle Hsorted Hbound Hseen Hord Hsub].
  destruct s as [[now e | i | i | t h | h | t h | h] | now | |]; simpl.
  - (* dispatch *)
    assert (StronglySorted lt
              (map ordinal (delivered d ++ processingQueue d ++
                            [mkQueued (dispatched d) e]))) as Hsorted'.
    { rewrite app_assoc, map_app. apply StronglySorted_app.
      split; [|split; [done | repeat constructor]].
      intros x1 x2 Hx1 Hx2. simpl in Hx2.
      apply list_elem_of_singleton in Hx2 as ->.
      apply list_elem_of_fmap in Hx1 as (q & -> & Hq).
      rewrite Forall_forall in Hbound. by apply Hbound. }
    assert (Forall (λ q, ordinal q < S (dispatched d))%nat
              (delivered d ++ processingQueue d ++ [mkQueued (dispatched d) e]))
      as Hbound'.
    { rewrite app_assoc. apply Forall_app. split.
      - eapply Forall_impl; [exact Hbound|]. simpl. intros; lia.
      - repeat constructor; simpl; lia. }
    assert (map queued (delivered d ++ processingQueue d ++
                        [mkQueued (dispatched d) e])
              `sublist_of` dispatches (trace ++ [Act (Dispatch now e)])) as Hsub'.
    { rewrite dispatches_snoc, app_assoc, map_app. by apply sublist_app. }
    unfold dispatch, processQueue. simpl.
    destruct (isProcessing d) eqn:Hflag.
    + split; simpl; by rewrite ?Hflag.
    + by apply loose_loop_head.
  - apply (loose_invariant_ext trace); [by rewrite dispatches_snoc, app_nil_r|].
    case_decide as Hi; [|done].
    destruct (isProcessing d) eqn:Hflag;
      [destruct Hsingle as [q Hq] | rewrite Hsingle in Hi; simpl in Hi; lia].
    rewrite Hq in Hi. simpl in Hi. assert (i = 0)%nat as -> by lia.
    apply loose_loop_head; simpl; try done. by rewrite Hq.
  - apply (loose_invariant_ext trace); [by rewrite dispatches_snoc, app_nil_r|].
    case_decide as Hi; [|done].
    destruct (isProcessing d) eqn:Hflag;
      [destruct Hsingle as [q Hq] | rewrite Hsingle in Hi; simpl in Hi; lia].
    rewrite Hq in Hi. simpl in Hi. assert (i = 0)%nat as -> by lia.
    split; simpl; try done. by rewrite Hq.
  - apply (loose_invariant_ext trace); [by rewrite dispatches_snoc, app_nil_r|].
    by split.
  - apply (loose_invariant_ext trace); [by rewrite dispatches_snoc, app_nil_r|].
    by split.
  - apply (loose_invariant_ext trace); [by rewrite dispatches_snoc, app_nil_r|].
    by split.
  - apply (loose_invariant_ext trace); [by rewrite dispatches_snoc, app_nil_r|].
    by split.
  - apply (loose_invariant_ext trace); [by rewrite dispatches_snoc, app_nil_r|].
    by split.
  - apply (loose_invariant_ext trace); [by rewrite dispatches_snoc, app_nil_r|].
    by split.
  - (* cleanup: the queue is dropped *)
    apply (loose_invariant_ext trace); [by rewrite dispatches_snoc, app_nil_r|].
    split; simpl; rewrite ?app_nil_r; try done.
    + rewrite map_app in Hsorted. by apply StronglySorted_app_1_l in Hsorted.
    + by apply Forall_app in Hbound as [? _].
    + rewrite map_app in Hsub. etrans; [|exact Hsub].
      by apply sublist_inserts_r.
Qed.

Lemma loose_invariant_steps config trace :
  loose_invariant trace (steps (create config) trace).
Proof.
  induction trace as [|s trace IH] using rev_ind.
  - split; simpl; try done; try constructor; apply in_enqueue_order_nil.
  - unfold steps in *. rewrite foldl_snoc. by apply loose_invariant_step.
Qed.

(** X16: The delivery order survives [cleanup()]: in a run where [cleanup],
    [clearReplayBuffer] and TTL sweeps are mixed with the dispatches, at most
    one drain is active, handlers are called in dispatch order and only with
    dispatched events, and no event is delivered twice; queued events that
    [cleanup] drops are simply never delivered. *)
Theorem delivery_order_survives_cleanup config trace :
  let d := steps (create config) trace in
  (length (draining d) ≤ 1)%nat ∧
  in_enqueue_order (observed d) ∧
  Forall (λ o, saw o ∈ delivered d) (observed d) ∧
  StronglySorted lt (map ordinal (delivered d)) ∧
  map queued (delivered d) `sublist_of` dispatches trace.
Proof.
  intros d. destruct (loose_invariant_steps config trace)
    as [Hsingle Hsorted _ Hseen Hord Hsub].
  fold d in Hsingle, Hsorted, Hseen, Hord, Hsub.
  split; [|split; [done|split; [done|split]]].
  - destruct (isProcessing d); [destruct Hsingle as [q ->] | rewrite Hsingle];
      simpl; lia.
  - rewrite map_app in Hsorted. by apply StronglySorted_app_1_l in Hsorted.
  - rewrite map_app in Hsub. etrans; [|exact Hsub]. by apply sublist_inserts_r.
Qed.

End OrderUnderCleanup.

(** ** Outcomes and probabilities *)

Section OutcomeFacts.
Import JsNum MarketNormalizer NormalizerMore.
Local Open Scope Qc_scope.

Lemma clamp01_bounds x : 0 ≤ Switchboard.clamp01 x ≤ 1.
Proof.
  unfold Switchboard.clamp01. pose proof Qc_0_lt_1 as H01.
  repeat case_decide; split;
    auto using Qcle_refl, Qclt_le_weak, Qcnot_lt_le.
Qed.

Lemma clamp_reading_bounds x : 0 ≤ Switchboard.clamp_reading x ≤ 1.
Proof.
  pose proof Qc_0_lt_1 as H01.
  destruct x; simpl; try apply clamp01_bounds;
    split; auto using Qcle_refl, Qclt_le_weak.
Qed.

(** The clamps of [normalizeOutcome], on any probability it is given. *)
Lemma normalizeOutcome_clamps data :
  o_probability (normalizeOutcome data) =
    Switchboard.clamp_reading (num_or0 (po_probability data)).
Proof.
  unfold normalizeOutcome, Switchboard.clamp_reading, Switchboard.clamp01.
  cbn [o_probability]. rewrite ofZ_0, ofZ_1. pose proof Qc_0_lt_1 as H01.
  assert (ltb 1 0 = false) as H10.
  { apply not_true_iff_false. rewrite ltb_lt. apply Qcle_not_lt.
    by apply Qclt_le_weak. }
  destruct (num_or0 _) as [| |x|]; cbn [dltb finite]; rewrite ?H10;
    cbn [finite]; rewrite ?ofZ_0, ?ofZ_1; try done.
  destruct (decide (x < 0)) as [Hneg|Hnn].
  - apply ltb_lt in Hneg as ->. cbn [dltb]. by rewrite H10.
  - assert (ltb x 0 = false) as ->
      by (apply not_true_iff_false; by rewrite ltb_lt).
    cbn [dltb]. destruct (decide (1 < x)) as [Hbig|Hsm].
    + by apply ltb_lt in Hbig as ->.
    + assert (ltb 1 x = false) as ->; [|done].
      apply not_true_iff_false. by rewrite ltb_lt.
Qed.

Lemma str_or_idem s dflt : str_or (Some (str_or s dflt)) dflt = str_or s dflt.
Proof.
  unfold str_or. destruct s as [v|]; repeat case_decide; congruence.
Qed.

Lemma Outcome_eq (o o' : Outcome) :
  o_id o = o_id o' → o_name o = o_name o' →
  o_description o = o_description o' → o_probability o = o_probability o' →
  o_volume o = o_volume o' → o_liquidity o = o_liquidity o' →
  o_lastPrice o = o_lastPrice o' → o = o'.
Proof. destruct o, o'; simpl; congruence. Qed.

(** X17: [normalizeOutcome] always yields a probability of the unit interval
    and non-empty name, volume and liquidity; a second pass over its own
    result changes nothing. *)
Theorem normalizeOutcome_unit_interval_idempotent data :
  let o := normalizeOutcome data in
  0 ≤ o_probability o ≤ 1 ∧
  o_name o ≠ "" ∧ o_volume o ≠ "" ∧ o_liquidity o ≠ "" ∧
  normalizeOutcome (outcome_as_partial o) = o.
Proof.
  intros o. pose proof (normalizeOutcome_clamps data) as Hp. fold o in Hp.
  assert (0 ≤ o_probability o ≤ 1) as Hb
    by (rewrite Hp; apply clamp_reading_bounds).
  split; [done|].
  repeat split; try (by apply str_or_nonempty).
  subst o. apply Outcome_eq.
  4: { by apply normalizeOutcome_probability; [|apply Hb..]. }
  all: unfold normalizeOutcome, outcome_as_partial;
    cbn [o_id o_name o_description o_volume o_liquidity o_lastPrice
         po_id po_name po_description po_volume po_liquidity po_lastPrice];
    by rewrite ?str_or_idem.
Qed.

End OutcomeFacts.


Section SwitchboardOutcomes.
Import JsNum MarketNormalizer NormalizerMore Switchboard.
Local Open Scope Qc_scope.

Lemma append_nonempty (s t : string) : t ≠ "" → s +:+ t ≠ "".
Proof. intros Ht. destruct s; [done | by simpl]. Qed.

Lemma one_minus_unit (p : Qc) : 0 ≤ p ≤ 1 → 0 ≤ 1 - p ≤ 1.
Proof.
  intros [H0 H1]. split.
  - unfold Qcminus. rewrite <- (Qcplus_opp_r p).
    by apply Qcplus_le_compat; [|apply Qcle_refl].
  - unfold Qcminus. rewrite <- (Qcplus_0_r 1) at 2.
    apply Qcplus_le_compat; [apply Qcle_refl|].
    apply Qcopp_le_compat in H0. by rewrite Qcopp_involutive in H0 || exact H0.
Qed.

Lemma Ok_inj {E A} (a b : A) : Ok (E := E) a = Ok b → a = b.
Proof. by intros [= ->]. Qed.

(** The clamp of a result that is a number is the number that
    [clamp_reading] names. *)
Lemma dclamp_reading r :
  r ≠ NaN →
  dmax (Fin (ofZ 0)) (dmin (Fin (ofZ 1)) r) = Fin (clamp_reading r).
Proof. intros Hr. rewrite dclamp_cases. by destruct r. Qed.

(** X18: a Switchboard feed always becomes a binary market: the outcomes
    are "Yes" and "No" in this order, with ids [<address>-yes] and
    [<address>-no].  When the latest confirmed result is a number, "Yes"
    carries it clamped to [0,1] and "No" the complement, the last price of
    each is its probability, and the two probabilities add up to 1.  When
    the result was read as NaN, both probabilities are 0 and both last
    prices are NaN. *)
Theorem switchboard_yes_no_outcomes clock feed acct m :
  normalize clock feed acct = Ok m →
  ∃ yes no, m_outcomes m = [yes; no] ∧
    o_id yes = address acct +:+ "-yes" ∧ o_name yes = "Yes" ∧
    o_id no = address acct +:+ "-no" ∧ o_name no = "No" ∧
    match result (latestConfirmedRound feed) with
    | NaN =>
        o_probability yes = 0 ∧ o_probability no = 0 ∧
        o_lastPrice yes = Some NaN ∧ o_lastPrice no = Some NaN
    | r =>
        o_probability yes = clamp_reading r ∧
        o_probability no = 1 - o_probability yes ∧
        o_lastPrice yes = Some (Fin (o_probability yes)) ∧
        o_lastPrice no = Some (Fin (o_probability no)) ∧
        o_probability yes + o_probability no = 1
    end.
Proof.
  unfold normalize, normalizeMarket. intros H.
  destruct (schema_issues _); [|done]. apply Ok_inj in H as <-.
  cbn [m_outcomes default]. eexists _, _. split; [done|].
  split; [unfold normalizeOutcome; cbn [o_id po_id];
          apply str_or_Some_nonempty; by apply append_nonempty|].
  split; [done|].
  split; [unfold normalizeOutcome; cbn [o_id po_id];
          apply str_or_Some_nonempty; by apply append_nonempty|].
  split; [done|].
  destruct (result (latestConfirmedRound feed)) as [| |q|] eqn:Hres.
  { rewrite !normalizeOutcome_clamps. cbn. by rewrite ofZ_0. }
  all: rewrite dclamp_reading by done.
  all: set (p := clamp_reading _).
  all: assert (0 ≤ p ≤ 1) as Hp by apply clamp_reading_bounds.
  all: pose proof (one_minus_unit p Hp) as Hq.
  all: assert (dsub (Fin (ofZ 1)) (Fin p) = Fin (1 - p)) as ->
         by by rewrite ofZ_1.
  all: assert (∀ data, po_probability data = Some (Fin p) →
                       o_probability (normalizeOutcome data) = p) as Eyes
         by (intros data Hd; by apply normalizeOutcome_probability;
               [|apply Hp..]).
  all: assert (∀ data, po_probability data = Some (Fin (1 - p)) →
                       o_probability (normalizeOutcome data) = 1 - p) as Eno
         by (intros data Hd; by apply normalizeOutcome_probability;
               [|apply Hq..]).
  all: rewrite !Eyes, !Eno by done.
  all: assert (p + (1 - p) = 1) as Hsum by ring.
  all: done.
Qed.

(** A result of 0.75 gives the probabilities 0.75 and 0.25; a result read
    as NaN gives 0 and 0, with NaN as last price. *)
Lemma switchboard_yes_no_outcomes_witness :
  (∃ m, normalize sample_clock
          (sample_feed_reading (Fin (frac 3 4)) (Fin (frac 1 4)))
          sample_account = Ok m ∧
        map o_name (m_outcomes m) = ["Yes"; "No"] ∧
        map o_probability (m_outcomes m) = [frac 3 4; frac 1 4] ∧
        map o_lastPrice (m_outcomes m) =
          [Some (Fin (frac 3 4)); Some (Fin (frac 1 4))]) ∧
  (∃ m, normalize sample_clock (sample_feed_reading NaN (Fin (frac 1 4)))
          sample_account = Ok m ∧
        map o_probability (m_outcomes m) = [ofZ 0; ofZ 0] ∧
        map o_lastPrice (m_outcomes m) = [Some NaN; Some NaN]).
Proof.
  split.
  - destruct (normalize_returns sample_clock
                (sample_feed_reading (Fin (frac 3 4)) (Fin (frac 1 4)))
                sample_account) as [m Hm]; [done..|].
    exists m. split; [done|].
    destruct (switchboard_yes_no_outcomes _ _ _ _ Hm)
      as (yes & no & -> & _ & Hy & _ & Hn & Hpy & Hpn & Hly & Hln & _).
    cbn [result latestConfirmedRound sample_feed_reading] in Hpy.
    assert (o_probability yes = frac 3 4) as Ey
      by (rewrite Hpy; apply Qc_is_canon; by vm_compute).
    assert (o_probability no = frac 1 4) as En
      by (rewrite Hpn, Ey; apply Qc_is_canon; by vm_compute).
    cbn [map]. by rewrite Hy, Hn, Hly, Hln, Ey, En.
  - destruct (normalize_returns sample_clock
                (sample_feed_reading NaN (Fin (frac 1 4))) sample_account)
      as [m Hm]; [done..|].
    exists m. split; [done|].
    destruct (switchboard_yes_no_outcomes _ _ _ _ Hm)
      as (yes & no & -> & _ & _ & _ & _ & Hpy & Hpn & Hly & Hln).
    split; cbn [map]; [by rewrite Hpy, Hpn, ofZ_0 | by rewrite Hly, Hln].
Defined.

(** X19: the market carries [expiresAt] exactly when the feed's expiration
    is positive, as that expiration in milliseconds, and it is [expired]
    exactly when [expiresAt] is there and lies before the clock reading of
    the expiry test.  Its [createdAt] is the next [Date.now()] reading of
    the call, never a time of the feed: the second reading for a feed with
    an expiration, the first for a feed without, whose expiry test does
    not read the clock. *)
Theorem switchboard_expired_iff_expiresAt_passed clock feed acct m :
  normalize clock feed acct = Ok m →
  m_expiresAt m =
    (if decide (0 < expiration feed)%Z then Some (expiration feed * 1000)%Z
     else None) ∧
  (m_status m = expired ↔
     ∃ t, m_expiresAt m = Some t ∧ (t < clock 0%nat)%Z) ∧
  m_createdAt m =
    (if decide (0 < expiration feed)%Z
     then int_or (Some (clock 1%nat)) (clock 2%nat)
     else int_or (Some (clock 0%nat)) (clock 1%nat)) ∧
  m_resolvedAt m = None ∧ m_winningOutcome m = None.
Proof.
  intros H. pose proof (normalize_Ok_inv _ _ _ _ H) as (Hst & _).
  rewrite Hst, determine_status_cases.
  unfold normalize, normalizeMarket in H.
  destruct (schema_issues _); [|done]. injection H as <-.
  cbn [m_expiresAt m_createdAt m_resolvedAt m_winningOutcome].
  unfold expiry_readings.
  assert (∀ A (x y : A),
            (if bool_decide (0 < expiration feed)%Z then x else y) =
            (if decide (0 < expiration feed)%Z then x else y)) as Hdec
    by (intros; case_bool_decide; [by rewrite decide_True|by rewrite decide_False]).
  rewrite !Hdec.
  split; [done|].
  split; [|split; [by destruct (decide (0 < expiration feed)%Z)|done]].
  unfold has_expired. split.
  - destruct (decide (_ ∧ _)) as [[Hpos Hlt]|Hn].
    + intros _. exists (expiration feed * 1000)%Z. by rewrite decide_True.
    + by destruct (isLocked feed).
  - intros (t & Ht & Hlt). destruct (decide (0 < expiration feed)%Z); [|done].
    injection Ht as <-. by rewrite (decide_True (P := _ ∧ _)).
Qed.

Lemma switchboard_expired_iff_expiresAt_passed_witness :
  (∃ m, normalize ticking_clock (sample_feed false 1700000000) sample_account
          = Ok m ∧
        m_expiresAt m = Some 1700000000000%Z ∧ m_status m = expired ∧
        m_createdAt m = 1700000500001%Z) ∧
  (∃ m, normalize ticking_clock (sample_feed false 0) sample_account = Ok m ∧
        m_expiresAt m = None ∧ m_createdAt m = 1700000500000%Z).
Proof.
  split.
  - destruct (normalize_returns ticking_clock (sample_feed false 1700000000)
                sample_account) as [m Hm]; [done..|].
    exists m. split; [done|].
    destruct (switchboard_expired_iff_expiresAt_passed _ _ _ _ Hm)
      as (He & Hst & Hc & _).
    split; [by rewrite He|]. split; [|by rewrite Hc].
    apply Hst. exists 1700000000000%Z. by rewrite He.
  - destruct (normalize_returns ticking_clock (sample_feed false 0)
                sample_account) as [m Hm]; [done..|].
    exists m. split; [done|].
    destruct (switchboard_expired_iff_expiresAt_passed _ _ _ _ Hm)
      as (He & _ & Hc & _).
    split; [by rewrite He | by rewrite Hc].
Defined.

End SwitchboardOutcomes.

Section HxroTotals.
Import JsNum MarketNormalizer NormalizerMore Hxro.
Local Open Scope Qc_scope.

(** X21: Hxro markets are never reported as [expired]: the status comes from
    the status byte alone (0 active, 1 paused, 2 settled, 3 cancelled, any
    other value active), also when the settlement time has passed; the
    expiry is only recorded in [expiresAt], which is missing exactly when
    the settlement time is 0. *)
Theorem hxro_status_from_code_only clock market acct m :
  normalize clock market acct = Ok m →
  m_status m ≠ expired ∧
  (m_status m = active ↔
     marketStatus market ≠ 1%Z ∧ marketStatus market ≠ 2%Z ∧
     marketStatus market ≠ 3%Z) ∧
  (m_status m = paused ↔ marketStatus market = 1%Z) ∧
  (m_status m = settled ↔ marketStatus market = 2%Z) ∧
  (m_status m = cancelled ↔ marketStatus market = 3%Z) ∧
  m_expiresAt m =
    (if decide (settlementTime market = 0)%Z then None
     else Some (settlementTime market * 1000)%Z).
Proof.
  unfold normalize, normalizeMarket. intros H.
  destruct (schema_issues _); [|done]. injection H as <-.
  cbn [m_status m_expiresAt default]. unfold statusMap.
  assert (∀ A (x y : A),
            (if decide (settlementTime market * 1000 = 0)%Z then x else y) =
            (if decide (settlementTime market = 0)%Z then x else y)) as ->
    by (intros; repeat case_decide; done || lia).
  repeat case_decide; cbn [default from_option Datatypes.id];
    intuition (done || lia).
Qed.

Lemma hxro_status_from_code_only_witness :
  ∃ m, normalize (λ _, 1800000000000%Z) (sample_market [100; 300]%Z 400)
         sample_account = Ok m ∧
       (settlementTime (sample_market [100; 300]%Z 400) * 1000 < 1800000000000)%Z ∧
       m_status m = active ∧ m_expiresAt m = Some 1700003600000%Z.
Proof.
  destruct (hxro_normalize_returns (λ _, 1800000000000%Z)
              (sample_market [100; 300]%Z 400) sample_account)
    as (m & Hm & _); [done..|].
  exists m. split; [done|].
  destruct (hxro_status_from_code_only _ _ _ _ Hm) as (_ & Hact & _ & _ & _ & He).
  split; [by vm_compute|]. split; [|by rewrite He].
  by apply Hact.
Defined.

End HxroTotals.

Section NormalizerMoreFacts.
Import JsNum MarketNormalizer NormalizerMore.
Local Open Scope Qc_scope.

Lemma int_or_idem n dflt dflt' :
  dflt ≠ 0%Z → int_or (Some (int_or n dflt)) dflt' = int_or n dflt.
Proof.
  intros Hd. unfold int_or. destruct n as [v|]; repeat case_decide; congruence.
Qed.

Lemma normalizeMarket_as_partial now' md :
  str_or (Some (m_id md)) "" = m_id md →
  str_or (Some (m_programId md)) "" = m_programId md →
  str_or (Some (m_address md)) "" = m_address md →
  str_or (Some (m_name md)) "Unknown Market" = m_name md →
  str_or (Some (m_description md)) "" = m_description md →
  str_or (Some (m_creator md)) "" = m_creator md →
  int_or (Some (m_createdAt md)) now' = m_createdAt md →
  str_or (Some (m_totalVolume md)) "0" = m_totalVolume md →
  str_or (Some (m_totalLiquidity md)) "0" = m_totalLiquidity md →
  normalizeMarket now' (as_partial md) =
    match schema_issues md with
    | [] => Ok md
    | issues => Throw (mkZodError issues)
    end.
Proof.
  unfold normalizeMarket, as_partial.
  cbn [pm_id pm_programId pm_address pm_name pm_description pm_category
       pm_status pm_outcomes pm_creator pm_resolver pm_resolutionSource
       pm_createdAt pm_expiresAt pm_resolvedAt pm_winningOutcome
       pm_totalVolume pm_totalLiquidity pm_minStake pm_maxStake pm_fee
       pm_metadata default from_option].
  intros -> -> -> -> -> -> -> -> ->. by destruct md.
Qed.

(** X22: A market that [normalizeMarket] returned passes through it unchanged,
    at any later time: normalisation is idempotent (the clock never reads
    0, the value that [createdAt || Date.now()] takes for missing). *)
Theorem normalizeMarket_idempotent now now' data m :
  now ≠ 0%Z →
  normalizeMarket now data = Ok m →
  normalizeMarket now' (as_partial m) = Ok m.
Proof.
  intros Hnow H. unfold normalizeMarket in H.
  destruct (schema_issues _) eqn:Hiss; [|done]. injection H as <-.
  rewrite normalizeMarket_as_partial, Hiss; [done|..];
    cbn [m_id m_programId m_address m_name m_description m_creator
         m_createdAt m_totalVolume m_totalLiquidity];
    by (apply str_or_idem || apply int_or_idem).
Qed.

Lemma normalizeMarket_idempotent_witness :
  ∃ m, normalizeMarket 1700000500000 (sample_partial (Some "m1")) = Ok m ∧
       normalizeMarket 1800000000000 (as_partial m) = Ok m.
Proof.
  eexists. split; [by vm_compute|].
  by apply (normalizeMarket_idempotent 1700000500000 1800000000000
              (sample_partial (Some "m1"))).
Defined.

(** *** Status transitions *)

Lemma isValidStatusTransition_spec s s' :
  isValidStatusTransition s s' = true ↔ s' ∈ validTransitions s.
Proof. apply bool_decide_eq_true. Qed.

Lemma evolves_closed (P : MarketStatus → Prop) s s' :
  (∀ a b, P a → isValidStatusTransition a b = true → P b) →
  evolves s s' → P s → P s'.
Proof. intros Hstep Hev. induction Hev; eauto. Qed.

(** X23: The status table has no self-loop, [settled] and [cancelled] are
    final, a market that has [expired] can only go on to [settled] or
    [cancelled] (it is never active or paused again), whatever sequence of
    valid transitions follows; and every status can still be reached from
    [active] and from [paused]. *)
Theorem status_transitions_never_reopen :
  (∀ s, isValidStatusTransition s s = false) ∧
  (∀ s s', evolves s s' → s = settled ∨ s = cancelled → s' = s) ∧
  (∀ s', evolves expired s' → s' = expired ∨ s' = settled ∨ s' = cancelled) ∧
  (∀ s', evolves active s' ∧ evolves paused s').
Proof.
  split; [by intros []|]. split; [|split].
  - intros s s' Hev Hs.
    apply (evolves_closed (λ x, x = s) s s'); [|done..].
    intros a b -> Hab. apply isValidStatusTransition_spec in Hab.
    destruct Hs as [-> | ->]; by apply elem_of_nil in Hab.
  - intros s' Hev.
    apply (evolves_closed (λ x, x = expired ∨ x = settled ∨ x = cancelled)
             expired s'); [|done|by left].
    intros a b Ha Hab. apply isValidStatusTransition_spec in Hab.
    destruct Ha as [-> | [-> | ->]]; cbn [validTransitions] in Hab;
      set_unfold in Hab; tauto.
  - assert (∀ a b, isValidStatusTransition a b = true → evolves a b) as Hone
      by (intros a b Hab; by apply rtc_once).
    assert (evolves paused active) as Hpa by by apply Hone.
    assert (∀ s', evolves active s') as Hact.
    { intros []; (apply rtc_refl || by apply Hone). }
    intros s'. split; [done|]. by etrans.
Qed.

End NormalizerMoreFacts.

(** ** The Hxro account layout *)

Section ReaderFacts.
Import Decoder.

Lemma bind_Ok {E A B} (r : Result E A) (k : A → Result E B) b :
  (x ← r; k x) = Ok b → ∃ x, r = Ok x ∧ k x = Ok b.
Proof.
  destruct r as [x|e]; intros H; [exists x; split; [done | exact H]|].
  discriminate H.
Qed.

Lemma bind_Throw {E A B} (r : Result E A) (k : A → Result E B) e :
  (x ← r; k x) = Throw e → r = Throw e ∨ ∃ x, r = Ok x ∧ k x = Throw e.
Proof.
  destruct r as [x|e']; intros H; [right; exists x; split; [done | exact H]
                                  |].
  left. unfold mbind, Result_bind in H. by injection H as ->.
Qed.

Lemma read_le_Ok width buffer offset :
  (offset + width ≤ length buffer)%nat →
  read_le width buffer offset =
    Ok (le_value (take width (drop offset buffer))).
Proof.
  intros Hlen. unfold read_le.
  rewrite decide_True; [done|]. rewrite length_take, length_drop. lia.
Qed.

Lemma read_le_Ok_inv width buffer offset v :
  (0 < width)%nat → read_le width buffer offset = Ok v →
  (offset + width ≤ length buffer)%nat.
Proof.
  intros Hw. unfold read_le. case_decide as Hlen; [|done]. intros _.
  rewrite length_take, length_drop in Hlen. lia.
Qed.

Lemma read_le_Throw width buffer offset e :
  read_le width buffer offset = Throw e → e = out_of_range.
Proof. unfold read_le. case_decide; [done|]. by intros [= <-]. Qed.

Lemma le_value_range bytes : 0 ≤ le_value bytes < 256 ^ Z.of_nat (length bytes).
Proof.
  induction bytes as [|b bytes IH]; [simpl; lia|].
  cbn [le_value length]. rewrite Nat2Z.inj_succ, Z.pow_succ_r by lia.
  assert (0 ≤ Z.of_N (Byte.to_N b) < 256)
    by (pose proof (Byte.to_N_bounded b); lia).
  lia.
Qed.

Lemma read_le_range width buffer offset v :
  read_le width buffer offset = Ok v → 0 ≤ v < 256 ^ Z.of_nat width.
Proof.
  unfold read_le. case_decide as Hlen; [|done]. intros [= <-].
  pose proof (le_value_range (take width (drop offset buffer))) as Hr.
  by rewrite Hlen in Hr.
Qed.

Lemma readI64_Ok_inv buffer offset v :
  readI64 buffer offset = Ok v → (offset + 8 ≤ length buffer)%nat.
Proof.
  unfold readI64. intros (x & Hx & _)%bind_Ok.
  apply read_le_Ok_inv in Hx; lia.
Qed.

Lemma readI64_Ok buffer offset :
  (offset + 8 ≤ length buffer)%nat → ∃ v, readI64 buffer offset = Ok v.
Proof. intros Hlen. unfold readI64. rewrite read_le_Ok by done. by eexists. Qed.

Lemma readI64_Throw buffer offset e :
  readI64 buffer offset = Throw e → e = out_of_range.
Proof.
  unfold readI64. intros [H|(x & _ & H)]%bind_Throw; [|done].
  by apply read_le_Throw in H.
Qed.

End ReaderFacts.

Section HxroDecoderFacts.
Import JsNum Decoder Hxro HxroDecoder.
Context (utf8 : Buffer → string).

Lemma read_outcomes_Ok_inv data n i offset outs offset' :
  read_outcomes utf8 data n i offset = Ok (outs, offset') →
  offset' = (offset + 44 * n)%nat ∧
  (n ≠ 0%nat → offset' ≤ length data)%nat ∧
  length outs = n ∧
  map id outs = map (λ k, i + Z.of_nat k) (seq 0 n) ∧
  Forall (λ o, 0 ≤ pool o < 2 ^ 64 ∧ 0 ≤ bettors o < 2 ^ 32) outs.
Proof.
  revert i offset outs offset'.
  induction n as [|n IH]; intros i offset outs offset'.
  - intros [= <- <-]. repeat split; (lia || done || by constructor).
  - cbn [read_outcomes]. cbv zeta. unfold readU64, readU32.
    intros (p & Hp & H)%bind_Ok. apply bind_Ok in H as (b & Hb & H).
    apply bind_Ok in H as ([rest off] & Hrest & H).
    injection H as <- <-. cbn [fst snd].
    apply IH in Hrest as (-> & Hlen & Hn & Hids & Hrange).
    apply read_le_Ok_inv in Hb as Hb'; [|lia].
    split; [lia|]. split; [destruct n; lia|]. split; [by rewrite <- Hn|].
    split.
    + cbn [map seq id]. f_equal; [f_equal; lia|].
      rewrite Hids, <- fmap_S_seq, <- list_fmap_compose. unfold fmap.
      apply map_ext. intros k. simpl. lia.
    + constructor; [|done]. cbn [pool bettors].
      apply read_le_range in Hp, Hb. by split.
Qed.

Lemma read_outcomes_Ok data n i offset :
  (offset + 44 * n ≤ length data)%nat →
  ∃ outs, read_outcomes utf8 data n i offset = Ok (outs, (offset + 44 * n)%nat).
Proof.
  revert i offset. induction n as [|n IH]; intros i offset Hlen.
  - exists []. cbn [read_outcomes]. do 2 f_equal. lia.
  - cbn [read_outcomes]. cbv zeta. unfold readU64, readU32.
    rewrite !read_le_Ok by lia. cbn [mbind Result_bind].
    destruct (IH (i + 1) (offset + 32 + 8 + 4)%nat) as [outs ->]; [lia|].
    cbn [mbind Result_bind fst snd]. eexists. do 2 f_equal. lia.
Qed.

Lemma read_outcomes_Throw data n i offset e :
  read_outcomes utf8 data n i offset = Throw e → e = out_of_range.
Proof.
  revert i offset. induction n as [|n IH]; intros i offset; [done|].
  cbn [read_outcomes]. cbv zeta. unfold readU64, readU32.
  intros [H|(p & _ & H)]%bind_Throw; [by apply read_le_Throw in H|].
  apply bind_Throw in H as [H|(b & _ & H)]; [by apply read_le_Throw in H|].
  apply bind_Throw in H as [H|(r & _ & H)]; [by apply IH in H | done].
Qed.

Lemma decodeMarketAccount_Ok_inv data m :
  decodeMarketAccount utf8 data = Ok m →
  ∃ n outs,
    readU8 data 424 = Ok (marketStatus m) ∧
    readU8 data 425 = Ok (Z.of_nat n) ∧
    (layout_size n ≤ length data)%nat ∧
    read_outcomes utf8 data n 0 426 = Ok (outs, (426 + 44 * n)%nat) ∧
    outcomes m = map (with_odds (totalPool m)) outs ∧
    0 ≤ totalPool m < 2 ^ 64 ∧ 0 ≤ feePercent m < 2 ^ 16.
Proof.
  unfold decodeMarketAccount. cbv zeta. unfold readU8, readU16, readU64.
  cbn [Nat.add]. intros E.
  apply bind_Ok in E as (st & Hst & E).
  apply bind_Ok in E as (num & Hnum & E).
  apply bind_Ok in E as ([outs off] & Houts & E). cbn [fst snd] in E.
  apply bind_Ok in E as (total & Htotal & E).
  apply bind_Ok in E as (t1 & Ht1 & E).
  apply bind_Ok in E as (t2 & Ht2 & E).
  apply bind_Ok in E as (t3 & Ht3 & E).
  apply bind_Ok in E as (win & Hwin & E).
  apply bind_Ok in E as (fee & Hfee & E).
  apply bind_Ok in E as (smin & Hmin & E).
  apply bind_Ok in E as (smax & Hmax & E).
  injection E as <-.
  cbn [marketStatus outcomes totalPool feePercent].
  pose proof (read_le_range _ _ _ _ Hnum) as Hn.
  pose proof (read_outcomes_Ok_inv _ _ _ _ _ _ Houts) as (-> & _).
  apply read_le_Ok_inv in Hmax; [|lia].
  exists (Z.to_nat num), outs. rewrite Z2Nat.id by lia.
  repeat split; try done.
  - unfold layout_size. lia.
  - by apply read_le_range in Htotal as [? _].
  - by apply read_le_range in Htotal as [_ ?].
  - by apply read_le_range in Hfee as [? _].
  - by apply read_le_range in Hfee as [_ ?].
Qed.

Lemma decodeMarketAccount_Ok data n :
  readU8 data 425 = Ok (Z.of_nat n) →
  (layout_size n ≤ length data)%nat →
  ∃ m, decodeMarketAccount utf8 data = Ok m.
Proof.
  unfold layout_size. intros Hnum Hlen.
  unfold decodeMarketAccount. cbv zeta. unfold readU8 in *.
  cbn [Nat.add]. rewrite (read_le_Ok 1 data 424) by lia.
  cbn [mbind Result_bind]. rewrite Hnum. cbn [mbind Result_bind].
  rewrite Nat2Z.id.
  destruct (read_outcomes_Ok data n 0 426) as [outs ->]; [lia|].
  cbn [mbind Result_bind fst snd]. unfold readU64, readU16, readI64.
  rewrite !read_le_Ok by lia. cbn [mbind Result_bind]. by eexists.
Qed.

Lemma decodeMarketAccount_Throw data e :
  decodeMarketAccount utf8 data = Throw e → e = out_of_range.
Proof.
  unfold decodeMarketAccount. cbv zeta. unfold readU8, readU16, readU64.
  intros E.
  repeat (apply bind_Throw in E as [E|(? & _ & E)];
          [by (apply read_le_Throw in E || apply readI64_Throw in E
               || apply read_outcomes_Throw in E)|]).
  done.
Qed.

(** What [normalize] relies on in a decoded account. *)
Lemma decoded_pools_and_odds data m :
  decodeMarketAccount utf8 data = Ok m →
  0 ≤ totalPool m < 2 ^ 64 ∧
  Forall (λ o, 0 ≤ pool o < 2 ^ 64 ∧
               odds o = if bool_decide (0 < pool o)
                        then div (ofZ (totalPool m)) (ofZ (pool o))
                        else ofZ 0)
         (outcomes m).
Proof.
  intros E. apply decodeMarketAccount_Ok_inv in E
    as (n & outs & _ & _ & _ & Houts & -> & Htotal & _).
  apply read_outcomes_Ok_inv in Houts as (_ & _ & _ & _ & Hrange).
  split; [done|]. apply Forall_fmap. eapply Forall_impl; [exact Hrange|].
  intros o [Hp _]. by cbn [with_odds pool odds].
Qed.

(** X25: [decodeMarketAccount] returns exactly when the buffer holds the whole
    layout for the outcome count in byte 425, that is [477 + 44 n] bytes:
    it then yields [n] outcomes numbered from 0, unsigned fields within
    their width, and the odds [totalPool / pool] of each outcome with a
    positive pool (0 otherwise).  On a shorter buffer it throws Node's
    RangeError, and nothing else. *)
Theorem hxro_decode_needs_whole_layout data :
  match decodeMarketAccount utf8 data with
  | Ok m =>
      ∃ n, readU8 data 425 = Ok (Z.of_nat n) ∧
           (layout_size n ≤ length data)%nat ∧
           length (outcomes m) = n ∧
           map id (outcomes m) = map Z.of_nat (seq 0 n) ∧
           readU8 data 424 = Ok (marketStatus m) ∧
           0 ≤ totalPool m < 2 ^ 64 ∧ 0 ≤ feePercent m < 2 ^ 16 ∧
           Forall (λ o, 0 ≤ pool o < 2 ^ 64 ∧
                        odds o = if bool_decide (0 < pool o)
                                 then div (ofZ (totalPool m)) (ofZ (pool o))
                                 else ofZ 0)
                  (outcomes m)
  | Throw e =>
      e = out_of_range ∧
      ((length data < 426)%nat ∨
       ∃ n, readU8 data 425 = Ok (Z.of_nat n) ∧
            (length data < layout_size n)%nat)
  end.
Proof.
  destruct (decodeMarketAccount utf8 data) as [m|e] eqn:E.
  - apply decodeMarketAccount_Ok_inv in E
      as (n & outs & Hst & Hnum & Hlen & Houts & -> & Htotal & Hfee).
    apply read_outcomes_Ok_inv in Houts as (_ & _ & Hn & Hids & Hrange).
    exists n. split_and!; try (done || lia).
    + by rewrite length_map.
    + rewrite map_map. transitivity (map id outs); [by apply map_ext|].
      rewrite Hids. apply map_ext. intros k. lia.
    + apply Forall_fmap. eapply Forall_impl; [exact Hrange|].
      intros o [Hp _]. by cbn [with_odds pool odds].
  - split; [by apply decodeMarketAccount_Throw in E|].
    destruct (decide (length data < 426)%nat) as [|Hlong]; [by left|right].
    pose proof (read_le_Ok 1 data 425 ltac:(lia)) as Hnum.
    pose proof (read_le_range _ _ _ _ Hnum) as Hr.
    set (v := le_value _) in *. exists (Z.to_nat v).
    rewrite Z2Nat.id by lia. split; [done|].
    destruct (decide (length data < layout_size (Z.to_nat v))%nat)
      as [|Hfits]; [done|].
    destruct (decodeMarketAccount_Ok data (Z.to_nat v)) as [m Hm];
      [by rewrite Z2Nat.id by lia | lia | congruence].
Qed.

Lemma drop_behind_prefix {A} (d d' rest : list A) offset :
  length d = length d' → (length d ≤ offset)%nat →
  drop offset (d ++ rest) = drop offset (d' ++ rest).
Proof.
  intros Hlen Hoff. rewrite !drop_app_ge by lia. by rewrite Hlen.
Qed.

Lemma read_outcomes_behind_prefix d d' rest n i offset :
  length d = length d' → (length d ≤ offset)%nat →
  read_outcomes utf8 (d ++ rest) n i offset =
    read_outcomes utf8 (d' ++ rest) n i offset.
Proof.
  intros Hlen. revert i offset. induction n as [|n IH]; intros i offset Hoff;
    [done|].
  cbn [read_outcomes]. cbv zeta.
  unfold readString, subarray, readU64, readU32, read_le.
  rewrite !(drop_behind_prefix d d' rest) by lia.
  by rewrite IH by lia.
Qed.

(** X26: The first eight bytes, the account discriminator, are skipped and
    never looked at: two buffers that differ only there decode alike, so
    the layout accepts any account that is long enough. *)
Theorem hxro_decode_ignores_discriminator d d' rest :
  length d = 8%nat → length d' = 8%nat →
  decodeMarketAccount utf8 (d ++ rest) = decodeMarketAccount utf8 (d' ++ rest).
Proof.
  intros Hd Hd'. unfold decodeMarketAccount. cbv zeta. cbn [Nat.add].
  unfold readPublicKey, readString, subarray, readU8, readU64, readU16,
    readI64, read_le.
  rewrite !(drop_behind_prefix d d' rest) by lia.
  destruct (decide _) as [_|_]; [|done]. cbn [mbind Result_bind].
  destruct (decide _) as [_|_]; [|done]. cbn [mbind Result_bind].
  rewrite (read_outcomes_behind_prefix d d' rest) by lia.
  destruct (read_outcomes _ _ _ _ _) as [[outs offset]|e] eqn:Houts; [|done].
  apply read_outcomes_Ok_inv in Houts as (-> & _).
  cbn [mbind Result_bind fst snd].
  by rewrite !(drop_behind_prefix d d' rest) by lia.
Qed.

End HxroDecoderFacts.

Section HxroPriceFacts.
Import JsNum MarketNormalizer Decoder Hxro HxroDecoder.
Local Open Scope Qc_scope.

Lemma Qcmult_pos (a b : Qc) : 0 < a → 0 < b → 0 < a * b.
Proof.
  intros Ha Hb. apply (Qcmult_lt_mono_pos_r _ _ _ Hb) in Ha.
  by rewrite Qcmult_0_l in Ha.
Qed.

Lemma Qcmult_nonneg_nonpos (a b : Qc) : 0 ≤ a → b ≤ 0 → a * b ≤ 0.
Proof.
  intros Ha Hb. rewrite Qcmult_comm, <- (Qcmult_0_l a).
  by apply Qcmult_le_compat_r.
Qed.

Lemma ratio_pos a b : (0 < a)%Z → (0 < b)%Z → 0 < Qc_of_Z a / Qc_of_Z b.
Proof.
  intros Ha Hb. pose proof (Qc_of_Z_pos _ Hb) as Hb'.
  apply (Qcmult_lt_mono_pos_r _ _ _ Hb').
  rewrite Qcmult_0_l, Qc_div_mul_cancel by done. by apply Qc_of_Z_pos.
Qed.

Lemma ratio_lt_1 a b : (0 < b)%Z → Qc_of_Z a / Qc_of_Z b < 1 ↔ (a < b)%Z.
Proof.
  intros Hb. pose proof (Qc_of_Z_pos _ Hb) as Hb'.
  rewrite (Qcmult_lt_mono_pos_r _ _ _ Hb').
  rewrite Qcmult_1_l, Qc_div_mul_cancel by done.
  by rewrite <- Z2Qc_inj_lt.
Qed.

Lemma fee_multiplier_pos fee :
  0 < 1 - Qc_of_Z fee / Qc_of_Z 10000 ↔ (fee < 10000)%Z.
Proof.
  unfold Qcminus. rewrite <- Qclt_minus_iff. by apply ratio_lt_1.
Qed.

(** The last price that [normalize] computes from decoded odds. *)
Lemma price_of_decoded_odds (p t fee : Z) :
  (0 ≤ p)%Z → (0 ≤ t)%Z →
  let odds := if bool_decide (0 < p)%Z then div (ofZ t) (ofZ p) else ofZ 0 in
  let feeMultiplier := ofZ 1 - div (ofZ fee) (ofZ 10000) in
  let impliedOdds := odds * feeMultiplier in
  (if ltb (ofZ 0) impliedOdds then div (ofZ 1) impliedOdds else ofZ 0) =
    price_spec p t fee.
Proof.
  intros Hp Ht. cbv zeta. unfold price_spec, div, ofZ.
  rewrite Z2Qc_inj_0, Z2Qc_inj_1.
  set (f := 1 - Qc_of_Z fee / Qc_of_Z 10000).
  pose proof (fee_multiplier_pos fee) as Hf. fold f in Hf.
  destruct (decide (0 < p)%Z) as [Hp'|Hp'].
  - rewrite (bool_decide_eq_true_2 (0 < p)%Z) by done.
    destruct (decide (0 < t)%Z) as [Ht'|Ht'].
    + destruct (decide (fee < 10000)%Z) as [Hfee|Hfee].
      * rewrite decide_True by done.
        assert (0 < f) as Hfpos by by apply Hf.
        pose proof (ratio_pos t p Ht' Hp') as Hodds.
        assert (ltb 0 (Qc_of_Z t / Qc_of_Z p * f) = true) as ->
          by (apply ltb_lt; by apply Qcmult_pos).
        done.
      * rewrite decide_False by lia.
        assert (ltb 0 (Qc_of_Z t / Qc_of_Z p * f) = false) as ->; [|done].
        apply not_true_iff_false. rewrite ltb_lt. apply Qcle_not_lt.
        apply Qcmult_nonneg_nonpos; [apply ratio_nonneg; lia|].
        apply Qcnot_lt_le. by rewrite Hf.
    + rewrite decide_False by lia. assert (t = 0)%Z as -> by lia.
      assert (ltb 0 (Qc_of_Z 0 / Qc_of_Z p * f) = false) as ->; [|done].
      apply not_true_iff_false. rewrite ltb_lt. apply Qcle_not_lt.
      rewrite Z2Qc_inj_0. unfold Qcdiv. rewrite !Qcmult_0_l. apply Qcle_refl.
  - rewrite (bool_decide_eq_false_2 (0 < p)%Z) by done.
    rewrite decide_False by lia.
    assert (ltb 0 (0 * f) = false) as ->; [|done].
    apply not_true_iff_false. rewrite ltb_lt. apply Qcle_not_lt.
    rewrite Qcmult_0_l. apply Qcle_refl.
Qed.

Lemma hxro_normalize_Ok_outcomes clock market acct m :
  normalize clock market acct = Ok m →
  m_outcomes m = map (normalize_outcome market acct) (outcomes market).
Proof.
  unfold normalize, normalizeMarket. destruct (schema_issues _); [|done].
  by intros [= <-].
Qed.

Context (utf8 : Buffer → string).

(** X27: decoding an account and normalizing it: the last price of an
    outcome with a positive pool, in a market with a positive total pool
    and a fee below 10000 basis points, is the inverse of its odds net of
    the fee, 1 / ((total / pool) × (1 − fee / 10000)), as the code
    evaluates it; it is 0 for an outcome without a pool, for an empty total
    pool, and for a fee of 100% or more.  It is never NaN. *)
Theorem hxro_price_inverse_of_net_odds clock data decoded acct m :
  decodeMarketAccount utf8 data = Ok decoded →
  normalize clock decoded acct = Ok m →
  map o_lastPrice (m_outcomes m) =
    map (λ o, Some (Fin (price_spec (pool o) (totalPool decoded)
                           (feePercent decoded))))
        (outcomes decoded).
Proof.
  intros Hdec Hnorm. rewrite (hxro_normalize_Ok_outcomes _ _ _ _ Hnorm).
  destruct (decoded_pools_and_odds utf8 data decoded Hdec) as [Htotal Hodds].
  rewrite map_map. apply map_ext_in. intros o Hin%list_elem_of_In.
  rewrite Forall_forall in Hodds. destruct (Hodds o Hin) as [Hp Ho].
  unfold normalize_outcome, normalizeOutcome. cbn [o_lastPrice po_lastPrice].
  do 2 f_equal. rewrite Ho. apply price_of_decoded_odds; lia.
Qed.

End HxroPriceFacts.

Section HxroDecoderExamples.
Import JsNum MarketNormalizer Decoder Hxro HxroDecoder.

Lemma hxro_decode_ignores_discriminator_witness :
  decodeMarketAccount sample_utf8 (replicate 8 xff ++ drop 8 sample_bytes) =
    decodeMarketAccount sample_utf8 (replicate 8 x00 ++ drop 8 sample_bytes) ∧
  is_ok (decodeMarketAccount sample_utf8
           (replicate 8 xff ++ drop 8 sample_bytes)) = true.
Proof.
  pose proof (hxro_decode_ignores_discriminator sample_utf8
                (replicate 8 xff) (replicate 8 x00) (drop 8 sample_bytes)
                eq_refl eq_refl) as H.
  split; [exact H|]. rewrite H. by vm_compute.
Defined.

(** Pools 100, 100 and 200 of a total of 400 with a fee of 50%: the odds
    4, 4 and 2 become 2, 2 and 1 net of the fee, and the prices their
    inverses. *)
Lemma hxro_price_inverse_of_net_odds_witness :
  ∃ decoded m,
    decodeMarketAccount sample_utf8 sample_bytes_half_fee = Ok decoded ∧
    normalize sample_clock decoded sample_account = Ok m ∧
    map pool (outcomes decoded) = [100; 100; 200] ∧
    totalPool decoded = 400 ∧ feePercent decoded = 5000 ∧
    map o_lastPrice (m_outcomes m) =
      [Some (Fin (frac 1 2)); Some (Fin (frac 1 2)); Some (Fin (ofZ 1))].
Proof.
  destruct (decodeMarketAccount sample_utf8 sample_bytes_half_fee)
    as [decoded|e] eqn:Hd; [|by vm_compute in Hd].
  destruct (hxro_normalize_returns sample_clock decoded sample_account)
    as (m & Hm & _); [done..|].
  exists decoded, m.
  pose proof (hxro_price_inverse_of_net_odds sample_utf8 sample_clock
                sample_bytes_half_fee decoded sample_account m Hd Hm) as Hprice.
  vm_compute in Hd. injection Hd as <-.
  split_and!; try done.
  rewrite Hprice. cbn [map outcomes pool totalPool feePercent].
  repeat f_equal; apply Qc_is_canon; by vm_compute.
Defined.

End HxroDecoderExamples.

(** ** Reconnection of the WebSocket manager *)

Section WebSocketFacts.
Import WebSocket.
Implicit Types getSlot network : nat → Result JsError Z.
Implicit Types fuel j k n : nat.
Implicit Types w : World.

Lemma backoff_rounds_snoc base a j :
  backoff_rounds base a (S j) =
    backoff_rounds base a j ++
    [Slept (reconnect_delay base (a + 1 + Z.of_nat j)); Probed].
Proof.
  unfold backoff_rounds. rewrite seq_S, flat_map_app. cbn [flat_map].
  by rewrite app_nil_r.
Qed.

Lemma after_failures_0 w :
  isReconnecting (manager w) = false → after_failures 0 w = w.
Proof.
  destruct w as [[acc prog a M D r] p l]. cbn. intros ->.
  unfold after_failures, set_reconnectAttempts, backoff_rounds. cbn.
  rewrite Z.add_0_r, Nat.add_0_r, app_nil_r. done.
Qed.

(** One failed attempt. *)
Lemma handleReconnect_failure getSlot fuel w e :
  isReconnecting (manager w) = false →
  reconnectAttempts (manager w) < maxReconnectAttempts (manager w) →
  getSlot (probes w) = Throw e →
  handleReconnect getSlot (S fuel) w =
    handleReconnect getSlot fuel (after_failures 1 w).
Proof.
  destruct w as [[acc prog a M D r] p l]. cbn. intros -> Hlt Hdown.
  rewrite decide_False by lia. rewrite Hdown.
  f_equal. unfold after_failures, backoff_rounds, reconnect_delay.
  unfold with_manager, set_isReconnecting, set_reconnectAttempts. cbn.
  rewrite <- app_assoc. cbn [app]. rewrite Z.add_0_r.
  f_equal. lia.
Qed.

Lemma after_failures_S j w :
  after_failures 1 (after_failures j w) = after_failures (S j) w.
Proof.
  destruct w as [[acc prog a M D r] p l].
  unfold after_failures. cbn [manager probes log set_reconnectAttempts
    reconnectAttempts reconnectDelay accountSubscriptions programSubscriptions
    maxReconnectAttempts isReconnecting].
  rewrite (backoff_rounds_snoc D a j), <- app_assoc.
  unfold backoff_rounds at 2. cbn [flat_map seq app]. rewrite Z.add_0_r.
  unfold set_reconnectAttempts. cbn.
  replace (a + Z.of_nat j + 1) with (a + Z.pos (Pos.of_succ_nat j)) by lia.
  replace (a + 1 + Z.of_nat j) with (a + Z.pos (Pos.of_succ_nat j)) by lia.
  f_equal; [f_equal; lia | lia].
Qed.

(** [j] failed attempts in a row. *)
Lemma handleReconnect_failures getSlot j fuel w :
  isReconnecting (manager w) = false →
  reconnectAttempts (manager w) + Z.of_nat j ≤ maxReconnectAttempts (manager w) →
  (∀ i, (i < j)%nat → is_ok (getSlot (probes w + i)%nat) = false) →
  handleReconnect getSlot (j + fuel) w =
    handleReconnect getSlot fuel (after_failures j w).
Proof.
  intros Hidle. revert fuel. induction j as [|j IH]; intros fuel Hle Hdown.
  - by rewrite after_failures_0.
  - replace (S j + fuel)%nat with (j + S fuel)%nat by lia.
    rewrite IH; [|lia|intros i Hi; apply Hdown; lia].
    destruct (getSlot (probes w + j)%nat) as [v|e] eqn:Hj.
    { specialize (Hdown j ltac:(lia)). by rewrite Hj in Hdown. }
    rewrite (handleReconnect_failure getSlot fuel _ e).
    + by rewrite after_failures_S.
    + by destruct w as [[] ? ?].
    + destruct w as [[] ? ?]. cbn in *. lia.
    + by destruct w as [[] ? ?].
Qed.

(** Past the limit, a call throws at once. *)
Lemma handleReconnect_exhausted network fuel w :
  isReconnecting (manager w) = false →
  maxReconnectAttempts (manager w) ≤ reconnectAttempts (manager w) →
  handleReconnect network (S fuel) w =
    Some (Throw max_attempts_error,
          with_manager
            (set_reconnectAttempts (reconnectAttempts (manager w) + 1)
               (manager w)) w).
Proof.
  destruct w as [[acc prog a M D r] p l]. cbn. intros -> Hle.
  by rewrite decide_True by lia.
Qed.

Lemma reconnect_calls_exhausted network fuel n w :
  isReconnecting (manager w) = false →
  maxReconnectAttempts (manager w) ≤ reconnectAttempts (manager w) →
  ∃ w', reconnect_calls network (S fuel) n w =
          Some (replicate n (Throw max_attempts_error), w') ∧
        log w' = log w ∧ probes w' = probes w ∧
        accountSubscriptions (manager w') = accountSubscriptions (manager w) ∧
        programSubscriptions (manager w') = programSubscriptions (manager w).
Proof.
  revert w. induction n as [|n IH]; intros w Hidle Hle; [by exists w|].
  cbn [reconnect_calls]. rewrite handleReconnect_exhausted by done.
  destruct (IH (with_manager
                  (set_reconnectAttempts (reconnectAttempts (manager w) + 1)
                     (manager w)) w))
    as (w' & -> & Hlog & Hprobes & Hacc & Hprog).
  - by destruct w as [[] ? ?].
  - destruct w as [[] ? ?]. cbn in *. lia.
  - exists w'. split; [done|]. by destruct w as [[] ? ?].
Qed.

(** X28: When the node does not answer, [handleReconnect] sleeps and probes
    once per remaining attempt, the delay doubling from [reconnectDelay]
    up to the cap of 30 s, and then throws.  The attempt counter is left
    above the limit and nothing resets it: every later call throws at
    once, without sleeping or probing, whatever the network does then. *)
Theorem reconnect_gives_up_for_good getSlot fuel w :
  isReconnecting (manager w) = false →
  0 ≤ reconnectAttempts (manager w) ≤ maxReconnectAttempts (manager w) →
  let remaining :=
    Z.to_nat (maxReconnectAttempts (manager w) - reconnectAttempts (manager w)) in
  (∀ i, (i < remaining)%nat → is_ok (getSlot (probes w + i)%nat) = false) →
  (remaining < fuel)%nat →
  ∃ w', handleReconnect getSlot fuel w = Some (Throw max_attempts_error, w') ∧
        log w' = log w ++
                 backoff_rounds (reconnectDelay (manager w))
                   (reconnectAttempts (manager w)) remaining ∧
        probes w' = (probes w + remaining)%nat ∧
        reconnectAttempts (manager w') = maxReconnectAttempts (manager w) + 1 ∧
        ∀ network n,
          ∃ w'', reconnect_calls network fuel n w' =
                   Some (replicate n (Throw max_attempts_error), w'') ∧
                 log w'' = log w' ∧ probes w'' = probes w'.
Proof.
  intros Hidle Ha remaining Hdown Hfuel.
  destruct fuel as [|fuel]; [lia|].
  replace (S fuel) with (remaining + S (fuel - remaining))%nat by lia.
  rewrite handleReconnect_failures; [|done|lia|done].
  rewrite handleReconnect_exhausted;
    [|by destruct w as [[] ? ?]|destruct w as [[] ? ?]; cbn in *; lia].
  eexists. split; [done|].
  split; [by destruct w as [[] ? ?]|]. split; [by destruct w as [[] ? ?]|].
  split; [destruct w as [[] ? ?]; cbn in *; lia|].
  intros network n.
  replace (remaining + S (fuel - remaining))%nat with (S fuel) by lia.
  edestruct (reconnect_calls_exhausted network fuel n) as (w'' & -> & Hl & Hp & _);
    [| |by exists w''].
  - by destruct w as [[] ? ?].
  - destruct w as [[] ? ?]. cbn in *. lia.
Qed.

(** X29: When the node answers the probe of some attempt within the limit,
    [handleReconnect] returns: the attempt counter is back at 0, and both
    subscription maps are empty, [resubscribeAll] having cleared them
    without subscribing anything again. *)
Theorem reconnect_success_drops_subscriptions getSlot fuel w k v :
  isReconnecting (manager w) = false →
  0 ≤ reconnectAttempts (manager w) →
  reconnectAttempts (manager w) + Z.of_nat k < maxReconnectAttempts (manager w) →
  (∀ i, (i < k)%nat → is_ok (getSlot (probes w + i)%nat) = false) →
  getSlot (probes w + k)%nat = Ok v →
  (k < fuel)%nat →
  ∃ w', handleReconnect getSlot fuel w = Some (Ok (), w') ∧
        log w' = log w ++
                 backoff_rounds (reconnectDelay (manager w))
                   (reconnectAttempts (manager w)) (S k) ∧
        reconnectAttempts (manager w') = 0 ∧
        isReconnecting (manager w') = false ∧
        accountSubscriptions (manager w') = [] ∧
        programSubscriptions (manager w') = [].
Proof.
  intros Hidle Ha Hlt Hdown Hup Hfuel.
  replace fuel with (k + S (fuel - S k))%nat by lia.
  rewrite handleReconnect_failures; [|done|lia|done].
  rewrite backoff_rounds_snoc.
  destruct w as [[acc prog a M D r] p l]. cbn in *. subst r.
  rewrite decide_False by lia. rewrite Hup.
  eexists. split; [done|]. cbn. split_and!; try done.
  rewrite <- !app_assoc. cbn [app]. unfold reconnect_delay.
  by replace (a + Z.of_nat k + 1 - 1) with (a + 1 + Z.of_nat k - 1) by lia.
Qed.

End WebSocketFacts.

Section WebSocketExamples.
Import WebSocket.

Lemma reconnect_gives_up_for_good_witness :
  ∃ w', handleReconnect down 11 (fresh [("market1", 7)] []) =
          Some (Throw max_attempts_error, w') ∧
        slept (log w') =
          [1000; 2000; 4000; 8000; 16000; 30000; 30000; 30000; 30000; 30000] ∧
        probes w' = 10%nat ∧
        ∃ w'', reconnect_calls up 11 3 w' =
                 Some (replicate 3 (Throw max_attempts_error), w'') ∧
               log w'' = log w'.
Proof.
  destruct (reconnect_gives_up_for_good down 11 (fresh [("market1", 7)] []))
    as (w' & Hw & Hlog & Hprobes & _ & Hstuck); [done | done | done | cbn; lia |].
  exists w'. split; [exact Hw|].
  split; [rewrite Hlog; vm_compute; reflexivity|]. split; [exact Hprobes|].
  destruct (Hstuck up 3%nat) as (w'' & Hw'' & Hlog'' & _).
  exists w''. split; [exact Hw'' | exact Hlog''].
Defined.

Lemma reconnect_success_drops_subscriptions_witness :
  ∃ w', handleReconnect (up_after 2) 11 (fresh [("market1", 7)] [("prog", 8)]) =
          Some (Ok (), w') ∧
        slept (log w') = [1000; 2000; 4000] ∧
        accountSubscriptions (manager w') = [] ∧
        programSubscriptions (manager w') = [].
Proof.
  destruct (reconnect_success_drops_subscriptions (up_after 2) 11
              (fresh [("market1", 7)] [("prog", 8)]) 2 250000000)
    as (w' & Hw & Hlog & _ & _ & Hacc & Hprog);
    [done | done | done | | done | lia |].
  - intros i Hi. destruct i as [|[|i]]; [done | done | lia].
  - exists w'. split; [exact Hw|].
    split; [|split; [exact Hacc | exact Hprog]].
    rewrite Hlog. vm_compute. reflexivity.
Defined.

End WebSocketExamples.

(** ** Replaying the buffer *)

Section ReplayQuery.
Import Dispatcher DispatcherMore.

Lemma filter_all {A} (P : A → Prop) `{!∀ x, Decision (P x)} (l : list A) :
  (∀ x, P x) → filter P l = l.
Proof.
  intros HP. induction l as [|x l IH]; [done|].
  by rewrite filter_cons_True, IH.
Qed.

Lemma map_event_inserted trace : map event (inserted trace) = enqueued trace.
Proof.
  unfold inserted, enqueued. induction trace as [|a trace IH]; [done|].
  change (a :: trace) with ([a] ++ trace).
  rewrite !omap_app, map_app, IH. f_equal. by destruct a.
Qed.

Lemma getReplayBuffer_filter eventType since d :
  getReplayBuffer eventType since d =
    filter (wanted eventType since) (map event (replayBuffer d)).
Proof.
  unfold getReplayBuffer, wanted.
  destruct eventType as [t|], since as [s|]; try case_decide;
    rewrite ?list_filter_filter;
    try (symmetry; apply filter_all; intros e);
    try (apply list_filter_iff; intros e);
    rewrite ?andb_True, ?orb_True, ?bool_decide_spec; subst; intuition done.
Qed.

(** X30: A replay serves, in arrival order, those of the last [maxSize]
    dispatched events (of all types together) that have the requested type
    and are stamped at or after [since]; a [since] of 0 filters nothing.
    So it never returns more than [maxSize] events, and events of a rare
    type are pushed out by later events of other types. *)
Theorem replay_serves_recent_matching config trace eventType since :
  enabled config = true → 0 ≤ maxSize config →
  getReplayBuffer eventType since (run (create config) trace) =
    filter (wanted eventType since)
      (last_n (Z.to_nat (maxSize config)) (enqueued trace)) ∧
  getReplayBuffer eventType since (run (create config) trace)
    `sublist_of` enqueued trace ∧
  Z.of_nat (length (getReplayBuffer eventType since (run (create config) trace)))
    ≤ maxSize config.
Proof.
  intros Hon Hmax. rewrite getReplayBuffer_filter, run_replayBuffer by done.
  assert (map event (last_n (Z.to_nat (maxSize config)) (inserted trace)) =
          last_n (Z.to_nat (maxSize config)) (enqueued trace)) as ->.
  { unfold last_n. rewrite <- map_event_inserted, length_map.
    apply fmap_drop. }
  split; [done|]. split.
  - etrans; [apply sublist_filter|]. apply sublist_drop.
  - pose proof (length_filter (wanted eventType since)
                  (last_n (Z.to_nat (maxSize config)) (enqueued trace))) as H.
    unfold last_n in *. rewrite length_drop in H. lia.
Qed.

Lemma replay_serves_recent_matching_witness :
  getReplayBuffer (Some (type (sample_event 1))) None
    (run (create (sample_options 2))
       [Dispatch 10 (sample_event 1); Settled 0;
        Dispatch 20 (sample_event 2); Dispatch 30 (sample_event 3)]) =
  filter (wanted (Some (type (sample_event 1))) None)
    [sample_event 2; sample_event 3].
Proof.
  by destruct (replay_serves_recent_matching (sample_options 2)
       [Dispatch 10 (sample_event 1); Settled 0;
        Dispatch 20 (sample_event 2); Dispatch 30 (sample_event 3)]
       (Some (type (sample_event 1))) None eq_refl ltac:(simpl; lia))
    as [H _].
Defined.
End ReplayQuery.
